(** * The let/print interpreter: lexer, parser and tree-walking evaluator

    A shallow embedding of [lexer.py], [ast_nodes.py], [parser.py],
    [interpreter.py] and of the output-capturing subclass of [app.py],
    followed by the properties of the pipeline.

    Conventions of the embedding.
    - A Python [str] is a [string]; a character is an [ascii], read as the
      code point of the same number (0..255).  The character classes
      [isspace], [isdigit], [isalpha], [isalnum] are those of Python's
      [str] methods on these code points.
    - A Python [int] is a [Z]; a Python [float] is a binary64 number,
      a [spec_float] operated with precision 53 and maximal exponent 1024.
    - A method that mutates [self] takes the object and returns the new one.
    - [raise] is the [Raise] result; a [while] loop is a fixpoint on a fuel
      counter that the calling method sets from the length of the unread
      text, and running out of it is the separate result [OutOfFuel].
    - The calls of Python are not counted.  Where the recursion of the
      parser or of the evaluator nests beyond the recursion limit of the
      host, Python raises [RecursionError] and the functions here go on;
      a statement below that tells what a method returns on every input
      tells it of the runs that stay within that limit. *)

From Stdlib Require Import ZArith NArith List String Ascii Bool Lia Arith.
From Stdlib Require Import Decimal DecimalString.
From Stdlib Require Import Floats.SpecFloat.
Import ListNotations.
Open Scope list_scope.
Open Scope string_scope.

(** ** The host: what the Python runtime contributes *)

(** [int_max_str_digits] is [sys.get_int_max_str_digits()]: the bound on the
    number of digits in conversions between [int] and [str] (0 disables it;
    interpreters older than 3.11 behave as with 0).  [float_repr] is [repr]
    on floats, the shortest decimal text that reads back as the float. *)
Class Host := {
  int_max_str_digits : nat;
  float_repr : spec_float -> string
}.

(** CPython checks the bound only beyond this many digits. *)
Definition max_str_digits_threshold : nat := 640.

Definition exceeds_str_digits `{Host} (ndigits : nat) : bool :=
  ((max_str_digits_threshold <? ndigits) && (0 <? int_max_str_digits)
   && (int_max_str_digits <? ndigits))%nat.

(** ** Exceptions and results *)

(** [RecursionError] is what the host raises when calls nest beyond its
    recursion limit; no function of this embedding raises it, see the
    conventions above. *)
Inductive exn :=
| Exception (msg : string)
| ValueError (msg : string)
| OverflowError (msg : string)
| ZeroDivisionError (msg : string)
| KeyError (key : string)
| RecursionError (msg : string).

Inductive result (A : Type) :=
| Ok (a : A)
| Raise (e : exn)
| OutOfFuel.
Arguments Ok {A} a.
Arguments Raise {A} e.
Arguments OutOfFuel {A}.

Definition bind {A B} (r : result A) (k : A -> result B) : result B :=
  match r with
  | Ok a => k a
  | Raise e => Raise e
  | OutOfFuel => OutOfFuel
  end.

Notation "x <- r ;; k" := (bind r (fun x => k))
  (at level 61, r at next level, right associativity).
Notation "' p <- r ;; k" := (bind r (fun p => k))
  (at level 61, p pattern, r at next level, right associativity).

(** ** Characters *)

Definition newline : ascii := "010"%char.
Definition dot : ascii := "."%char.
Definition slash : ascii := "/"%char.
Definition underscore : ascii := "_"%char.

Definition ord (c : ascii) : N := N_of_ascii c.

Definition between (lo hi : N) (c : ascii) : bool :=
  ((lo <=? ord c) && (ord c <=? hi))%N.

(** [str.isspace]: TAB..CR, FS..US, space, NEL, NBSP. *)
Definition isspace (c : ascii) : bool :=
  between 9 13 c || between 28 32 c || between 133 133 c || between 160 160 c.

(** [str.isdecimal]: the digits that [int] and [float] read. *)
Definition isdecimal (c : ascii) : bool := between 48 57 c.

(** [str.isdigit]: the decimal digits and the superscripts 2, 3, 1. *)
Definition isdigit (c : ascii) : bool :=
  isdecimal c || between 178 179 c || between 185 185 c.

(** [str.isalpha]: the letters of Latin-1. *)
Definition isalpha (c : ascii) : bool :=
  between 65 90 c || between 97 122 c
  || between 170 170 c || between 181 181 c || between 186 186 c
  || between 192 214 c || between 216 246 c || between 248 255 c.

(** [str.isalnum]: letters, digits and the vulgar fractions. *)
Definition isalnum (c : ascii) : bool :=
  isalpha c || isdigit c || between 188 190 c.

(** ** Numbers *)

Definition prec : Z := 53.
Definition emax : Z := 1024.

Inductive pynum :=
| PyInt (z : Z)
| PyFloat (f : spec_float).

(** The integer [z] as an exact, not yet rounded, binary number. *)
Definition exact (z : Z) : spec_float :=
  match z with
  | Z0 => S754_zero false
  | Zpos m => S754_finite false m 0
  | Zneg m => S754_finite true m 0
  end.

(** [str(n)] for a natural number and for an integer. *)
Definition str_nat (n : nat) : string := NilZero.string_of_uint (Nat.to_uint n).

Definition decimal (z : Z) : string := NilZero.string_of_int (Z.to_int z).

Definition digit_value (c : ascii) : Z := Z.of_N (ord c) - 48.

Fixpoint digits_value (acc : Z) (s : string) : Z :=
  match s with
  | EmptyString => acc
  | String c s' => digits_value (10 * acc + digit_value c) s'
  end.

Fixpoint forallb_string (p : ascii -> bool) (s : string) : bool :=
  match s with
  | EmptyString => true
  | String c s' => p c && forallb_string p s'
  end.

(** [c in s]. *)
Fixpoint contains (c : ascii) (s : string) : bool :=
  match s with
  | EmptyString => false
  | String c' s' => Ascii.eqb c' c || contains c s'
  end.

(** The number of characters of the text up to the first that does not
    satisfy [p]. *)
Fixpoint leading (p : ascii -> bool) (s : string) : nat :=
  match s with
  | EmptyString => O
  | String c s' => if p c then S (leading p s') else O
  end.

(** [int(s)] on a text of digit characters and dots.  CPython counts the
    decimal digits that the text starts with and checks their number against
    the limit first; a text that is not all decimal digits, or is empty, is
    then no literal. *)
Definition py_int `{Host} (s : string) : result Z :=
  let ndigits := leading isdecimal s in
  if exceeds_str_digits ndigits then
    Raise (ValueError
             ("Exceeds the limit (" ++ str_nat int_max_str_digits
              ++ " digits) for integer string conversion: value has "
              ++ str_nat ndigits
              ++ " digits; use sys.set_int_max_str_digits() to increase the limit"))
  else if negb (forallb_string isdecimal s) || (String.length s =? 0)%nat then
    Raise (ValueError ("invalid literal for int() with base 10: '" ++ s ++ "'"))
  else Ok (digits_value 0 s).

(** The text before the first dot, and the text after it. *)
Fixpoint split_dot (s : string) : string * option string :=
  match s with
  | EmptyString => (EmptyString, None)
  | String c s' =>
      if Ascii.eqb c dot then (EmptyString, Some s')
      else let '(a, b) := split_dot s' in (String c a, b)
  end.

(** [float(s)] on a text of digit characters and dots: the text must be
    decimal digits around at most one dot, with a digit somewhere, and its
    value is the quotient of the digits by the power of ten, rounded once to
    the nearest binary64 number; a value too large reads as infinity. *)
Definition py_float (s : string) : result spec_float :=
  let '(ip, fp) := split_dot s in
  let fp := match fp with Some t => t | None => EmptyString end in
  if forallb_string isdecimal ip && forallb_string isdecimal fp
     && negb (String.length (ip ++ fp) =? 0)%nat
  then Ok (SFdiv prec emax (exact (digits_value 0 (ip ++ fp)))
                           (exact (10 ^ Z.of_nat (String.length fp))))
  else Raise (ValueError ("could not convert string to float: '" ++ s ++ "'")).

(** ** lexer.py *)

Inductive TokenType :=
| NUMBER | ID
| LET | PRINT
| PLUS | MINUS | MUL | DIV | ASSIGN
| LPAREN | RPAREN | SEMI
| EOF.

Definition TokenType_eqb (a b : TokenType) : bool :=
  match a, b with
  | NUMBER, NUMBER | ID, ID | LET, LET | PRINT, PRINT
  | PLUS, PLUS | MINUS, MINUS | MUL, MUL | DIV, DIV | ASSIGN, ASSIGN
  | LPAREN, LPAREN | RPAREN, RPAREN | SEMI, SEMI | EOF, EOF => true
  | _, _ => false
  end.

(** [str(token_type)], as the parser's messages show it. *)
Definition TokenType_str (t : TokenType) : string :=
  "TokenType." ++
  match t with
  | NUMBER => "NUMBER" | ID => "ID" | LET => "LET" | PRINT => "PRINT"
  | PLUS => "PLUS" | MINUS => "MINUS" | MUL => "MUL" | DIV => "DIV"
  | ASSIGN => "ASSIGN" | LPAREN => "LPAREN" | RPAREN => "RPAREN"
  | SEMI => "SEMI" | EOF => "EOF"
  end.

(** What a token carries in [value]: a number, a text, or [None]. *)
Inductive tokval :=
| NoValue
| NumValue (n : pynum)
| StrValue (s : string).

Record Token := mkToken {
  type : TokenType;
  value : tokval;
  tline : nat;
  tcolumn : nat
}.

Record Lexer := mkLexer {
  text : string;
  pos : nat;
  current_char : option ascii;
  line : nat;
  column : nat
}.

(** [Lexer.__init__] *)
Definition Lexer_init (source : string) : Lexer :=
  {| text := source;
     pos := 0;
     current_char := String.get 0 source;
     line := 1;
     column := 1 |}.

(** [Lexer.error] *)
Definition lexer_error {A} (lx : Lexer) (msg : string) : result A :=
  Raise (Exception ("Lexer error at line " ++ str_nat (line lx)
                    ++ ", column " ++ str_nat (column lx) ++ ": " ++ msg)).

(** [Lexer.advance] *)
Definition advance (lx : Lexer) : Lexer :=
  let '(l, c) :=
    match current_char lx with
    | Some ch => if Ascii.eqb ch newline then (S (line lx), 1%nat)
                 else (line lx, S (column lx))
    | None => (line lx, S (column lx))
    end in
  let p := S (pos lx) in
  {| text := text lx;
     pos := p;
     current_char :=
       if (String.length (text lx) <=? p)%nat then None
       else String.get p (text lx);
     line := l;
     column := c |}.

(** [Lexer.peek], at its default offset 1 *)
Definition peek (lx : Lexer) : option ascii :=
  let peek_pos := (pos lx + 1)%nat in
  if (String.length (text lx) <=? peek_pos)%nat then None
  else String.get peek_pos (text lx).

(** The number of characters not yet passed; a loop that passes a character
    in every round but its last takes one more than this as its fuel. *)
Definition remaining (lx : Lexer) : nat := String.length (text lx) - pos lx.

(** The loop shared by the four scanning methods:
    [while self.current_char is not None and p(self.current_char):
       result += self.current_char; self.advance()]. *)
Fixpoint scan_while (p : ascii -> bool) (fuel : nat) (acc : string)
  (lx : Lexer) : result (string * Lexer) :=
  match fuel with
  | O => OutOfFuel
  | S fuel' =>
      match current_char lx with
      | Some ch =>
          if p ch then scan_while p fuel' (acc ++ String ch EmptyString) (advance lx)
          else Ok (acc, lx)
      | None => Ok (acc, lx)
      end
  end.

(** [Lexer.skip_whitespace] *)
Definition skip_whitespace (lx : Lexer) : result Lexer :=
  '(_, lx') <- scan_while isspace (S (remaining lx)) "" lx ;;
  Ok lx'.

Definition char_is (c : ascii) (o : option ascii) : bool :=
  match o with
  | Some ch => Ascii.eqb ch c
  | None => false
  end.

(** [Lexer.skip_comment] *)
Definition skip_comment (lx : Lexer) : result Lexer :=
  if char_is slash (current_char lx) && char_is slash (peek lx) then
    '(_, lx1) <- scan_while (fun ch => negb (Ascii.eqb ch newline))
                            (S (remaining lx)) "" lx ;;
    if char_is newline (current_char lx1) then Ok (advance lx1) else Ok lx1
  else Ok lx.

(** [Lexer.number] *)
Definition number `{Host} (lx : Lexer) : result (Token * Lexer) :=
  let start_column := column lx in
  '(result, lx') <- scan_while (fun ch => isdigit ch || Ascii.eqb ch dot)
                               (S (remaining lx)) "" lx ;;
  if contains dot result then
    f <- py_float result ;;
    Ok (mkToken NUMBER (NumValue (PyFloat f)) (line lx') start_column, lx')
  else
    z <- py_int result ;;
    Ok (mkToken NUMBER (NumValue (PyInt z)) (line lx') start_column, lx').

(** The dictionary [keywords], read with [keywords.get(result, TokenType.ID)]. *)
Definition keywords_get (s : string) : TokenType :=
  if String.eqb s "let" then LET
  else if String.eqb s "print" then PRINT
  else ID.

(** [Lexer.identifier] *)
Definition identifier (lx : Lexer) : result (Token * Lexer) :=
  let start_column := column lx in
  '(result, lx') <- scan_while (fun ch => isalnum ch || Ascii.eqb ch underscore)
                               (S (remaining lx)) "" lx ;;
  let token_type := keywords_get result in
  Ok (mkToken token_type (StrValue result) (line lx') start_column, lx').

(** The single-character tokens of [get_next_token], in the order of its
    tests. *)
Definition operator (ch : ascii) : option TokenType :=
  if Ascii.eqb ch "+" then Some PLUS
  else if Ascii.eqb ch "-" then Some MINUS
  else if Ascii.eqb ch "*" then Some MUL
  else if Ascii.eqb ch "/" then Some DIV
  else if Ascii.eqb ch "=" then Some ASSIGN
  else if Ascii.eqb ch "(" then Some LPAREN
  else if Ascii.eqb ch ")" then Some RPAREN
  else if Ascii.eqb ch ";" then Some SEMI
  else None.

(** The [while] loop of [Lexer.get_next_token]. *)
Fixpoint get_next_token_loop `{Host} (fuel : nat) (lx : Lexer)
  : result (Token * Lexer) :=
  match fuel with
  | O => OutOfFuel
  | S fuel' =>
      match current_char lx with
      | None => Ok (mkToken EOF NoValue (line lx) (column lx), lx)
      | Some ch =>
          if isspace ch then
            lx' <- skip_whitespace lx ;; get_next_token_loop fuel' lx'
          else if Ascii.eqb ch slash && char_is slash (peek lx) then
            lx' <- skip_comment lx ;; get_next_token_loop fuel' lx'
          else if isdigit ch then number lx
          else if isalpha ch || Ascii.eqb ch underscore then identifier lx
          else
            match operator ch with
            | Some k =>
                let token := mkToken k (StrValue (String ch EmptyString))
                                     (line lx) (column lx) in
                Ok (token, advance lx)
            | None =>
                lexer_error lx ("Invalid character '" ++ String ch EmptyString ++ "'")
            end
      end
  end.

(** [Lexer.get_next_token] *)
Definition get_next_token `{Host} (lx : Lexer) : result (Token * Lexer) :=
  get_next_token_loop (S (remaining lx)) lx.

(** The [while] loop of [Lexer.tokenize]. *)
Fixpoint tokenize_loop `{Host} (fuel : nat) (tokens : list Token)
  (token : Token) (lx : Lexer) : result (list Token * Lexer) :=
  match fuel with
  | O => OutOfFuel
  | S fuel' =>
      if negb (TokenType_eqb (type token) EOF) then
        '(token', lx') <- get_next_token lx ;;
        tokenize_loop fuel' (tokens ++ [token])%list token' lx'
      else Ok ((tokens ++ [token])%list, lx)
  end.

(** [Lexer.tokenize] *)
Definition tokenize `{Host} (lx : Lexer) : result (list Token * Lexer) :=
  '(token, lx1) <- get_next_token lx ;;
  tokenize_loop (S (S (remaining lx1))) [] token lx1.

(** ** ast_nodes.py *)

(** The parser builds expressions from [factor], [term] and [expr],
    statements from [assignment] and [print_stmt], and one [ProgramNode] over
    the list of statements; the three types below are the node classes
    sorted by these places. *)
Inductive ExprNode :=
| NumberNode (value : pynum)
| VarNode (name : string)
| BinOpNode (left : ExprNode) (op : string) (right : ExprNode).

Inductive StmtNode :=
| AssignNode (var : string) (expr : ExprNode)
| PrintNode (expr : ExprNode).

Inductive Program :=
| ProgramNode (statements : list StmtNode).

(** ** parser.py *)

Record Parser := mkParser {
  lexer : Lexer;
  current_token : Token
}.

(** The number in [token.value]; the lexer puts one in every NUMBER token
    (lemma [get_next_token_value]). *)
Definition token_number (token : Token) : pynum :=
  match value token with
  | NumValue n => n
  | _ => PyInt 0
  end.

(** The text in [token.value]; the lexer puts one in every token that is
    neither NUMBER nor EOF. *)
Definition token_text (token : Token) : string :=
  match value token with
  | StrValue s => s
  | _ => EmptyString
  end.

(** [Parser.__init__] *)
Definition Parser_init `{Host} (lx : Lexer) : result Parser :=
  '(token, lx') <- get_next_token lx ;;
  Ok (mkParser lx' token).

(** [Parser.error] *)
Definition parser_error {A} (p : Parser) (msg : string) : result A :=
  Raise (Exception ("Parser error at line " ++ str_nat (tline (current_token p))
                    ++ ", column " ++ str_nat (tcolumn (current_token p))
                    ++ ": " ++ msg)).

(** [Parser.eat] *)
Definition eat `{Host} (p : Parser) (token_type : TokenType) : result Parser :=
  if TokenType_eqb (type (current_token p)) token_type then
    '(token, lx') <- get_next_token (lexer p) ;;
    Ok (mkParser lx' token)
  else
    parser_error p ("Expected " ++ TokenType_str token_type ++ ", got "
                    ++ TokenType_str (type (current_token p))).

Definition parsing (A : Type) : Type := Parser -> result (A * Parser).

(** [Parser.factor], over the method [expr] it calls. *)
Definition factor_with `{Host} (expr : parsing ExprNode) : parsing ExprNode :=
  fun p =>
  let token := current_token p in
  match type token with
  | NUMBER =>
      p1 <- eat p NUMBER ;;
      Ok (NumberNode (token_number token), p1)
  | ID =>
      p1 <- eat p ID ;;
      Ok (VarNode (token_text token), p1)
  | LPAREN =>
      p1 <- eat p LPAREN ;;
      '(node, p2) <- expr p1 ;;
      p3 <- eat p2 RPAREN ;;
      Ok (node, p3)
  | _ => parser_error p ("Unexpected token " ++ TokenType_str (type token))
  end.

(** The [while] loop of [Parser.term], over the method [factor]. *)
Fixpoint term_loop `{Host} (factor : parsing ExprNode) (fuel : nat)
  (node : ExprNode) (p : Parser) : result (ExprNode * Parser) :=
  match fuel with
  | O => OutOfFuel
  | S fuel' =>
      let token := current_token p in
      match type token with
      | MUL =>
          p1 <- eat p MUL ;;
          '(right_node, p2) <- factor p1 ;;
          term_loop factor fuel' (BinOpNode node (token_text token) right_node) p2
      | DIV =>
          p1 <- eat p DIV ;;
          '(right_node, p2) <- factor p1 ;;
          term_loop factor fuel' (BinOpNode node (token_text token) right_node) p2
      | _ => Ok (node, p)
      end
  end.

(** [Parser.term] *)
Definition term_with `{Host} (factor : parsing ExprNode) (fuel : nat)
  : parsing ExprNode :=
  fun p =>
  '(node, p1) <- factor p ;;
  term_loop factor fuel node p1.

(** The [while] loop of [Parser.expr], over the method [term]. *)
Fixpoint expr_loop `{Host} (term : parsing ExprNode) (fuel : nat)
  (node : ExprNode) (p : Parser) : result (ExprNode * Parser) :=
  match fuel with
  | O => OutOfFuel
  | S fuel' =>
      let token := current_token p in
      match type token with
      | PLUS =>
          p1 <- eat p PLUS ;;
          '(right_node, p2) <- term p1 ;;
          expr_loop term fuel' (BinOpNode node (token_text token) right_node) p2
      | MINUS =>
          p1 <- eat p MINUS ;;
          '(right_node, p2) <- term p1 ;;
          expr_loop term fuel' (BinOpNode node (token_text token) right_node) p2
      | _ => Ok (node, p)
      end
  end.

(** [Parser.expr]: the fuel bounds the nesting of parentheses and the
    length of each operator chain.  [expr], [term] and [factor] call each
    other once for every level of parentheses; the recursion limit of the
    host, which stops the real methods with [RecursionError] at some depth,
    is not part of this definition. *)
Fixpoint expr `{Host} (fuel : nat) (p : Parser) : result (ExprNode * Parser) :=
  match fuel with
  | O => OutOfFuel
  | S fuel' =>
      let term := term_with (factor_with (expr fuel')) fuel' in
      '(node, p1) <- term p ;;
      expr_loop term fuel' node p1
  end.

Definition factor `{Host} (fuel : nat) : parsing ExprNode :=
  factor_with (expr fuel).

Definition term `{Host} (fuel : nat) : parsing ExprNode :=
  term_with (factor fuel) fuel.

(** [Parser.assignment] *)
Definition assignment `{Host} (fuel : nat) : parsing StmtNode :=
  fun p =>
  p1 <- eat p LET ;;
  let var_token := current_token p1 in
  p2 <- eat p1 ID ;;
  p3 <- eat p2 ASSIGN ;;
  '(expr_node, p4) <- expr fuel p3 ;;
  p5 <- eat p4 SEMI ;;
  Ok (AssignNode (token_text var_token) expr_node, p5).

(** [Parser.print_stmt] *)
Definition print_stmt `{Host} (fuel : nat) : parsing StmtNode :=
  fun p =>
  p1 <- eat p PRINT ;;
  p2 <- eat p1 LPAREN ;;
  '(expr_node, p3) <- expr fuel p2 ;;
  p4 <- eat p3 RPAREN ;;
  p5 <- eat p4 SEMI ;;
  Ok (PrintNode expr_node, p5).

(** [Parser.statement] *)
Definition statement `{Host} (fuel : nat) : parsing StmtNode :=
  fun p =>
  match type (current_token p) with
  | LET => assignment fuel p
  | PRINT => print_stmt fuel p
  | t => parser_error p ("Unexpected token " ++ TokenType_str t)
  end.

(** The [while] loop of [Parser.program]. *)
Fixpoint program_loop `{Host} (fuel : nat) (statements : list StmtNode)
  (p : Parser) : result (Program * Parser) :=
  match fuel with
  | O => OutOfFuel
  | S fuel' =>
      if negb (TokenType_eqb (type (current_token p)) EOF) then
        '(s, p1) <- statement fuel' p ;;
        program_loop fuel' (statements ++ [s])%list p1
      else Ok (ProgramNode statements, p)
  end.

(** [Parser.program] *)
Definition program `{Host} : parsing Program :=
  fun p => program_loop (S (S (remaining (lexer p)))) [] p.

(** [Parser.parse] *)
Definition parse `{Host} : parsing Program := program.

(** [Parser(Lexer(source)).parse()], as every caller runs the front end. *)
Definition parse_source `{Host} (source : string) : result Program :=
  p <- Parser_init (Lexer_init source) ;;
  '(ast, _) <- parse p ;;
  Ok ast.

(** ** Python arithmetic on [int] and [float] *)

(** [float(z)]: the nearest binary64 number, ties to even. *)
Definition to_float (z : Z) : result spec_float :=
  match binary_normalize prec emax z 0 false with
  | S754_infinity _ => Raise (OverflowError "int too large to convert to float")
  | f => Ok f
  end.

Definition as_float (a : pynum) : result spec_float :=
  match a with
  | PyInt z => to_float z
  | PyFloat f => Ok f
  end.

(** [a + b], [a - b], [a * b]: integer arithmetic on two integers, otherwise
    the binary64 operation on the operands converted to [float]. *)
Definition arith (int_op : Z -> Z -> Z)
  (float_op : spec_float -> spec_float -> spec_float) (a b : pynum)
  : result pynum :=
  match a, b with
  | PyInt x, PyInt y => Ok (PyInt (int_op x y))
  | _, _ =>
      f <- as_float a ;;
      g <- as_float b ;;
      Ok (PyFloat (float_op f g))
  end.

Definition py_add : pynum -> pynum -> result pynum :=
  arith Z.add (SFadd prec emax).
Definition py_sub : pynum -> pynum -> result pynum :=
  arith Z.sub (SFsub prec emax).
Definition py_mul : pynum -> pynum -> result pynum :=
  arith Z.mul (SFmul prec emax).

Definition is_zero (f : spec_float) : bool :=
  match f with
  | S754_zero _ => true
  | _ => false
  end.

(** [a / b], true division: on two integers the quotient rounded once; with a
    float operand the binary64 division of the converted operands. *)
Definition py_truediv (a b : pynum) : result pynum :=
  match a, b with
  | PyInt x, PyInt y =>
      if (y =? 0)%Z then Raise (ZeroDivisionError "division by zero")
      else
        match SFdiv prec emax (exact x) (exact y) with
        | S754_infinity _ =>
            Raise (OverflowError "integer division result too large for a float")
        | q => Ok (PyFloat q)
        end
  | _, _ =>
      f <- as_float a ;;
      g <- as_float b ;;
      if is_zero g then Raise (ZeroDivisionError "float division by zero")
      else Ok (PyFloat (SFdiv prec emax f g))
  end.

(** The comparison of a float with an integer is exact. *)
Definition float_eq_int (f : spec_float) (z : Z) : bool :=
  match f with
  | S754_zero _ => (z =? 0)%Z
  | S754_finite s m e =>
      let sm := if s then Zneg m else Zpos m in
      if (0 <=? e)%Z then (sm * 2 ^ e =? z)%Z
      else (sm =? z * 2 ^ (- e))%Z
  | _ => false
  end.

(** [a == b] *)
Definition py_eq (a b : pynum) : bool :=
  match a, b with
  | PyInt x, PyInt y => (x =? y)%Z
  | PyFloat f, PyFloat g => SFeqb f g
  | PyFloat f, PyInt y => float_eq_int f y
  | PyInt x, PyFloat g => float_eq_int g x
  end.

(** [str(v)] *)
Definition py_str `{Host} (v : pynum) : result string :=
  match v with
  | PyInt z =>
      if exceeds_str_digits (String.length (decimal (Z.abs z))) then
        Raise (ValueError
                 ("Exceeds the limit (" ++ str_nat int_max_str_digits
                  ++ " digits) for integer string conversion; "
                  ++ "use sys.set_int_max_str_digits() to increase the limit"))
      else Ok (decimal z)
  | PyFloat f => Ok (float_repr f)
  end.

(** ** A [dict] with text keys: the bindings in insertion order *)

Definition dict (V : Type) : Type := list (string * V).

Fixpoint dict_get {V} (k : string) (d : dict V) : option V :=
  match d with
  | [] => None
  | (k', v) :: d' => if String.eqb k' k then Some v else dict_get k d'
  end.

(** [d[k] = v]: a present key keeps its place, a new one goes last. *)
Fixpoint dict_set {V} (k : string) (v : V) (d : dict V) : dict V :=
  match d with
  | [] => [(k, v)]
  | (k', v') :: d' =>
      if String.eqb k' k then (k', v) :: d' else (k', v') :: dict_set k v d'
  end.

Definition dict_keys {V} (d : dict V) : list string := map fst d.

(** ** interpreter.py *)

(** The interpreter object, and next to it the text written so far to the
    standard output of the process, where [print] writes. *)
Record Interpreter := mkInterpreter {
  symbol_table : dict pynum;
  stdout : string
}.

(** [Interpreter.__init__], on a standard output that holds [out]. *)
Definition Interpreter_init (out : string) : Interpreter :=
  {| symbol_table := []; stdout := out |}.

(** A method of the interpreter: it returns or raises, and leaves the object
    and the standard output in a new state either way. *)
Definition method (A : Type) : Type := Interpreter -> result A * Interpreter.

Definition ret {A} (a : A) : method A := fun self => (Ok a, self).

Definition raise_ {A} (e : exn) : method A := fun self => (Raise e, self).

Definition lift {A} (r : result A) : method A := fun self => (r, self).

Definition mbind {A B} (m : method A) (k : A -> method B) : method B :=
  fun self =>
    match m self with
    | (Ok a, self') => k a self'
    | (Raise e, self') => (Raise e, self')
    | (OutOfFuel, self') => (OutOfFuel, self')
    end.

Notation "x <~ m ;; k" := (mbind m (fun x => k))
  (at level 61, m at next level, right associativity).

(** [Interpreter.error] *)
Definition runtime_error {A} (msg : string) : method A :=
  raise_ (Exception ("Runtime error: " ++ msg)).

(** [Interpreter.visit_NumberNode] *)
Definition visit_NumberNode (value : pynum) : method pynum := ret value.

(** [Interpreter.visit_VarNode] *)
Definition visit_VarNode (name : string) : method pynum :=
  fun self =>
    let var_name := name in
    match dict_get var_name (symbol_table self) with
    | None => runtime_error ("Variable '" ++ var_name ++ "' is not defined") self
    | Some v => ret v self
    end.

(** [Interpreter.visit_BinOpNode], over the dispatching [visit]. *)
Definition visit_BinOpNode (visit : ExprNode -> method pynum)
  (left : ExprNode) (op : string) (right : ExprNode) : method pynum :=
  left_val <~ visit left ;;
  right_val <~ visit right ;;
  if String.eqb op "+" then lift (py_add left_val right_val)
  else if String.eqb op "-" then lift (py_sub left_val right_val)
  else if String.eqb op "*" then lift (py_mul left_val right_val)
  else if String.eqb op "/" then
    if py_eq right_val (PyInt 0) then runtime_error "Division by zero"
    else lift (py_truediv left_val right_val)
  else runtime_error ("Unknown operator: " ++ op).

(** [Interpreter.visit], on the nodes of expressions.  The real method
    calls itself through [visit_BinOpNode] once for every level of the tree;
    the recursion limit of the host, which stops it with [RecursionError] on
    a tree too deep, is not part of this definition. *)
Fixpoint visit (node : ExprNode) : method pynum :=
  match node with
  | NumberNode value => visit_NumberNode value
  | VarNode name => visit_VarNode name
  | BinOpNode l op r => visit_BinOpNode visit l op r
  end.

(** [print(value)]: the text of the value and a newline go to the standard
    output. *)
Definition print `{Host} (v : pynum) : method unit :=
  fun self =>
    match py_str v with
    | Ok s => (Ok tt, {| symbol_table := symbol_table self;
                         stdout := stdout self ++ s ++ String newline EmptyString |})
    | Raise e => (Raise e, self)
    | OutOfFuel => (OutOfFuel, self)
    end.

(** [Interpreter.visit_AssignNode] *)
Definition visit_AssignNode (var : string) (expr : ExprNode) : method unit :=
  let var_name := var in
  value <~ visit expr ;;
  fun self =>
    (Ok tt, {| symbol_table := dict_set var_name value (symbol_table self);
               stdout := stdout self |}).

(** [Interpreter.visit_PrintNode] *)
Definition visit_PrintNode `{Host} (expr : ExprNode) : method unit :=
  value <~ visit expr ;;
  print value.

(** [Interpreter.visit], on the nodes of statements. *)
Definition visit_statement `{Host} (node : StmtNode) : method unit :=
  match node with
  | AssignNode var expr => visit_AssignNode var expr
  | PrintNode expr => visit_PrintNode expr
  end.

(** The [for] loop of [Interpreter.visit_ProgramNode]. *)
Fixpoint visit_statements `{Host} (statements : list StmtNode) : method unit :=
  match statements with
  | [] => ret tt
  | statement :: rest => _ <~ visit_statement statement ;; visit_statements rest
  end.

(** [Interpreter.visit_ProgramNode] *)
Definition visit_ProgramNode `{Host} (node : Program) : method unit :=
  match node with
  | ProgramNode statements => visit_statements statements
  end.

(** [Interpreter.interpret] *)
Definition interpret `{Host} (ast : Program) : method unit :=
  visit_ProgramNode ast.

(** [Interpreter.get_symbol_table] *)
Definition get_symbol_table (self : Interpreter) : dict pynum :=
  symbol_table self.

(** The whole pipeline on a fresh interpreter and an empty standard output:
    [Lexer], [Parser], [parse], [Interpreter], [interpret], as the tests of
    [test_interpreter.py] chain them.  ([run_code] of [main.py] runs the same
    chain and, when it raises, prints a line for the error before it raises
    it again; that line is not part of this definition.) *)
Definition run_source `{Host} (source : string) : result unit * Interpreter :=
  match parse_source source with
  | Ok ast => interpret ast (Interpreter_init "")
  | Raise e => (Raise e, Interpreter_init "")
  | OutOfFuel => (OutOfFuel, Interpreter_init "")
  end.

(** ** app.py: the interpreter that keeps its output *)

(** An entry of [timeline]: the dictionaries that the two overriding methods
    append. *)
Inductive timeline_entry :=
| PrintEntry (value : string) (table : dict pynum)
| AssignmentEntry (variable : string) (value : pynum) (table : dict pynum).

(** [WebInterpreter], the subclass of [Interpreter] local to [execute]. *)
Record WebInterpreter := mkWebInterpreter {
  base : Interpreter;
  output_lines : list string;
  timeline : list timeline_entry
}.

(** [WebInterpreter.__init__] *)
Definition WebInterpreter_init (out : string) : WebInterpreter :=
  {| base := Interpreter_init out; output_lines := []; timeline := [] |}.

Definition web_method (A : Type) : Type :=
  WebInterpreter -> result A * WebInterpreter.

(** A method inherited from [Interpreter], run on the subclass. *)
Definition inherited {A} (m : method A) : web_method A :=
  fun self =>
    let '(r, b) := m (base self) in
    (r, {| base := b; output_lines := output_lines self;
           timeline := timeline self |}).

(** [WebInterpreter.visit_PrintNode] *)
Definition web_visit_PrintNode `{Host} (expr : ExprNode) : web_method pynum :=
  fun self =>
    match inherited (visit expr) self with
    | (Ok value, self1) =>
        match py_str value with
        | Ok output_str =>
            (Ok value,
             {| base := base self1;
                output_lines := (output_lines self1 ++ [output_str])%list;
                timeline := (timeline self1
                             ++ [PrintEntry output_str
                                   (symbol_table (base self1))])%list |})
        | Raise e => (Raise e, self1)
        | OutOfFuel => (OutOfFuel, self1)
        end
    | (Raise e, self1) => (Raise e, self1)
    | (OutOfFuel, self1) => (OutOfFuel, self1)
    end.

(** [WebInterpreter.visit_AssignNode] *)
Definition web_visit_AssignNode (var : string) (expr : ExprNode)
  : web_method unit :=
  fun self =>
    match inherited (visit_AssignNode var expr) self with
    | (Ok result, self1) =>
        match dict_get var (symbol_table (base self1)) with
        | Some v =>
            (Ok result,
             {| base := base self1;
                output_lines := output_lines self1;
                timeline := (timeline self1
                             ++ [AssignmentEntry var v
                                   (symbol_table (base self1))])%list |})
        | None => (Raise (KeyError var), self1)
        end
    | (Raise e, self1) => (Raise e, self1)
    | (OutOfFuel, self1) => (OutOfFuel, self1)
    end.

(** [visit] of the subclass on a statement: the overriding methods. *)
Definition web_visit_statement `{Host} (node : StmtNode) : web_method unit :=
  fun self =>
    match node with
    | AssignNode var expr => web_visit_AssignNode var expr self
    | PrintNode expr =>
        match web_visit_PrintNode expr self with
        | (Ok _, self1) => (Ok tt, self1)
        | (Raise e, self1) => (Raise e, self1)
        | (OutOfFuel, self1) => (OutOfFuel, self1)
        end
    end.

(** The inherited [visit_ProgramNode], whose [self.visit] reaches the
    overriding methods. *)
Fixpoint web_visit_statements `{Host} (statements : list StmtNode)
  : web_method unit :=
  fun self =>
    match statements with
    | [] => (Ok tt, self)
    | statement :: rest =>
        match web_visit_statement statement self with
        | (Ok _, self1) => web_visit_statements rest self1
        | (r, self1) => (r, self1)
        end
    end.


(** ** app.py: the token stream of the [/tokenize] endpoint *)

(** [token.type.name] *)
Definition TokenType_name (t : TokenType) : string :=
  match t with
  | NUMBER => "NUMBER" | ID => "ID" | LET => "LET" | PRINT => "PRINT"
  | PLUS => "PLUS" | MINUS => "MINUS" | MUL => "MUL" | DIV => "DIV"
  | ASSIGN => "ASSIGN" | LPAREN => "LPAREN" | RPAREN => "RPAREN"
  | SEMI => "SEMI" | EOF => "EOF"
  end.

(** The dictionary that the endpoint makes of a token. *)
Record token_dict := mkTokenDict {
  dict_type : string;
  dict_value : string;
  dict_line : nat;
  dict_column : nat
}.

(** [str(token.value) if token.value is not None else ''] *)
Definition token_value_str `{Host} (token : Token) : result string :=
  match value token with
  | NoValue => Ok EmptyString
  | NumValue n => py_str n
  | StrValue s => Ok s
  end.

Definition token_to_dict `{Host} (token : Token) : result token_dict :=
  s <- token_value_str token ;;
  Ok {| dict_type := TokenType_name (type token);
        dict_value := s;
        dict_line := tline token;
        dict_column := tcolumn token |}.

(** The loop [while True] of the endpoint: a token is taken and recorded,
    and EOF, once recorded, ends the loop. *)
Fixpoint app_tokenize_loop `{Host} (fuel : nat) (tokens : list token_dict)
  (lx : Lexer) : result (list token_dict) :=
  match fuel with
  | O => OutOfFuel
  | S fuel' =>
      '(token, lx') <- get_next_token lx ;;
      entry <- token_to_dict token ;;
      let tokens' := (tokens ++ [entry])%list in
      if String.eqb (TokenType_name (type token)) "EOF" then Ok tokens'
      else app_tokenize_loop fuel' tokens' lx'
  end.

(** The tokens that the endpoint returns for a code that is not blank. *)
Definition app_tokenize `{Host} (code : string) : result (list token_dict) :=
  let lx := Lexer_init code in
  app_tokenize_loop (S (S (remaining lx))) [] lx.

(** ** A host for the examples *)

(** [repr] of a float as CPython computes it: the shortest decimal digits
    that read back as the float, the nearest to it among the shortest, laid
    out with an exponent when the point would stand more than 16 places to
    the right or 4 places or more to the left of the first digit. *)

(** The float [m * 2 ^ e] as a quotient of integers. *)
Definition ratio_of (m : positive) (e : Z) : Z * Z :=
  if (0 <=? e)%Z then (Zpos m * 2 ^ e, 1)%Z else (Zpos m, 2 ^ (- e))%Z.

(** The position of the point of [num / den < 1]: minus the number of
    zeros after the point. *)
Fixpoint point_below (fuel : nat) (num den : Z) (at_ : Z) : Z :=
  match fuel with
  | O => at_
  | S fuel' =>
      if (den <=? num * 10)%Z then at_
      else point_below fuel' (num * 10) den (at_ - 1)
  end.

(** The position of the point: [10 ^ (point - 1) <= num / den < 10 ^ point]. *)
Definition point_of (num den : Z) : Z :=
  if (den <=? num)%Z then Z.of_nat (String.length (decimal (num / den)))
  else point_below 400 num den 0.

(** The float nearest to [c * 10 ^ k]. *)
Definition float_of_decimal (c k : Z) : spec_float :=
  if (0 <=? k)%Z then SFdiv prec emax (exact (c * 10 ^ k)) (exact 1)
  else SFdiv prec emax (exact c) (exact (10 ^ (- k))).

Definition same_float (x y : spec_float) : bool :=
  match SFcompare x y with
  | Some Eq => true
  | _ => false
  end.

(** The [n]-digit decimals next to [num / den], the nearer first, and of
    two as near the even one first. *)
Definition neighbours (num den point : Z) (n : Z) : list Z :=
  let s := (n - point)%Z in
  let '(a, b) := if (0 <=? s)%Z then (num * 10 ^ s, den)%Z
                 else (num, den * 10 ^ (- s))%Z in
  let '(q, r) := Z.div_eucl a b in
  if (r =? 0)%Z then [q]
  else
    match (2 * r ?= b)%Z with
    | Lt => [q; q + 1]%Z
    | Gt => [q + 1; q]%Z
    | Eq => if Z.even q then [q; q + 1]%Z else [q + 1; q]%Z
    end.

Fixpoint first_reading (x : spec_float) (k : Z) (cs : list Z) : option Z :=
  match cs with
  | [] => None
  | c :: cs' =>
      if same_float (float_of_decimal c k) x then Some c
      else first_reading x k cs'
  end.

(** The digits of the shortest decimal that reads back as [x = num / den],
    trying [n], [n + 1], ... digits. *)
Fixpoint shortest_digits (fuel : nat) (x : spec_float) (num den point : Z)
  (n : Z) : Z * Z :=
  match fuel with
  | O => ((num / den)%Z, 0%Z)
  | S fuel' =>
      match first_reading x (point - n) (neighbours num den point n) with
      | Some c => (c, (point - n)%Z)
      | None => shortest_digits fuel' x num den point (n + 1)
      end
  end.

Fixpoint zeros (n : nat) : string :=
  match n with
  | O => EmptyString
  | S n' => String "0" (zeros n')
  end.

(** A text of digits without the zeros at its end, and their number. *)
Fixpoint strip_zeros (s : string) : string * nat :=
  match s with
  | EmptyString => (EmptyString, O)
  | String c s' =>
      let '(t, z) := strip_zeros s' in
      match t with
      | EmptyString =>
          if Ascii.eqb c "0" then (EmptyString, S z)
          else (String c EmptyString, z)
      | _ => (String c t, z)
      end
  end.

Definition take (n : nat) (s : string) : string := String.substring 0 n s.

(** The layout of the digits [ds] with the point after [point] of them. *)
Definition layout (ds : string) (point : Z) : string :=
  let len := Z.of_nat (String.length ds) in
  if ((point <=? -4) || (16 <? point))%Z then
    let e := (point - 1)%Z in
    let mantissa :=
      match ds with
      | String d EmptyString => String d EmptyString
      | String d rest => String d ("." ++ rest)
      | EmptyString => EmptyString
      end in
    let digits := decimal (Z.abs e) in
    mantissa ++ "e" ++ (if (e <? 0)%Z then "-" else "+")
      ++ (if (String.length digits <? 2)%nat then "0" else "") ++ digits
  else if (point <=? 0)%Z then "0." ++ zeros (Z.to_nat (- point)) ++ ds
  else if (len <=? point)%Z then ds ++ zeros (Z.to_nat (point - len)) ++ ".0"
  else take (Z.to_nat point) ds ++ "."
       ++ String.substring (Z.to_nat point) (String.length ds) ds.

Definition python_float_repr (x : spec_float) : string :=
  match x with
  | S754_nan => "nan"
  | S754_infinity s => if s then "-inf" else "inf"
  | S754_zero s => if s then "-0.0" else "0.0"
  | S754_finite s m e =>
      let '(num, den) := ratio_of m e in
      let point := point_of num den in
      let '(c, k) :=
        shortest_digits 17 (S754_finite false m e) num den point 1 in
      let '(ds, z) := strip_zeros (decimal c) in
      (if s then "-" else "")
      ++ layout ds (k + Z.of_nat z + Z.of_nat (String.length ds))
  end.

(** CPython 3.11 and later with its default settings. *)
#[global] Instance cpython : Host :=
  {| int_max_str_digits := 4300;
     float_repr := python_float_repr |}.

(** * Vocabulary for the evaluator *)

Definition is_float (v : pynum) : bool :=
  match v with
  | PyFloat _ => true
  | PyInt _ => false
  end.

Definition is_int (v : pynum) : bool := negb (is_float v).

(** The float that holds a small integer exactly. *)
Definition exact_float (z : Z) : spec_float := binary_normalize prec emax z 0 false.



(** * Vocabulary for the lexer *)

(** The text without its first [n] characters. *)
Fixpoint drop (n : nat) (s : string) : string :=
  match n, s with
  | O, _ => s
  | S n', String _ s' => drop n' s'
  | S _, EmptyString => EmptyString
  end.

(** The part of the source that the lexer has not passed. *)
Definition unread (lx : Lexer) : string := drop (pos lx) (text lx).

(** The lexer's current character is the one at its position. *)
Definition wf (lx : Lexer) : Prop :=
  current_char lx = String.get (pos lx) (text lx).

(** The longest prefix of characters that satisfy [p], and what follows. *)
Fixpoint span (p : ascii -> bool) (s : string) : string * string :=
  match s with
  | EmptyString => (EmptyString, EmptyString)
  | String c s' =>
      if p c then let '(a, b) := span p s' in (String c a, b)
      else (EmptyString, s)
  end.

(** [n] calls of [advance]. *)
Fixpoint advance_n (n : nat) (lx : Lexer) : Lexer :=
  match n with
  | O => lx
  | S n' => advance_n n' (advance lx)
  end.

(** The first character of a text, if any. *)
Definition head (s : string) : option ascii :=
  match s with
  | EmptyString => None
  | String c _ => Some c
  end.

(** The number of occurrences of a character in a text. *)
Fixpoint count_char (c : ascii) (s : string) : nat :=
  match s with
  | EmptyString => O
  | String c' s' => if Ascii.eqb c' c then S (count_char c s') else count_char c s'
  end.

Definition digit_or_dot (ch : ascii) : bool := isdigit ch || Ascii.eqb ch dot.

(** A text of white space and [//] comments only; [in_comment] tells
    whether the text starts inside a comment. *)
Fixpoint blank_from (in_comment : bool) (s : string) : bool :=
  match s with
  | EmptyString => true
  | String c s' =>
      if in_comment then blank_from (negb (Ascii.eqb c newline)) s'
      else if isspace c then blank_from false s'
      else Ascii.eqb c slash && char_is slash (head s') && blank_from true s'
  end.

Definition blank (s : string) : bool := blank_from false s.

(** [n] further calls of [get_next_token], and the tokens they return. *)
Fixpoint next_tokens `{Host} (n : nat) (lx : Lexer) : result (list Token * Lexer) :=
  match n with
  | O => Ok ([], lx)
  | S n' =>
      '(token, lx1) <- get_next_token lx ;;
      '(tokens, lx2) <- next_tokens n' lx1 ;;
      Ok (token :: tokens, lx2)
  end.

(** From [lx] to [lx'] the lexer has passed the text [s] of the same
    source. *)
Definition passed (lx lx' : Lexer) (s : string) : Prop :=
  wf lx' /\ text lx' = text lx /\ unread lx = s ++ unread lx'.

Definition not_newline (ch : ascii) : bool := negb (Ascii.eqb ch newline).

(** What a token holds in [value], by its type. *)
Definition well_valued (t : Token) : Prop :=
  match type t with
  | NUMBER => exists n, value t = NumValue n
  | EOF => value t = NoValue
  | _ => exists s, value t = StrValue s
  end.

(** What a call of [get_next_token] may give from the lexer [lx]: an error,
    or a token other than EOF after passing some text, or EOF at the end of
    the text. *)
Definition token_step (lx : Lexer) (r : result (Token * Lexer)) : Prop :=
  match r with
  | Ok (t, lx') =>
      well_valued t
      /\ exists s, passed lx lx' s
         /\ (type t <> EOF -> s <> "")
         /\ (type t = EOF ->
             current_char lx' = None
             /\ t = mkToken EOF NoValue (line lx') (column lx'))
  | Raise _ => True
  | OutOfFuel => False
  end.

(** * Vocabulary for the parser *)

(** What [eat] does once the type has matched: the next token becomes the
    current one. *)
Definition shift `{Host} (p : Parser) : result Parser :=
  '(token, lx') <- get_next_token (lexer p) ;;
  Ok (mkParser lx' token).

(** A token without its position. *)
Definition spelling : Type := (TokenType * tokval)%type.

Definition spelled (t : Token) : spelling := (type t, value t).

(** [spells p ks p']: the current token of [p] and the tokens that follow
    it are spelled [ks], and passing them all leads to [p']. *)
Inductive spells `{Host} : Parser -> list spelling -> Parser -> Prop :=
| spells_nil (p : Parser) : spells p [] p
| spells_cons (p p1 p' : Parser) (k : spelling) (ks : list spelling) :
    spelled (current_token p) = k ->
    shift p = Ok p1 ->
    spells p1 ks p' ->
    spells p (k :: ks) p'.

Definition additive (op : string) : bool :=
  String.eqb op "+" || String.eqb op "-".

Definition multiplicative (op : string) : bool :=
  String.eqb op "*" || String.eqb op "/".

(** The expressions whose operators are the four of the language. *)
Fixpoint known_ops (e : ExprNode) : bool :=
  match e with
  | BinOpNode l op r =>
      (additive op || multiplicative op) && known_ops l && known_ops r
  | _ => true
  end.

Definition operator_token (op : string) : spelling :=
  ((if String.eqb op "+" then PLUS
    else if String.eqb op "-" then MINUS
    else if String.eqb op "*" then MUL
    else DIV),
   StrValue op).

Definition is_additive (t : TokenType) : bool :=
  match t with
  | PLUS | MINUS => true
  | _ => false
  end.

Definition is_multiplicative (t : TokenType) : bool :=
  match t with
  | MUL | DIV => true
  | _ => false
  end.

(** The tokens of an expression written with the fewest parentheses, in a
    place that accepts a sum (level 0), a product (level 1), or only a
    number, a name or a parenthesis (level 2): a sum is its left part as a
    sum, the operator, and its right part as a product; a product is its
    left part as a product, the operator, and its right part at level 2;
    parentheses go around a sum in a place for products and around any
    operation in a place of level 2. *)
Fixpoint unparse (lvl : nat) (e : ExprNode) : list spelling :=
  match e with
  | NumberNode v => [(NUMBER, NumValue v)]
  | VarNode x => [(ID, StrValue x)]
  | BinOpNode l op r =>
      let body :=
        if additive op
        then (unparse 0 l ++ operator_token op :: unparse 1 r)%list
        else (unparse 1 l ++ operator_token op :: unparse 2 r)%list in
      if ((if additive op then 0 else 1) <? lvl)%nat
      then ((LPAREN, StrValue "(") :: body ++ [(RPAREN, StrValue ")")])%list
      else body
  end.

(** The number of nodes. *)
Fixpoint size (e : ExprNode) : nat :=
  match e with
  | BinOpNode l _ r => S (size l + size r)
  | _ => 1
  end.

(** The number of operators of a chain of products, and of a chain of
    sums, down the left operands. *)
Fixpoint mspine (e : ExprNode) : nat :=
  match e with
  | BinOpNode l op _ => if additive op then 0 else S (mspine l)
  | _ => 0
  end.

Fixpoint aspine (e : ExprNode) : nat :=
  match e with
  | BinOpNode l op _ => if additive op then S (aspine l) else 0
  | _ => 0
  end.

(** An operation that needs parentheses in a place for products. *)
Definition is_sum (e : ExprNode) : bool :=
  match e with
  | BinOpNode _ op _ => additive op
  | _ => false
  end.

Definition is_leaf (e : ExprNode) : bool :=
  match e with
  | BinOpNode _ _ _ => false
  | _ => true
  end.

(** A bound on the number of tokens that the parser can still eat: the
    unread characters, and one for the current token unless it is EOF. *)
Definition tokens_bound (p : Parser) : nat :=
  (remaining (lexer p)
   + (if TokenType_eqb (type (current_token p)) EOF then 0 else 1))%nat.

(** A call of [eat] from [p] ends: with an error, or in a parser with a
    smaller bound. *)
Definition eats (p : Parser) (r : result Parser) : Prop :=
  match r with
  | Ok p' => wf (lexer p') /\ (tokens_bound p' < tokens_bound p)%nat
  | Raise _ => True
  | OutOfFuel => False
  end.

(** A parsing method called from [p] ends: with an error, or in a parser
    whose bound is smaller by [eaten] at least. *)
Definition ends {A : Type} (eaten : nat) (p : Parser)
  (r : result (A * Parser)) : Prop :=
  match r with
  | Ok (_, p') => wf (lexer p') /\ (tokens_bound p' + eaten <= tokens_bound p)%nat
  | Raise _ => True
  | OutOfFuel => False
  end.

(** The tokens of a statement and of a program. *)
Definition unparse_statement (s : StmtNode) : list spelling :=
  match s with
  | AssignNode var e =>
      ((LET, StrValue "let") :: (ID, StrValue var) :: (ASSIGN, StrValue "=")
         :: unparse 0 e ++ [(SEMI, StrValue ";")])%list
  | PrintNode e =>
      ((PRINT, StrValue "print") :: (LPAREN, StrValue "(")
         :: unparse 0 e ++ [(RPAREN, StrValue ")"); (SEMI, StrValue ";")])%list
  end.

Fixpoint unparse_statements (statements : list StmtNode) : list spelling :=
  match statements with
  | [] => []
  | s :: rest => (unparse_statement s ++ unparse_statements rest)%list
  end.

Definition known_ops_statement (s : StmtNode) : bool :=
  match s with
  | AssignNode _ e => known_ops e
  | PrintNode e => known_ops e
  end.

(** [g'] gives what [g] gives wherever [g] does not run out of fuel. *)
Definition extends {A : Type} (g g' : parsing A) : Prop :=
  forall p, g p <> OutOfFuel -> g' p = g p.

(** * Sample inputs *)

(** The trees of [2 + 3 * 4], [(2 + 3) * 4] and [10 - 5 - 2]. *)
Definition int_node (z : Z) : ExprNode := NumberNode (PyInt z).

Definition tree_2_plus_3_times_4 : ExprNode :=
  BinOpNode (int_node 2) "+" (BinOpNode (int_node 3) "*" (int_node 4)).

Definition tree_2_plus_3_all_times_4 : ExprNode :=
  BinOpNode (BinOpNode (int_node 2) "+" (int_node 3)) "*" (int_node 4).

Definition tree_10_minus_5_minus_2 : ExprNode :=
  BinOpNode (BinOpNode (int_node 10) "-" (int_node 5)) "-" (int_node 2).

(** The statements of [let x = 1; print(x); let x = y + 5; print(x);], where
    the third statement fails, and the state and the error at the failure. *)
Definition sample_prefix : list StmtNode :=
  [AssignNode "x" (NumberNode (PyInt 1)); PrintNode (VarNode "x")].
Definition sample_failing : StmtNode :=
  AssignNode "x" (BinOpNode (VarNode "y") "+" (NumberNode (PyInt 5))).
Definition sample_rest : list StmtNode := [PrintNode (VarNode "x")].
Definition sample_state : Interpreter :=
  {| symbol_table := [("x", PyInt 1)]; stdout := "1" ++ String newline "" |}.
Definition sample_error : exn :=
  Exception "Runtime error: Variable 'y' is not defined".

(** Two lines of white space and comments, and a third line cut short. *)
Definition sample_blank : string :=
  "  // a comment" ++ String newline ("//" ++ String newline "  ").

(** The parser on [let x = 10 - 5 - 2;]: at its start, when it has come to
    [10], when it has come to the semicolon, and at the end. *)
Definition sample_source : string := "let x = 10 - 5 - 2;".

Definition sample_parser : Parser :=
  {| lexer := advance_n 3 (Lexer_init sample_source);
     current_token := mkToken LET (StrValue "let") 1 1 |}.

Definition sample_parser_at_10 : Parser :=
  {| lexer := advance_n 10 (Lexer_init sample_source);
     current_token := mkToken NUMBER (NumValue (PyInt 10)) 1 9 |}.

Definition sample_parser_at_semi : Parser :=
  {| lexer := advance_n 19 (Lexer_init sample_source);
     current_token := mkToken SEMI (StrValue ";") 1 19 |}.

Definition sample_parser_at_end : Parser :=
  {| lexer := advance_n 19 (Lexer_init sample_source);
     current_token := mkToken EOF NoValue 1 20 |}.

(** [assertEqual(interpreter.symbol_table['x'], expected)] after a run of
    [source] that raises nothing. *)
Definition leaves_x `{Host} (source : string) (expected : pynum) : bool :=
  match run_source source with
  | (Ok _, self) =>
      match dict_get "x" (symbol_table self) with
      | Some v => py_eq v expected
      | None => false
      end
  | _ => false
  end.

(** What [expr] and [parse] return on the sample source, as computed. *)
Definition sample_expr_result : ExprNode * Parser :=
  Eval vm_compute in
    match expr (H := cpython) 6 sample_parser_at_10 with
    | Ok r => r
    | _ => (NumberNode (PyInt 0), sample_parser_at_10)
    end.

Definition sample_parse_result : Program * Parser :=
  Eval vm_compute in
    match parse (H := cpython) sample_parser with
    | Ok r => r
    | _ => (ProgramNode [], sample_parser)
    end.


(** * Vocabulary for the further properties of the lexer *)

(** What a token holds in [value], type by type: a number, the text of the
    name, of the keyword or of the operator, or [None]. *)
Definition lexed (t : Token) : Prop :=
  match type t with
  | NUMBER => exists n, value t = NumValue n
  | ID => exists s, value t = StrValue s /\ keywords_get s = ID
  | LET => value t = StrValue "let"
  | PRINT => value t = StrValue "print"
  | PLUS => value t = StrValue "+"
  | MINUS => value t = StrValue "-"
  | MUL => value t = StrValue "*"
  | DIV => value t = StrValue "/"
  | ASSIGN => value t = StrValue "="
  | LPAREN => value t = StrValue "("
  | RPAREN => value t = StrValue ")"
  | SEMI => value t = StrValue ";"
  | EOF => value t = NoValue
  end.

(** The lexer after the comment that starts at its position: past the text
    up to the end of the line, and past the newline if there is one. *)
Definition after_comment (lx : Lexer) : Lexer :=
  let lx1 := advance_n (String.length (fst (span not_newline (unread lx)))) lx in
  if char_is newline (current_char lx1) then advance lx1 else lx1.

(** The lexer after the white space that starts at its position. *)
Definition after_space (lx : Lexer) : Lexer :=
  advance_n (String.length (fst (span isspace (unread lx)))) lx.

(** The line and the column reached from the line and column [at] by reading
    the text [s]: a newline starts the next line at column 1, any other
    character is one column. *)
Fixpoint position_after (s : string) (start : nat * nat) : nat * nat :=
  match s with
  | EmptyString => start
  | String ch s' =>
      if Ascii.eqb ch newline then position_after s' (S (fst start), 1%nat)
      else position_after s' (fst start, S (snd start))
  end.

Definition position (lx : Lexer) : nat * nat := (line lx, column lx).

(** The characters of a name after its first. *)
Definition name_char (ch : ascii) : bool := isalnum ch || Ascii.eqb ch underscore.

(** The first character of a name. *)
Definition name_start (ch : ascii) : bool := isalpha ch || Ascii.eqb ch underscore.

(** The first character of the text [s] exists and satisfies [p]. *)
Definition starts (p : ascii -> bool) (s : string) : bool :=
  match head s with
  | Some ch => p ch
  | None => false
  end.

(** The number that a lexeme of digits and dots stands for: a float when it
    has a dot, an integer when it has none. *)
Definition number_value `{Host} (lexeme : string) : result pynum :=
  if contains dot lexeme then f <- py_float lexeme ;; Ok (PyFloat f)
  else z <- py_int lexeme ;; Ok (PyInt z).

(** [reads lexeme rest k v]: the lexeme, followed in the source by [rest],
    is read as a token of type [k] with value [v].  A number is the longest
    run of digits and dots from a digit on; a word is the longest run of name
    characters from a letter or an underscore on, and is a keyword exactly
    when it is spelled [let] or [print]; an operator is its one character
    (a [/] only when no second [/] follows); EOF is the end of the text. *)
Inductive reads `{Host} : string -> string -> TokenType -> tokval -> Prop :=
| reads_number lexeme rest n :
    starts isdigit lexeme = true ->
    forallb_string digit_or_dot lexeme = true ->
    starts digit_or_dot rest = false ->
    number_value lexeme = Ok n ->
    reads lexeme rest NUMBER (NumValue n)
| reads_word lexeme rest :
    starts name_start lexeme = true ->
    forallb_string name_char lexeme = true ->
    starts name_char rest = false ->
    reads lexeme rest (keywords_get lexeme) (StrValue lexeme)
| reads_operator ch rest k :
    operator ch = Some k ->
    Ascii.eqb ch slash && starts (Ascii.eqb slash) rest = false ->
    reads (String ch "") rest k (StrValue (String ch ""))
| reads_eof :
    reads "" "" EOF NoValue.

(** [rejects at rest e]: the lexer standing at line and column [at] before
    the text [rest] raises [e].  Either [rest] starts with a character that
    starts no token, and [e] is the lexer's own error with that position and
    that character; or [rest] starts with a run of digits and dots that is no
    number, and [e] is the error of the conversion. *)
Definition rejects `{Host} (start : nat * nat) (rest : string) (e : exn) : Prop :=
  (exists ch rest',
     rest = String ch rest'
     /\ isspace ch = false /\ isdigit ch = false /\ name_start ch = false
     /\ operator ch = None
     /\ e = Exception ("Lexer error at line " ++ str_nat (fst start)
                       ++ ", column " ++ str_nat (snd start)
                       ++ ": Invalid character '" ++ String ch "" ++ "'"))
  \/ (starts isdigit rest = true
      /\ number_value (fst (span digit_or_dot rest)) = Raise e
      /\ exists msg, e = ValueError msg).

(** A gap between two tokens: white space and [//] comments, every comment
    ended by its newline.  ([blank] also accepts a last comment that the end
    of the text cuts short.)  [in_comment] tells whether the text starts
    inside a comment. *)
Fixpoint gap_from (in_comment : bool) (s : string) : bool :=
  match s with
  | EmptyString => negb in_comment
  | String c s' =>
      if in_comment then gap_from (negb (Ascii.eqb c newline)) s'
      else if isspace c then gap_from false s'
      else Ascii.eqb c slash && char_is slash (head s') && gap_from true s'
  end.

Definition gap (s : string) : bool := gap_from false s.

(** The text after the white space and the comments that it starts with. *)
Fixpoint after_gap (in_comment : bool) (s : string) : string :=
  match s with
  | EmptyString => EmptyString
  | String c s' =>
      if in_comment then after_gap (negb (Ascii.eqb c newline)) s'
      else if isspace c then after_gap false s'
      else if Ascii.eqb c slash && char_is slash (head s') then after_gap true s'
      else s
  end.

(** A text that starts with a character that is no white space and starts
    no comment. *)
Definition token_start (s : string) : bool :=
  match s with
  | EmptyString => false
  | String c s' =>
      negb (isspace c) && negb (Ascii.eqb c slash && char_is slash (head s'))
  end.

(** What a call of [get_next_token] does from the lexer [lx]: it skips a
    blank text, a gap unless the end of the text follows, and then reads one
    lexeme, or is rejected there. *)
Definition scan_step `{Host} (lx : Lexer) (r : result (Token * Lexer)) : Prop :=
  match r with
  | Ok (t, lx') =>
      exists skipped lexeme,
        passed lx lx' (skipped ++ lexeme)
        /\ blank skipped = true
        /\ (type t <> EOF -> gap skipped = true)
        /\ reads lexeme (unread lx') (type t) (value t)
        /\ (tline t, tcolumn t) = position_after skipped (position lx)
        /\ position lx' = position_after (skipped ++ lexeme) (position lx)
  | Raise e =>
      exists skipped rest,
        unread lx = skipped ++ rest
        /\ gap skipped = true
        /\ rejects (position_after skipped (position lx)) rest e
  | OutOfFuel => False
  end.

(** The calls of [get_next_token] that [tokenize] makes: up to the first
    token EOF. *)
Inductive chain `{Host} : Lexer -> list Token -> Lexer -> Prop :=
| chain_last lx t lx' :
    get_next_token lx = Ok (t, lx') -> type t = EOF ->
    chain lx [t] lx'
| chain_more lx t lx1 ts lx' :
    get_next_token lx = Ok (t, lx1) -> type t <> EOF ->
    chain lx1 ts lx' ->
    chain lx (t :: ts) lx'.

(** The calls of [get_next_token] up to one that raises [e]. *)
Inductive chain_fails `{Host} : Lexer -> list Token -> Lexer -> exn -> Prop :=
| chain_fails_now lx e :
    get_next_token lx = Raise e ->
    chain_fails lx [] lx e
| chain_fails_later lx t lx1 ts lx' e :
    get_next_token lx = Ok (t, lx1) -> type t <> EOF ->
    chain_fails lx1 ts lx' e ->
    chain_fails lx (t :: ts) lx' e.

(** [tiled R at source tokens]: the source, read from the position [at], is
    a gap, a lexeme, a gap, a lexeme and so on, and a blank text up to its
    end, with one token for every lexeme, in order, and the token EOF for the
    end; [R] relates each token to the position where its lexeme starts, to
    the lexeme and to the text that follows it. *)
Inductive tiled (R : nat * nat -> string -> string -> Token -> Prop)
  : nat * nat -> string -> list Token -> Prop :=
| tiled_eof start skipped t :
    blank skipped = true -> type t = EOF ->
    R (position_after skipped start) "" "" t ->
    tiled R start skipped [t]
| tiled_token start skipped lexeme rest t ts :
    gap skipped = true -> type t <> EOF -> lexeme <> "" ->
    R (position_after skipped start) lexeme rest t ->
    tiled R (position_after (skipped ++ lexeme) start) rest ts ->
    tiled R start (skipped ++ lexeme ++ rest) (t :: ts).

(** A token is what its lexeme reads as, and has the position where the
    lexeme starts. *)
Definition reads_at `{Host} (start : nat * nat) (lexeme rest : string)
  (t : Token) : Prop :=
  reads lexeme rest (type t) (value t)
  /\ (tline t, tcolumn t) = start.

(** Sample inputs *)

Definition sample_text : string :=
  "let x1 = 2.5; // half" ++ String newline "" ++ "  print (x1/2);".

Definition sample_text_end : Lexer :=
  advance_n (String.length sample_text) (Lexer_init sample_text).

Definition sample_tokens : list Token :=
  [ mkToken LET (StrValue "let") 1 1;
    mkToken ID (StrValue "x1") 1 5;
    mkToken ASSIGN (StrValue "=") 1 8;
    mkToken NUMBER (NumValue (PyFloat (S754_finite false 5629499534213120 (-51)))) 1 10;
    mkToken SEMI (StrValue ";") 1 13;
    mkToken PRINT (StrValue "print") 2 3;
    mkToken LPAREN (StrValue "(") 2 9;
    mkToken ID (StrValue "x1") 2 10;
    mkToken DIV (StrValue "/") 2 12;
    mkToken NUMBER (NumValue (PyInt 2)) 2 13;
    mkToken RPAREN (StrValue ")") 2 14;
    mkToken SEMI (StrValue ";") 2 15;
    mkToken EOF NoValue 2 16 ].

Definition sample_bad_text : string :=
  "let a = 1;" ++ String newline "" ++ "a = $;".

(** * Vocabulary for the further properties of the parser *)

(** The grammar that [parser.py] announces, with the trees that its methods
    build.  [derives lvl ks e]: the tokens [ks] are an [expr] (level 0), a
    [term] (level 1) or a [factor] (level 2) whose tree is [e]:
      expr   : term ((PLUS | MINUS) term)*
      term   : factor ((MUL | DIV) factor)*
      factor : NUMBER | ID | LPAREN expr RPAREN
    a chain of operators is the tree of its leftmost operands first. *)
Inductive derives : nat -> list spelling -> ExprNode -> Prop :=
| derives_number (n : pynum) :
    derives 2 [(NUMBER, NumValue n)] (NumberNode n)
| derives_name (x : string) :
    derives 2 [(ID, StrValue x)] (VarNode x)
| derives_paren (ks : list spelling) (e : ExprNode) :
    derives 0 ks e ->
    derives 2 ((LPAREN, StrValue "(") :: ks ++ [(RPAREN, StrValue ")")])%list e
| derives_factor (ks : list spelling) (e : ExprNode) :
    derives 2 ks e -> derives 1 ks e
| derives_product (ks1 ks2 : list spelling) (l r : ExprNode) (op : string) :
    derives 1 ks1 l -> multiplicative op = true -> derives 2 ks2 r ->
    derives 1 (ks1 ++ operator_token op :: ks2)%list (BinOpNode l op r)
| derives_term (ks : list spelling) (e : ExprNode) :
    derives 1 ks e -> derives 0 ks e
| derives_sum (ks1 ks2 : list spelling) (l r : ExprNode) (op : string) :
    derives 0 ks1 l -> additive op = true -> derives 1 ks2 r ->
    derives 0 (ks1 ++ operator_token op :: ks2)%list (BinOpNode l op r).

(**   assignment : LET ID ASSIGN expr SEMI
      print_stmt : PRINT LPAREN expr RPAREN SEMI *)
Inductive derives_statement : list spelling -> StmtNode -> Prop :=
| derives_assignment (x : string) (ks : list spelling) (e : ExprNode) :
    derives 0 ks e ->
    derives_statement
      ((LET, StrValue "let") :: (ID, StrValue x) :: (ASSIGN, StrValue "=")
         :: ks ++ [(SEMI, StrValue ";")])%list
      (AssignNode x e)
| derives_print (ks : list spelling) (e : ExprNode) :
    derives 0 ks e ->
    derives_statement
      ((PRINT, StrValue "print") :: (LPAREN, StrValue "(")
         :: ks ++ [(RPAREN, StrValue ")"); (SEMI, StrValue ";")])%list
      (PrintNode e).

(**   program : statement* *)
Inductive derives_program : list spelling -> list StmtNode -> Prop :=
| derives_no_statement : derives_program [] []
| derives_statements (ks kss : list spelling) (s : StmtNode)
    (rest : list StmtNode) :
    derives_statement ks s -> derives_program kss rest ->
    derives_program (ks ++ kss)%list (s :: rest).

(** A parser between two calls of its methods: its lexer is in order and
    its current token is one that the lexer makes. *)
Definition ready (p : Parser) : Prop :=
  wf (lexer p) /\ lexed (current_token p).

(** A parsing method that accepts only what the grammar derives at the
    level [lvl]. *)
Definition sound_at `{Host} (lvl : nat) (g : parsing ExprNode) : Prop :=
  forall p e p',
    ready p -> g p = Ok (e, p') ->
    exists ks, spells p ks p' /\ derives lvl ks e /\ ready p'.

Definition sample_program_text : string := "print ((1 + (2)) * x);".

Definition sample_program_tree : list StmtNode :=
  [PrintNode (BinOpNode (BinOpNode (int_node 1) "+" (int_node 2)) "*"
                        (VarNode "x"))].

Definition sample_program_tokens : list Token :=
  [ mkToken PRINT (StrValue "print") 1 1;
    mkToken LPAREN (StrValue "(") 1 7;
    mkToken LPAREN (StrValue "(") 1 8;
    mkToken NUMBER (NumValue (PyInt 1)) 1 9;
    mkToken PLUS (StrValue "+") 1 11;
    mkToken LPAREN (StrValue "(") 1 13;
    mkToken NUMBER (NumValue (PyInt 2)) 1 14;
    mkToken RPAREN (StrValue ")") 1 15;
    mkToken RPAREN (StrValue ")") 1 16;
    mkToken MUL (StrValue "*") 1 18;
    mkToken ID (StrValue "x") 1 20;
    mkToken RPAREN (StrValue ")") 1 21;
    mkToken SEMI (StrValue ";") 1 22;
    mkToken EOF NoValue 1 23 ].

Definition sample_program_end : Lexer :=
  advance_n (String.length sample_program_text) (Lexer_init sample_program_text).

(** * Vocabulary for the errors of a run *)

(** The errors that a run of a source text can end with: the lexer's
    "Invalid character", the [ValueError] of a conversion (of a run of digits
    and dots that is no number, or of an integer too long to print), the
    parser's "Expected ..., got ..." and "Unexpected token ...", the two
    runtime errors of the interpreter, the [OverflowError] of a number too
    large for a float, and the [RecursionError] of the host where the
    parentheses of the source or the tree of an expression nest beyond its
    recursion limit. *)
Inductive run_error : exn -> Prop :=
| invalid_character (l c : nat) (ch : ascii) :
    run_error (Exception ("Lexer error at line " ++ str_nat l
                          ++ ", column " ++ str_nat c ++ ": "
                          ++ "Invalid character '" ++ String ch "" ++ "'"))
| conversion_error (msg : string) :
    run_error (ValueError msg)
| expected_token (l c : nat) (wanted got : TokenType) :
    run_error (Exception ("Parser error at line " ++ str_nat l
                          ++ ", column " ++ str_nat c ++ ": "
                          ++ "Expected " ++ TokenType_str wanted
                          ++ ", got " ++ TokenType_str got))
| unexpected_token (l c : nat) (got : TokenType) :
    run_error (Exception ("Parser error at line " ++ str_nat l
                          ++ ", column " ++ str_nat c ++ ": "
                          ++ "Unexpected token " ++ TokenType_str got))
| undefined_variable (name : string) :
    run_error (Exception ("Runtime error: " ++ "Variable '" ++ name
                          ++ "' is not defined"))
| division_by_zero :
    run_error (Exception ("Runtime error: " ++ "Division by zero"))
| overflow_error (msg : string) :
    run_error (OverflowError msg)
| recursion_error (msg : string) :
    run_error (RecursionError msg).

(** A result that, when it is an error, is one of [Q]. *)
Definition raises_only {A : Type} (Q : exn -> Prop) (r : result A) : Prop :=
  match r with
  | Raise e => Q e
  | _ => True
  end.

(** A parsing method whose errors are errors of a run. *)
Definition fails_well `{Host} {A : Type} (g : parsing A) : Prop :=
  forall p, ready p -> raises_only run_error (g p).

(** * Vocabulary for the hosts *)

(** The printed texts of a timeline, in order. *)
Fixpoint printed (entries : list timeline_entry) : list string :=
  match entries with
  | [] => []
  | PrintEntry s _ :: rest => s :: printed rest
  | AssignmentEntry _ _ _ :: rest => printed rest
  end.

(** The copy of the store that an entry holds. *)
Definition snapshot (entry : timeline_entry) : dict pynum :=
  match entry with
  | PrintEntry _ table => table
  | AssignmentEntry _ _ table => table
  end.

(** The entry [entry] is one that the statement [s] records: a Print node
    a print entry, an Assign node an assignment entry for its variable, with
    the value that the copy of the store gives to the variable. *)
Definition records (s : StmtNode) (entry : timeline_entry) : Prop :=
  match s, entry with
  | PrintNode _, PrintEntry _ _ => True
  | AssignNode var _, AssignmentEntry var' v table =>
      var' = var /\ dict_get var table = Some v
  | _, _ => False
  end.

Definition sample_web_program : list StmtNode :=
  [ AssignNode "a" (int_node 2);
    PrintNode (BinOpNode (VarNode "a") "*" (int_node 21));
    PrintNode (VarNode "b");
    AssignNode "c" (int_node 0) ].

Definition sample_web_end : WebInterpreter :=
  {| base := {| symbol_table := [("a", PyInt 2)]; stdout := "" |};
     output_lines := ["42"];
     timeline := [ AssignmentEntry "a" (PyInt 2) [("a", PyInt 2)];
                   PrintEntry "42" [("a", PyInt 2)] ] |}.

(** The dictionaries of a list of tokens, made one after the other. *)
Fixpoint tokens_to_dicts `{Host} (tokens : list Token)
  : result (list token_dict) :=
  match tokens with
  | [] => Ok []
  | token :: rest =>
      entry <- token_to_dict token ;;
      entries <- tokens_to_dicts rest ;;
      Ok (entry :: entries)
  end.

Definition sample_layout_text : string :=
  "// product" ++ String newline ""
  ++ "print(" ++ String newline ""
  ++ "  (1+(2))   *x" ++ String newline ""
  ++ ") ; // end".

Definition sample_layout_tokens : list Token :=
  [ mkToken PRINT (StrValue "print") 2 1;
    mkToken LPAREN (StrValue "(") 2 6;
    mkToken LPAREN (StrValue "(") 3 3;
    mkToken NUMBER (NumValue (PyInt 1)) 3 4;
    mkToken PLUS (StrValue "+") 3 5;
    mkToken LPAREN (StrValue "(") 3 6;
    mkToken NUMBER (NumValue (PyInt 2)) 3 7;
    mkToken RPAREN (StrValue ")") 3 8;
    mkToken RPAREN (StrValue ")") 3 9;
    mkToken MUL (StrValue "*") 3 13;
    mkToken ID (StrValue "x") 3 14;
    mkToken RPAREN (StrValue ")") 4 1;
    mkToken SEMI (StrValue ";") 4 3;
    mkToken EOF NoValue 4 11 ].

Definition sample_layout_end : Lexer :=
  advance_n (String.length sample_layout_text) (Lexer_init sample_layout_text).

(** * Vocabulary for the errors of the front end *)

(** [scanned consumed rest]: the text [consumed], which [rest] follows in
    the source, is whole tokens: a gap and a lexeme, a gap and a lexeme and
    so on, every lexeme read as a token other than EOF given the text that
    follows it. *)
Inductive scanned `{Host} : string -> string -> Prop :=
| scanned_nothing rest :
    scanned "" rest
| scanned_token consumed skipped lexeme rest k v :
    scanned consumed (skipped ++ lexeme ++ rest) ->
    gap skipped = true -> k <> EOF -> reads lexeme rest k v ->
    scanned (consumed ++ skipped ++ lexeme) rest.

(** The error [e] is one of the lexer at a place of the source: after
    whole tokens and a gap, where the lexer rejects what follows. *)
Definition lexical_error `{Host} (source : string) (e : exn) : Prop :=
  exists consumed skipped rest,
    source = consumed ++ skipped ++ rest
    /\ scanned consumed (skipped ++ rest)
    /\ gap skipped = true
    /\ rejects (position_after (consumed ++ skipped) (1%nat, 1%nat)) rest e.

(** The error [e] is one of the parser at a token of the source: after
    whole tokens and the gap before the lexeme of that token (before EOF:
    the blank text up to the end), it has the line and the column where the
    lexeme starts, and it tells the type that the lexeme reads as, as
    unexpected or as found where another type was expected. *)
Definition syntax_error `{Host} (source : string) (e : exn) : Prop :=
  exists consumed skipped lexeme rest k v msg,
    source = consumed ++ skipped ++ lexeme ++ rest
    /\ scanned consumed (skipped ++ lexeme ++ rest)
    /\ blank skipped = true
    /\ (k <> EOF -> gap skipped = true)
    /\ reads lexeme rest k v
    /\ (msg = "Unexpected token " ++ TokenType_str k
        \/ exists wanted,
             wanted <> k
             /\ msg = "Expected " ++ TokenType_str wanted
                      ++ ", got " ++ TokenType_str k)
    /\ e = Exception
             ("Parser error at line "
              ++ str_nat (fst (position_after (consumed ++ skipped)
                                              (1%nat, 1%nat)))
              ++ ", column "
              ++ str_nat (snd (position_after (consumed ++ skipped)
                                              (1%nat, 1%nat)))
              ++ ": " ++ msg).

(** The parser [p] at work on the source: the text before its current token
    is whole tokens, its current token is what the next lexeme reads as, with
    the position of that lexeme, and its lexer stands right after the
    lexeme. *)
Definition at_source `{Host} (source : string) (p : Parser) : Prop :=
  wf (lexer p)
  /\ exists consumed skipped lexeme,
       source = consumed ++ skipped ++ lexeme ++ unread (lexer p)
       /\ scanned consumed (skipped ++ lexeme ++ unread (lexer p))
       /\ blank skipped = true
       /\ (type (current_token p) <> EOF -> gap skipped = true)
       /\ reads lexeme (unread (lexer p))
                (type (current_token p)) (value (current_token p))
       /\ (tline (current_token p), tcolumn (current_token p))
          = position_after (consumed ++ skipped) (1%nat, 1%nat)
       /\ position (lexer p)
          = position_after (consumed ++ skipped ++ lexeme) (1%nat, 1%nat).

(** What a parsing method may give: a parser that satisfies [Inv], or an
    error that satisfies [Q]. *)
Definition outcome {A : Type} (Inv : Parser -> Prop) (Q : exn -> Prop)
  (r : result (A * Parser)) : Prop :=
  match r with
  | Ok (_, p') => Inv p'
  | Raise e => Q e
  | OutOfFuel => True
  end.

Definition eat_outcome (Inv : Parser -> Prop) (Q : exn -> Prop)
  (r : result Parser) : Prop :=
  match r with
  | Ok p' => Inv p'
  | Raise e => Q e
  | OutOfFuel => True
  end.

Definition sample_syntax_error_text : string :=
  "let a = 1;" ++ String newline "" ++ "print(a + 2;".

(** * Facts on texts *)

Lemma append_nil_r (s : string) : s ++ "" = s.
Proof. induction s as [|c s IH]; simpl; congruence. Qed.

Lemma append_assoc (a b c : string) : (a ++ b) ++ c = a ++ (b ++ c).
Proof. induction a as [|x a IH]; simpl; congruence. Qed.

Lemma length_append (a b : string) :
  String.length (a ++ b) = (String.length a + String.length b)%nat.
Proof. induction a as [|x a IH]; simpl; congruence. Qed.


(** * Facts on binary64 rounding *)

(** Rounding a positive mantissa at an exponent not below the least one
    never gives zero: an integer other than 0 converts to a float other
    than 0. *)

Lemma digits2_pos_lower (p : positive) :
  (2 ^ (Zpos (digits2_pos p) - 1) <= Zpos p)%Z.
Proof.
  induction p as [p IH|p IH|]; simpl digits2_pos.
  - rewrite Pos2Z.inj_succ.
    replace (Z.succ (Zpos (digits2_pos p)) - 1)%Z
      with (Z.succ (Zpos (digits2_pos p) - 1))%Z by lia.
    rewrite Z.pow_succ_r by lia. lia.
  - rewrite Pos2Z.inj_succ.
    replace (Z.succ (Zpos (digits2_pos p)) - 1)%Z
      with (Z.succ (Zpos (digits2_pos p) - 1))%Z by lia.
    rewrite Z.pow_succ_r by lia. lia.
  - simpl. lia.
Qed.

Lemma shr_1_m (mrs : shr_record) :
  (0 <= shr_m mrs)%Z -> shr_m (shr_1 mrs) = (shr_m mrs / 2)%Z.
Proof.
  destruct mrs as [m r s]. cbn [shr_m]. intros Hm.
  destruct m as [|[p|p|]|p]; cbn [shr_1 shr_m]; try lia.
  - reflexivity.
  - rewrite Pos2Z.inj_xI. apply Z.div_unique with 1%Z; lia.
  - rewrite Pos2Z.inj_xO. apply Z.div_unique with 0%Z; lia.
  - reflexivity.
Qed.

Lemma iter_shr_1_m (p : positive) (mrs : shr_record) :
  (0 <= shr_m mrs)%Z ->
  shr_m (iter_pos shr_1 p mrs) = (shr_m mrs / 2 ^ Zpos p)%Z.
Proof.
  revert mrs. induction p as [p IH|p IH|]; intros mrs Hm; simpl iter_pos.
  - assert (H1 : (0 <= shr_m (shr_1 mrs))%Z).
    { rewrite shr_1_m by assumption. apply Z.div_pos; lia. }
    assert (H2 : (0 <= shr_m (iter_pos shr_1 p (shr_1 mrs)))%Z).
    { rewrite IH by assumption. apply Z.div_pos; [lia|]. apply Z.pow_pos_nonneg; lia. }
    rewrite IH, IH, shr_1_m by assumption.
    rewrite !Z.div_div by (try apply Z.pow_pos_nonneg; lia).
    f_equal. rewrite <- Z.pow_add_r, <- Z.pow_succ_r by lia. f_equal. lia.
  - assert (H2 : (0 <= shr_m (iter_pos shr_1 p mrs))%Z).
    { rewrite IH by assumption. apply Z.div_pos; [lia|]. apply Z.pow_pos_nonneg; lia. }
    rewrite IH, IH by assumption.
    rewrite !Z.div_div by (try apply Z.pow_pos_nonneg; lia).
    f_equal. rewrite <- Z.pow_add_r by lia. f_equal. lia.
  - rewrite shr_1_m by assumption. reflexivity.
Qed.

Lemma shr_record_of_loc_m (m : Z) (l : location) :
  shr_m (shr_record_of_loc m l) = m.
Proof. destruct l as [|[ | | ]]; reflexivity. Qed.

Lemma shr_fexp_pos (m e : Z) (l : location) :
  (0 < m)%Z -> (emin prec emax <= e)%Z ->
  (0 < shr_m (fst (shr_fexp prec emax m e l)))%Z
  /\ (emin prec emax <= snd (shr_fexp prec emax m e l))%Z.
Proof.
  intros Hm He. unfold shr_fexp, shr.
  destruct m as [|p|p]; try lia.
  set (d := Zdigits2 (Zpos p)).
  assert (Hd : (2 ^ (d - 1) <= Zpos p)%Z) by apply digits2_pos_lower.
  assert (Hd1 : (1 <= d)%Z) by (unfold d; simpl; lia).
  destruct (fexp prec emax (d + e) - e)%Z as [|n|n] eqn:En; simpl;
    rewrite ?shr_record_of_loc_m; try lia.
  rewrite iter_shr_1_m by (rewrite shr_record_of_loc_m; lia).
  rewrite shr_record_of_loc_m.
  assert (Hn : (Zpos n <= d - 1)%Z).
  { unfold fexp, emin, prec, emax in *. lia. }
  split; [|lia].
  apply Z.div_str_pos. split; [apply Z.pow_pos_nonneg; lia|].
  apply Z.le_trans with (2 ^ (d - 1))%Z; [|assumption].
  apply Z.pow_le_mono_r; lia.
Qed.

Lemma round_nearest_even_pos (m : Z) (l : location) :
  (0 < m)%Z -> (0 < round_nearest_even m l)%Z.
Proof.
  intros Hm. destruct l as [|[ | | ]]; simpl; try lia.
  destruct (Z.even m); lia.
Qed.

Lemma binary_round_aux_not_zero (s s' : bool) (p : positive) (e : Z)
  (l : location) :
  (emin prec emax <= e)%Z ->
  binary_round_aux prec emax s (Zpos p) e l <> S754_zero s'.
Proof.
  intros He. unfold binary_round_aux.
  destruct (shr_fexp_pos (Zpos p) e l) as [H1 H2]; [lia|assumption|].
  destruct (shr_fexp prec emax (Zpos p) e l) as [mrs' e'].
  simpl in H1, H2.
  pose proof (round_nearest_even_pos (shr_m mrs') (loc_of_shr_record mrs') H1)
    as H3.
  destruct (shr_fexp_pos _ e' loc_Exact H3 H2) as [H4 _].
  destruct (shr_fexp prec emax _ e' loc_Exact) as [mrs'' e''].
  simpl in H4.
  destruct (shr_m mrs''); try lia.
  destruct (e'' <=? emax - prec)%Z; discriminate.
Qed.

Lemma binary_round_not_zero (s s' : bool) (p : positive) :
  binary_round prec emax s p 0 <> S754_zero s'.
Proof.
  unfold binary_round, shl_align.
  destruct (fexp prec emax (Zpos (digits2_pos p) + 0) - 0)%Z eqn:E;
    apply binary_round_aux_not_zero;
    unfold fexp, emin, prec, emax in *; lia.
Qed.

Lemma to_float_not_zero (z : Z) (f : spec_float) :
  z <> 0%Z -> to_float z = Ok f -> is_zero f = false.
Proof.
  intros Hz. unfold to_float, binary_normalize.
  destruct z as [|p|p]; [congruence| |].
  - pose proof (fun s' => binary_round_not_zero false s' p) as Hnz.
    destruct (binary_round prec emax false p 0) eqn:E; intros Hf;
      inversion Hf; subst; try reflexivity.
    exfalso. eapply Hnz. reflexivity.
  - pose proof (fun s' => binary_round_not_zero true s' p) as Hnz.
    destruct (binary_round prec emax true p 0) eqn:E; intros Hf;
      inversion Hf; subst; try reflexivity.
    exfalso. eapply Hnz. reflexivity.
Qed.

(** A float equals the integer 0 exactly when it is a zero. *)
Lemma float_eq_int_0 (f : spec_float) : float_eq_int f 0 = is_zero f.
Proof.
  destruct f as [s|s| |s m e]; simpl; try reflexivity.
  destruct (0 <=? e)%Z eqn:E.
  - apply Z.eqb_neq. apply Z.leb_le in E.
    assert (0 < 2 ^ e)%Z by (apply Z.pow_pos_nonneg; lia).
    destruct s; nia.
  - destruct s; reflexivity.
Qed.

(** ** Dictionaries *)

Section Dict.
Context {V : Type}.
Implicit Types (d : dict V) (k : string) (v : V).

Lemma dict_get_set_eq k v d : dict_get k (dict_set k v d) = Some v.
Proof.
  induction d as [|[k' v'] d IH]; simpl.
  - now rewrite String.eqb_refl.
  - destruct (String.eqb k' k) eqn:E; simpl; rewrite E; auto.
Qed.



Lemma dict_get_None k d : dict_get k d = None <-> ~ In k (dict_keys d).
Proof.
  unfold dict_keys. induction d as [|[k0 v0] d IH]; simpl.
  - intuition.
  - destruct (String.eqb k0 k) eqn:E.
    + apply String.eqb_eq in E. subst. split; [discriminate | intuition].
    + apply String.eqb_neq in E. rewrite IH. intuition.
Qed.
End Dict.

(** ** Expressions read the interpreter and leave it as it is *)

Lemma lift_state {A} (r : result A) self : snd (lift r self) = self.
Proof. reflexivity. Qed.

Lemma visit_state node self : snd (visit node self) = self.
Proof.
  revert self. induction node as [v|name|l IHl op r IHr]; intros self; simpl.
  - reflexivity.
  - unfold visit_VarNode. now destruct (dict_get name (symbol_table self)).
  - unfold visit_BinOpNode, mbind.
    specialize (IHl self). destruct (visit l self) as [[lv| |] s1];
      simpl in IHl; subst s1; try reflexivity.
    specialize (IHr self). destruct (visit r self) as [[rv| |] s2];
      simpl in IHr; subst s2; try reflexivity.
    repeat match goal with
           | |- context [if ?b then _ else _] => destruct b
           end; reflexivity.
Qed.

Lemma visit_eq node self : visit node self = (fst (visit node self), self).
Proof.
  rewrite <- (visit_state node self) at 3. now destruct (visit node self).
Qed.

Lemma visit_not_OutOfFuel node self : fst (visit node self) <> OutOfFuel.
Proof.
  revert self. induction node as [v|name|l IHl op r IHr]; intros self; simpl.
  - discriminate.
  - unfold visit_VarNode. now destruct (dict_get name (symbol_table self)).
  - unfold visit_BinOpNode, mbind.
    specialize (IHl self). rewrite (visit_eq l self) in *.
    destruct (fst (visit l self)) as [lv| |]; simpl in *; try easy.
    specialize (IHr self). rewrite (visit_eq r self) in *.
    destruct (fst (visit r self)) as [rv| |]; simpl in *; try easy.
    assert (Har : forall io fo a b, arith io fo a b <> OutOfFuel).
    { intros io fo [x|f] [y|g]; unfold arith, as_float, to_float; simpl;
        try discriminate;
        repeat match goal with
               | |- context [match ?t with _ => _ end] => destruct t; simpl
               end; discriminate. }
    unfold py_add, py_sub, py_mul.
    destruct (String.eqb op "+"); [apply Har|].
    destruct (String.eqb op "-"); [apply Har|].
    destruct (String.eqb op "*"); [apply Har|].
    destruct (String.eqb op "/"); [|discriminate].
    destruct (py_eq rv (PyInt 0)); [discriminate|].
    unfold lift; simpl.
    destruct lv as [x|f], rv as [y|g]; unfold py_truediv, as_float, to_float;
      simpl;
      repeat match goal with
             | |- context [match ?t with _ => _ end] => destruct t; simpl
             end; discriminate.
Qed.

(** ** Variables *)

(** C5. Evaluating a Variable node returns the value that the store maps its
    name to, leaving the interpreter as it was, and raises the runtime error
    that names the variable as not defined exactly when the store has no
    binding for the name; so the program [let x = y + 5;], run on a fresh
    interpreter, fails with the error that names [y]. *)
Theorem C5_variable_lookup (H : Host) (name : string) (self : Interpreter) :
  match dict_get name (symbol_table self) with
  | Some v => visit (VarNode name) self = (Ok v, self)
  | None =>
      visit (VarNode name) self =
      (Raise (Exception ("Runtime error: Variable '" ++ name
                         ++ "' is not defined")), self)
  end
  /\ fst (run_source "let x = y + 5;") =
     Raise (Exception "Runtime error: Variable 'y' is not defined").
Proof.
  split.
  - simpl. unfold visit_VarNode.
    destruct (dict_get name (symbol_table self)); reflexivity.
  - vm_compute. reflexivity.
Qed.

(** ** Division *)

Lemma visit_BinOpNode_eq (l r : ExprNode) (op : string)
  (self self1 self2 : Interpreter) (left_val right_val : pynum) :
  visit l self = (Ok left_val, self1) ->
  visit r self1 = (Ok right_val, self2) ->
  visit (BinOpNode l op r) self =
  (if String.eqb op "+" then lift (py_add left_val right_val)
   else if String.eqb op "-" then lift (py_sub left_val right_val)
   else if String.eqb op "*" then lift (py_mul left_val right_val)
   else if String.eqb op "/" then
     if py_eq right_val (PyInt 0) then runtime_error "Division by zero"
     else lift (py_truediv left_val right_val)
   else runtime_error ("Unknown operator: " ++ op)) self2.
Proof.
  intros Hl Hr. simpl. unfold visit_BinOpNode, mbind. now rewrite Hl, Hr.
Qed.

(** Away from a zero divisor, [/] gives a float or overflows. *)
Lemma py_truediv_nonzero (a b : pynum) :
  py_eq b (PyInt 0) = false ->
  (exists q, py_truediv a b = Ok (PyFloat q))
  \/ (exists msg, py_truediv a b = Raise (OverflowError msg)).
Proof.
  intros Hb. destruct a as [x|f], b as [y|g]; simpl in Hb.
  - unfold py_truediv. rewrite Hb.
    destruct (SFdiv prec emax (exact x) (exact y)); eauto.
  - rewrite float_eq_int_0 in Hb. unfold py_truediv, as_float, to_float, bind.
    destruct (binary_normalize prec emax x 0 false); rewrite ?Hb; eauto.
  - assert (Hy : y <> 0%Z) by (now apply Z.eqb_neq).
    unfold py_truediv, as_float, bind.
    destruct (to_float y) as [g| |] eqn:Eg.
    + rewrite (to_float_not_zero y g Hy Eg). eauto.
    + unfold to_float in Eg.
      destruct (binary_normalize prec emax y 0 false); inversion Eg; eauto.
    + unfold to_float in Eg.
      destruct (binary_normalize prec emax y 0 false); discriminate.
  - rewrite float_eq_int_0 in Hb. unfold py_truediv, as_float, bind.
    rewrite Hb. eauto.
Qed.

(** C2. On a BinaryOp node with the operator [/], once both operands are
    evaluated, the result is the runtime error "Division by zero" when the
    right value equals zero, and otherwise it is what Python's true division
    gives on the two values: a float, or the overflow error of a quotient too
    large, and never Python's own division-by-zero error, because the test
    comes before the division.  True division does not truncate: 7 / 2 is the
    float whose double equals 7. *)
Theorem C2_division (l r : ExprNode) (self self1 self2 : Interpreter)
  (left_val right_val : pynum) :
  visit l self = (Ok left_val, self1) ->
  visit r self1 = (Ok right_val, self2) ->
  visit (BinOpNode l "/" r) self =
    ((if py_eq right_val (PyInt 0)
      then Raise (Exception "Runtime error: Division by zero")
      else py_truediv left_val right_val), self2)
  /\ (py_eq right_val (PyInt 0) = false ->
      (exists q, py_truediv left_val right_val = Ok (PyFloat q))
      \/ (exists msg, py_truediv left_val right_val = Raise (OverflowError msg)))
  /\ (exists q, py_truediv (PyInt 7) (PyInt 2) = Ok (PyFloat q)
                /\ py_mul (PyFloat q) (PyInt 2) = Ok (PyFloat (exact_float 7))).
Proof.
  intros Hl Hr. split; [|split].
  - rewrite (visit_BinOpNode_eq _ _ _ _ _ _ _ _ Hl Hr). simpl.
    now destruct (py_eq right_val (PyInt 0)).
  - apply py_truediv_nonzero.
  - eexists. split; vm_compute; reflexivity.
Qed.

Lemma C2_division_witness :
  visit (NumberNode (PyInt 10)) (Interpreter_init "")
    = (Ok (PyInt 10), Interpreter_init "")
  /\ visit (NumberNode (PyInt 0)) (Interpreter_init "")
    = (Ok (PyInt 0), Interpreter_init "")
  /\ visit (BinOpNode (NumberNode (PyInt 10)) "/" (NumberNode (PyInt 0)))
       (Interpreter_init "")
    = (Raise (Exception "Runtime error: Division by zero"), Interpreter_init "").
Proof.
  split; [reflexivity|split; [reflexivity|]].
  apply (C2_division (NumberNode (PyInt 10)) (NumberNode (PyInt 0))
           (Interpreter_init "") (Interpreter_init "") (Interpreter_init "")
           (PyInt 10) (PyInt 0)); reflexivity.
Defined.

(** ** Integers and floats *)

Lemma arith_kind (int_op : Z -> Z -> Z)
  (float_op : spec_float -> spec_float -> spec_float) (a b v : pynum) :
  arith int_op float_op a b = Ok v ->
  is_float v = is_float a || is_float b
  /\ forall x y, a = PyInt x -> b = PyInt y -> v = PyInt (int_op x y).
Proof.
  destruct a as [x|f], b as [y|g]; unfold arith, as_float, bind; simpl.
  - intros E. inversion E. split; [reflexivity|].
    intros x' y' Hx Hy. now inversion Hx; inversion Hy.
  - destruct (to_float x); intros E; inversion E.
    split; [reflexivity|discriminate].
  - destruct (to_float y); intros E; inversion E.
    split; [reflexivity|discriminate].
  - intros E; inversion E. split; [reflexivity|discriminate].
Qed.

Lemma py_truediv_kind (a b v : pynum) :
  py_truediv a b = Ok v -> is_float v = true.
Proof.
  destruct a as [x|f], b as [y|g]; unfold py_truediv, as_float, bind.
  - destruct (y =? 0)%Z; [discriminate|].
    destruct (SFdiv prec emax (exact x) (exact y)); intros E; now inversion E.
  - destruct (to_float x); try discriminate.
    destruct (is_zero g); intros E; now inversion E.
  - destruct (to_float y) as [g| |]; try discriminate.
    destruct (is_zero g); intros E; now inversion E.
  - destruct (is_zero g); intros E; now inversion E.
Qed.

(** C6. When a BinaryOp evaluation succeeds, under [+], [-] and [*] the
    result is a float exactly when one of the operand values is a float, and
    on two integers it is the integer sum, difference or product; under [/]
    the result is always a float, also on integers that divide exactly:
    10 / 5 is a float that compares equal to the integer 2. *)
Theorem C6_promotion (l r : ExprNode) (op : string)
  (self self1 self2 self3 : Interpreter) (left_val right_val v : pynum) :
  visit l self = (Ok left_val, self1) ->
  visit r self1 = (Ok right_val, self2) ->
  visit (BinOpNode l op r) self = (Ok v, self3) ->
  (op = "+" \/ op = "-" \/ op = "*" ->
     is_float v = is_float left_val || is_float right_val
     /\ is_int v = is_int left_val && is_int right_val)
  /\ (forall x y, left_val = PyInt x -> right_val = PyInt y ->
        (op = "+" -> v = PyInt (x + y))
        /\ (op = "-" -> v = PyInt (x - y))
        /\ (op = "*" -> v = PyInt (x * y)))
  /\ (op = "/" -> is_float v = true)
  /\ (exists q,
        visit (BinOpNode (NumberNode (PyInt 10)) "/" (NumberNode (PyInt 5))) self
          = (Ok (PyFloat q), self)
        /\ py_eq (PyFloat q) (PyInt 2) = true).
Proof.
  intros Hl Hr Hv.
  rewrite (visit_BinOpNode_eq _ _ _ _ _ _ _ _ Hl Hr) in Hv.
  assert (Hkind : forall io fo, lift (arith io fo left_val right_val) self2
                                = (Ok v, self3) ->
            is_float v = is_float left_val || is_float right_val
            /\ forall x y, left_val = PyInt x -> right_val = PyInt y ->
                           v = PyInt (io x y)).
  { intros io fo E. unfold lift in E. inversion E as [[E1 E2]].
    now apply arith_kind with fo. }
  split; [|split; [|split]].
  - intros Hop. assert (Hf : is_float v = is_float left_val || is_float right_val).
    { destruct Hop as [->|[->| ->]]; simpl in Hv; eapply Hkind; exact Hv. }
    split; [exact Hf|]. unfold is_int. rewrite Hf. apply negb_orb.
  - intros x y Hx Hy. repeat split; intros ->; simpl in Hv;
      eapply Hkind; eauto.
  - intros ->. simpl in Hv.
    destruct (py_eq right_val (PyInt 0)); [discriminate|].
    unfold lift in Hv. inversion Hv as [[E1 E2]].
    eapply py_truediv_kind; eauto.
  - eexists. split.
    + simpl. unfold visit_BinOpNode, mbind, visit_NumberNode, ret. simpl.
      unfold lift. vm_compute py_truediv. reflexivity.
    + vm_compute. reflexivity.
Qed.

Lemma C6_promotion_witness :
  visit (NumberNode (PyInt 2)) (Interpreter_init "")
    = (Ok (PyInt 2), Interpreter_init "")
  /\ visit (NumberNode (PyFloat (exact_float 3))) (Interpreter_init "")
    = (Ok (PyFloat (exact_float 3)), Interpreter_init "")
  /\ visit (BinOpNode (NumberNode (PyInt 2)) "*"
                      (NumberNode (PyFloat (exact_float 3))))
       (Interpreter_init "")
    = (Ok (PyFloat (exact_float 6)), Interpreter_init "")
  /\ is_float (PyFloat (exact_float 6)) = true.
Proof.
  assert (H1 : visit (NumberNode (PyInt 2)) (Interpreter_init "")
               = (Ok (PyInt 2), Interpreter_init "")) by reflexivity.
  assert (H2 : visit (NumberNode (PyFloat (exact_float 3))) (Interpreter_init "")
               = (Ok (PyFloat (exact_float 3)), Interpreter_init ""))
    by reflexivity.
  assert (H3 : visit (BinOpNode (NumberNode (PyInt 2)) "*"
                        (NumberNode (PyFloat (exact_float 3))))
                 (Interpreter_init "")
               = (Ok (PyFloat (exact_float 6)), Interpreter_init ""))
    by (vm_compute; reflexivity).
  split; [exact H1|split; [exact H2|split; [exact H3|]]].
  destruct (C6_promotion _ _ _ _ _ _ _ _ _ _ H1 H2 H3) as [Hk _].
  apply Hk. right; right; reflexivity.
Defined.

(** ** The store *)

Lemma visit_Ok node self v self' :
  visit node self = (Ok v, self') -> self' = self.
Proof. intros E. pose proof (visit_state node self) as Hs. now rewrite E in Hs. Qed.

Lemma visit_PrintNode_eq `{Host} (expr : ExprNode) (self : Interpreter) :
  visit_PrintNode expr self =
  match fst (visit expr self) with
  | Ok v =>
      match py_str v with
      | Ok s => (Ok tt, {| symbol_table := symbol_table self;
                           stdout := stdout self ++ s ++ String newline "" |})
      | Raise e => (Raise e, self)
      | OutOfFuel => (OutOfFuel, self)
      end
  | Raise e => (Raise e, self)
  | OutOfFuel => (OutOfFuel, self)
  end.
Proof.
  unfold visit_PrintNode, mbind. rewrite (visit_eq expr self).
  destruct (fst (visit expr self)); reflexivity.
Qed.

Lemma visit_AssignNode_eq (var : string) (expr : ExprNode) (self : Interpreter) :
  visit_AssignNode var expr self =
  match fst (visit expr self) with
  | Ok v => (Ok tt, {| symbol_table := dict_set var v (symbol_table self);
                       stdout := stdout self |})
  | Raise e => (Raise e, self)
  | OutOfFuel => (OutOfFuel, self)
  end.
Proof.
  unfold visit_AssignNode, mbind. rewrite (visit_eq expr self).
  destruct (fst (visit expr self)); reflexivity.
Qed.





(** ** Failing statements *)

Lemma visit_statement_Raise `{Host} (node : StmtNode) (self self' : Interpreter)
  (e : exn) :
  visit_statement node self = (Raise e, self') -> self' = self.
Proof.
  destruct node as [var expr|expr]; simpl.
  - rewrite visit_AssignNode_eq. destruct (fst (visit expr self));
      intros E; now inversion E.
  - rewrite visit_PrintNode_eq. destruct (fst (visit expr self)) as [v| |].
    + destruct (py_str v); intros E; now inversion E.
    + intros E; now inversion E.
    + intros E; now inversion E.
Qed.

Lemma visit_statements_app `{Host} (pre post : list StmtNode)
  (self self1 : Interpreter) :
  visit_statements pre self = (Ok tt, self1) ->
  visit_statements (pre ++ post)%list self = visit_statements post self1.
Proof.
  revert self. induction pre as [|s pre IH]; intros self; simpl.
  - intros E. now inversion E.
  - unfold mbind. destruct (visit_statement s self) as [[[]| |] self0];
      try discriminate. apply IH.
Qed.

(** C4. When the statements before the i-th one all succeed, taking the
    interpreter to the state [self1], and the i-th statement raises the error
    [e], then the program raises [e] and leaves the interpreter in the state
    [self1]: the store and the standard output are those that the statements
    before the failing one produced, the failing statement adds nothing, and
    whichever statements follow it have no part in the outcome. *)
Theorem C4_fail_fast (H : Host) (pre post : list StmtNode) (failing : StmtNode)
  (self self1 self2 : Interpreter) (e : exn) :
  visit_statements pre self = (Ok tt, self1) ->
  visit_statement failing self1 = (Raise e, self2) ->
  interpret (ProgramNode (pre ++ failing :: post)) self = (Raise e, self1)
  /\ self2 = self1.
Proof.
  intros Hpre Hfail.
  assert (self2 = self1) by (eapply visit_statement_Raise; eauto). subst self2.
  split; [|reflexivity].
  unfold interpret, visit_ProgramNode.
  rewrite (visit_statements_app _ _ _ _ Hpre). simpl. unfold mbind.
  now rewrite Hfail.
Qed.

Lemma C4_fail_fast_witness :
  visit_statements sample_prefix (Interpreter_init "") = (Ok tt, sample_state)
  /\ visit_statement sample_failing sample_state = (Raise sample_error, sample_state)
  /\ interpret (ProgramNode (sample_prefix ++ sample_failing :: sample_rest))
       (Interpreter_init "")
     = (Raise sample_error, sample_state).
Proof.
  assert (H1 : visit_statements sample_prefix (Interpreter_init "")
               = (Ok tt, sample_state)) by reflexivity.
  assert (H2 : visit_statement sample_failing sample_state
               = (Raise sample_error, sample_state)) by reflexivity.
  split; [exact H1|split; [exact H2|]].
  exact (proj1 (C4_fail_fast cpython sample_prefix sample_rest sample_failing
                  _ _ _ sample_error H1 H2)).
Defined.

(** ** Where the output goes *)






(** * Properties of the lexer *)

(** ** The unread text *)

Lemma get_drop (n : nat) (s : string) : String.get n s = head (drop n s).
Proof.
  revert n. induction s as [|c s IH]; intros [|n]; simpl; auto.
Qed.

Lemma drop_S (n : nat) (s : string) (c : ascii) (r : string) :
  drop n s = String c r -> drop (S n) s = r.
Proof.
  revert n. induction s as [|c' s IH]; intros [|n]; simpl; try discriminate.
  - intros E. inversion E. now destruct r.
  - apply IH.
Qed.

Lemma length_drop (n : nat) (s : string) :
  String.length (drop n s) = (String.length s - n)%nat.
Proof.
  revert n. induction s as [|c s IH]; intros [|n]; simpl; auto.
Qed.

Lemma get_beyond (n : nat) (s : string) :
  (String.length s <= n)%nat -> String.get n s = None.
Proof.
  revert n. induction s as [|c s IH]; intros [|n]; simpl; auto; try lia.
  intros Hn. apply IH. lia.
Qed.

Lemma remaining_unread (lx : Lexer) : remaining lx = String.length (unread lx).
Proof. unfold remaining, unread. now rewrite length_drop. Qed.

Lemma wf_head (lx : Lexer) : wf lx -> current_char lx = head (unread lx).
Proof. unfold wf, unread. intros ->. apply get_drop. Qed.

Lemma Lexer_init_wf (source : string) : wf (Lexer_init source).
Proof. reflexivity. Qed.

Lemma Lexer_init_unread (source : string) : unread (Lexer_init source) = source.
Proof. reflexivity. Qed.

Lemma advance_current (lx : Lexer) :
  current_char (advance lx) = String.get (S (pos lx)) (text lx).
Proof.
  unfold advance. destruct (current_char lx) as [ch|];
    [destruct (Ascii.eqb ch newline)|]; simpl;
    (destruct (String.length (text lx) <=? S (pos lx))%nat eqn:E;
     [apply Nat.leb_le in E; now rewrite get_beyond|reflexivity]).
Qed.

Lemma advance_text (lx : Lexer) : text (advance lx) = text lx.
Proof.
  unfold advance. destruct (current_char lx) as [ch|];
    [destruct (Ascii.eqb ch newline)|]; reflexivity.
Qed.

Lemma advance_pos (lx : Lexer) : pos (advance lx) = S (pos lx).
Proof.
  unfold advance. destruct (current_char lx) as [ch|];
    [destruct (Ascii.eqb ch newline)|]; reflexivity.
Qed.

Lemma advance_wf (lx : Lexer) : wf (advance lx).
Proof.
  unfold wf. now rewrite advance_current, advance_text, advance_pos.
Qed.

Lemma advance_unread (lx : Lexer) (c : ascii) (r : string) :
  unread lx = String c r -> unread (advance lx) = r.
Proof.
  unfold unread. rewrite advance_text, advance_pos. apply drop_S.
Qed.

Lemma drop_succ (n : nat) (s : string) : drop (S n) s = drop 1 (drop n s).
Proof.
  revert n. induction s as [|c s IH]; intros [|n]; try reflexivity.
  simpl drop at 1 3. apply IH.
Qed.

Lemma peek_unread (lx : Lexer) : peek lx = head (drop 1 (unread lx)).
Proof.
  unfold peek, unread. rewrite Nat.add_1_r, <- drop_succ, <- get_drop.
  destruct (String.length (text lx) <=? S (pos lx))%nat eqn:El; [|reflexivity].
  apply Nat.leb_le in El. now rewrite get_beyond.
Qed.

Lemma advance_n_text (n : nat) (lx : Lexer) : text (advance_n n lx) = text lx.
Proof.
  revert lx. induction n as [|n IH]; intros lx; simpl; auto.
  now rewrite IH, advance_text.
Qed.

Lemma advance_n_wf (n : nat) (lx : Lexer) : wf lx -> wf (advance_n n lx).
Proof.
  revert lx. induction n as [|n IH]; intros lx Hwf; simpl; auto.
  apply IH, advance_wf.
Qed.

Lemma advance_n_unread (s r : string) (lx : Lexer) :
  unread lx = s ++ r -> unread (advance_n (String.length s) lx) = r.
Proof.
  revert lx. induction s as [|c s IH]; intros lx E; simpl in *; auto.
  apply IH. now apply advance_unread with c.
Qed.

Lemma span_append (p : ascii -> bool) (s : string) :
  s = fst (span p s) ++ snd (span p s).
Proof.
  induction s as [|c s IH]; simpl; auto.
  destruct (p c); simpl; auto.
  destruct (span p s) as [a b]. simpl in *. congruence.
Qed.

Lemma span_all (p : ascii -> bool) (s : string) :
  forallb_string p (fst (span p s)) = true.
Proof.
  induction s as [|c s IH]; simpl; auto.
  destruct (p c) eqn:E; simpl; auto.
  destruct (span p s) as [a b]. simpl in *. now rewrite E.
Qed.

Lemma span_stop (p : ascii -> bool) (s : string) :
  match head (snd (span p s)) with
  | Some c => p c = false
  | None => True
  end.
Proof.
  induction s as [|c s IH]; simpl; auto.
  destruct (p c) eqn:E; simpl; auto.
  now destruct (span p s) as [a b].
Qed.

(** ** The scanning loop *)

(** With fuel beyond the unread length, the loop takes the longest prefix of
    the unread text whose characters satisfy [p], by as many calls of
    [advance]. *)
Lemma scan_while_spec (p : ascii -> bool) (fuel : nat) (acc : string)
  (lx : Lexer) :
  wf lx -> (remaining lx < fuel)%nat ->
  scan_while p fuel acc lx =
  Ok (acc ++ fst (span p (unread lx)),
      advance_n (String.length (fst (span p (unread lx)))) lx).
Proof.
  revert acc lx. induction fuel as [|fuel IH]; intros acc lx Hwf Hfuel; [lia|].
  simpl. rewrite (wf_head lx Hwf).
  destruct (unread lx) as [|c r] eqn:Eu; simpl.
  - now rewrite append_nil_r.
  - destruct (p c) eqn:Ep; [|now rewrite append_nil_r].
    pose proof (advance_unread lx c r Eu) as Ea.
    rewrite IH; [|apply advance_wf|].
    + rewrite Ea. destruct (span p r) as [a b]. simpl.
      now rewrite append_assoc.
    + rewrite remaining_unread in *. rewrite Ea, Eu in *. simpl in Hfuel. lia.
Qed.

Lemma passed_refl (lx : Lexer) : wf lx -> passed lx lx "".
Proof. intros Hwf. repeat split; auto. Qed.

Lemma passed_trans (lx1 lx2 lx3 : Lexer) (s t : string) :
  passed lx1 lx2 s -> passed lx2 lx3 t -> passed lx1 lx3 (s ++ t).
Proof.
  intros (_ & Ht1 & Hu1) (Hw & Ht2 & Hu2). repeat split; auto.
  - congruence.
  - now rewrite Hu1, Hu2, append_assoc.
Qed.

Lemma passed_remaining (lx lx' : Lexer) (s : string) :
  passed lx lx' s -> remaining lx = (String.length s + remaining lx')%nat.
Proof.
  intros (_ & _ & Hu). now rewrite !remaining_unread, Hu, length_append.
Qed.

Lemma passed_advance (lx : Lexer) (c : ascii) :
  wf lx -> current_char lx = Some c ->
  passed lx (advance lx) (String c "").
Proof.
  intros Hwf Hc. rewrite (wf_head lx Hwf) in Hc.
  destruct (unread lx) as [|c' r] eqn:Eu; simpl in Hc; inversion Hc; subst c'.
  repeat split.
  - apply advance_wf.
  - apply advance_text.
  - simpl. now rewrite (advance_unread lx c r Eu).
Qed.

Lemma passed_span (p : ascii -> bool) (lx : Lexer) :
  wf lx ->
  passed lx (advance_n (String.length (fst (span p (unread lx)))) lx)
         (fst (span p (unread lx)))
  /\ unread (advance_n (String.length (fst (span p (unread lx)))) lx)
     = snd (span p (unread lx)).
Proof.
  intros Hwf.
  assert (Hu : unread (advance_n (String.length (fst (span p (unread lx)))) lx)
               = snd (span p (unread lx))).
  { apply advance_n_unread. apply span_append. }
  split; [|exact Hu]. repeat split.
  - now apply advance_n_wf.
  - apply advance_n_text.
  - rewrite Hu. apply span_append.
Qed.

Lemma span_nonempty (p : ascii -> bool) (s : string) (c : ascii) :
  head s = Some c -> p c = true -> fst (span p s) <> "".
Proof.
  destruct s as [|c' r]; simpl; [discriminate|].
  intros E Hp. inversion E; subst c'. rewrite Hp.
  now destruct (span p r).
Qed.

(** ** The scanning methods *)

Lemma skip_whitespace_spec (lx : Lexer) :
  wf lx ->
  skip_whitespace lx =
  Ok (advance_n (String.length (fst (span isspace (unread lx)))) lx).
Proof.
  intros Hwf. unfold skip_whitespace.
  rewrite scan_while_spec by (auto; lia). reflexivity.
Qed.

Lemma skip_comment_spec (lx : Lexer) :
  wf lx ->
  char_is slash (current_char lx) && char_is slash (peek lx) = true ->
  skip_comment lx =
  Ok (let lx1 := advance_n (String.length (fst (span not_newline (unread lx)))) lx in
      if char_is newline (current_char lx1) then advance lx1 else lx1).
Proof.
  intros Hwf Hc. unfold skip_comment. rewrite Hc.
  rewrite scan_while_spec by (auto; lia). simpl bind. fold not_newline.
  now destruct (char_is newline _).
Qed.

Lemma length_nonempty (s : string) : s <> "" -> (1 <= String.length s)%nat.
Proof. destruct s; simpl; [congruence|lia]. Qed.

(** A comment is passed as a text that is not empty. *)
Lemma skip_comment_passed (lx : Lexer) :
  wf lx ->
  char_is slash (current_char lx) && char_is slash (peek lx) = true ->
  exists lx' s, skip_comment lx = Ok lx' /\ passed lx lx' s /\ s <> "".
Proof.
  intros Hwf Hc. rewrite (skip_comment_spec lx Hwf Hc).
  destruct (passed_span not_newline lx Hwf) as [Hp Hu].
  set (body := fst (span not_newline (unread lx))) in *.
  set (lx1 := advance_n (String.length body) lx) in *.
  assert (Hbody : body <> "").
  { apply andb_prop in Hc. destruct Hc as [Hc _].
    rewrite (wf_head lx Hwf) in Hc.
    destruct (head (unread lx)) as [c|] eqn:Eh; simpl in Hc; [|discriminate].
    apply span_nonempty with c; auto.
    apply Ascii.eqb_eq in Hc. now subst c. }
  cbv zeta. destruct (current_char lx1) as [c|] eqn:Ec; simpl.
  - destruct (Ascii.eqb c newline).
    + exists (advance lx1), (body ++ String c ""). repeat split.
      * apply advance_wf.
      * rewrite advance_text. apply Hp.
      * destruct (passed_advance lx1 c) as (_ & _ & Hu1); [apply Hp|auto|].
        destruct Hp as (_ & _ & Hu0). now rewrite Hu0, Hu1, append_assoc.
      * destruct body; discriminate.
    + exists lx1, body. auto.
  - exists lx1, body. auto.
Qed.

Lemma number_spec `{Host} (lx : Lexer) :
  wf lx ->
  number lx =
  let lexeme := fst (span digit_or_dot (unread lx)) in
  let lx' := advance_n (String.length lexeme) lx in
  if contains dot lexeme then
    f <- py_float lexeme ;;
    Ok (mkToken NUMBER (NumValue (PyFloat f)) (line lx') (column lx), lx')
  else
    z <- py_int lexeme ;;
    Ok (mkToken NUMBER (NumValue (PyInt z)) (line lx') (column lx), lx').
Proof.
  intros Hwf. unfold number.
  rewrite scan_while_spec by (auto; lia). reflexivity.
Qed.

Lemma identifier_spec (lx : Lexer) :
  wf lx ->
  identifier lx =
  let lexeme := fst (span (fun ch => isalnum ch || Ascii.eqb ch underscore)
                          (unread lx)) in
  let lx' := advance_n (String.length lexeme) lx in
  Ok (mkToken (keywords_get lexeme) (StrValue lexeme) (line lx') (column lx), lx').
Proof.
  intros Hwf. unfold identifier.
  rewrite scan_while_spec by (auto; lia). reflexivity.
Qed.

Lemma keywords_get_not_EOF (s : string) : keywords_get s <> EOF.
Proof.
  unfold keywords_get. destruct (String.eqb s "let"); [discriminate|].
  destruct (String.eqb s "print"); discriminate.
Qed.

Lemma operator_not_EOF (ch : ascii) : operator ch <> Some EOF.
Proof.
  unfold operator.
  repeat match goal with
         | |- context [if ?b then _ else _] => destruct b; try discriminate
         end.
Qed.

Lemma operator_not_NUMBER (ch : ascii) : operator ch <> Some NUMBER.
Proof.
  unfold operator.
  repeat match goal with
         | |- context [if ?b then _ else _] => destruct b; try discriminate
         end.
Qed.

Lemma isalpha_isalnum (ch : ascii) : isalpha ch = true -> isalnum ch = true.
Proof. unfold isalnum. now intros ->. Qed.

Lemma py_float_fuel (s : string) : py_float s <> OutOfFuel.
Proof.
  unfold py_float. destruct (split_dot s) as [ip fp].
  match goal with |- context [if ?b then _ else _] => destruct b end;
    discriminate.
Qed.

Lemma py_int_fuel `{Host} (s : string) : py_int s <> OutOfFuel.
Proof.
  unfold py_int.
  repeat match goal with
         | |- context [if ?b then _ else _] => destruct b
         end; discriminate.
Qed.

(** ** One token *)

Lemma number_step `{Host} (lx : Lexer) (ch : ascii) :
  wf lx -> current_char lx = Some ch -> isdigit ch = true ->
  token_step lx (number lx).
Proof.
  intros Hwf Hc Hd. rewrite (number_spec lx Hwf). cbv zeta.
  destruct (passed_span digit_or_dot lx Hwf) as [Hp _].
  set (lexeme := fst (span digit_or_dot (unread lx))) in *.
  assert (Hne : lexeme <> "").
  { apply span_nonempty with ch; [now rewrite <- wf_head|].
    unfold digit_or_dot. now rewrite Hd. }
  destruct (contains dot lexeme).
  - pose proof (py_float_fuel lexeme).
    destruct (py_float lexeme); simpl; auto.
    split; [unfold well_valued; simpl; eauto|].
    exists lexeme. split; [exact Hp|].
    split; [intros _; exact Hne|intros E; discriminate E].
  - pose proof (py_int_fuel lexeme).
    destruct (py_int lexeme); simpl; auto.
    split; [unfold well_valued; simpl; eauto|].
    exists lexeme. split; [exact Hp|].
    split; [intros _; exact Hne|intros E; discriminate E].
Qed.

Lemma identifier_step (lx : Lexer) (ch : ascii) :
  wf lx -> current_char lx = Some ch ->
  isalpha ch || Ascii.eqb ch underscore = true ->
  token_step lx (identifier lx).
Proof.
  intros Hwf Hc Ha. rewrite (identifier_spec lx Hwf). cbv zeta.
  destruct (passed_span (fun ch => isalnum ch || Ascii.eqb ch underscore) lx Hwf)
    as [Hp _].
  set (lexeme := fst (span _ (unread lx))) in *.
  assert (Hne : lexeme <> "").
  { apply span_nonempty with ch; [now rewrite <- wf_head|].
    apply orb_prop in Ha. destruct Ha as [Ha|Ha].
    - now rewrite (isalpha_isalnum ch Ha).
    - rewrite Ha. apply orb_true_r. }
  simpl. split.
  - unfold well_valued. simpl.
    unfold keywords_get. destruct (String.eqb lexeme "let"); [simpl; eauto|].
    destruct (String.eqb lexeme "print"); simpl; eauto.
  - exists lexeme. split; [exact Hp|].
    split; [intros _; exact Hne|].
    intros E. simpl in E. now apply keywords_get_not_EOF in E.
Qed.

Lemma token_step_passed (lx lx1 : Lexer) (s : string)
  (r : result (Token * Lexer)) :
  passed lx lx1 s -> s <> "" -> token_step lx1 r -> token_step lx r.
Proof.
  intros Hp Hs. destruct r as [[t lx']| |]; simpl; auto.
  intros (Hv & s' & Hp' & Hne & Heof). split; [exact Hv|].
  exists (s ++ s'). split; [exact (passed_trans _ _ _ _ _ Hp Hp')|].
  split; [|exact Heof].
  intros _. destruct s; [congruence|discriminate].
Qed.

(** With fuel beyond the unread length the loop of [get_next_token] ends:
    with an error, with a token after passing some text, or with EOF at the
    end of the text. *)
Lemma get_next_token_loop_step `{Host} (fuel : nat) (lx : Lexer) :
  wf lx -> (remaining lx < fuel)%nat ->
  token_step lx (get_next_token_loop fuel lx).
Proof.
  revert lx. induction fuel as [|fuel IH]; intros lx Hwf Hfuel; [lia|].
  simpl. destruct (current_char lx) as [ch|] eqn:Ec.
  - destruct (isspace ch) eqn:Esp.
    { rewrite (skip_whitespace_spec lx Hwf). simpl bind.
      destruct (passed_span isspace lx Hwf) as [Hp _].
      set (ws := fst (span isspace (unread lx))) in *.
      assert (Hne : ws <> "").
      { apply span_nonempty with ch; [now rewrite <- wf_head|auto]. }
      apply token_step_passed with (advance_n (String.length ws) lx) ws; auto.
      apply IH; [apply Hp|].
      pose proof (passed_remaining _ _ _ Hp) as Hr.
      pose proof (length_nonempty ws Hne). lia. }
    destruct (Ascii.eqb ch slash && char_is slash (peek lx)) eqn:Ecm.
    { destruct (skip_comment_passed lx Hwf) as (lx1 & s & E & Hp & Hne).
      { rewrite Ec. exact Ecm. }
      rewrite E. simpl bind.
      apply token_step_passed with lx1 s; auto.
      apply IH; [apply Hp|].
      pose proof (passed_remaining _ _ _ Hp) as Hr.
      pose proof (length_nonempty s Hne). lia. }
    destruct (isdigit ch) eqn:Ed.
    { now apply number_step with ch. }
    destruct (isalpha ch || Ascii.eqb ch underscore) eqn:Ea.
    { now apply identifier_step with ch. }
    destruct (operator ch) as [k|] eqn:Eop; simpl; auto.
    split.
    + unfold well_valued. simpl.
      destruct k; eauto.
      * now apply operator_not_NUMBER in Eop.
      * now apply operator_not_EOF in Eop.
    + exists (String ch ""). split; [now apply passed_advance|].
      split; [discriminate|].
      simpl. intros E. subst k. now apply operator_not_EOF in Eop.
  - simpl. split; [reflexivity|]. exists "".
    split; [now apply passed_refl|].
    split; [intros E; now elim E|auto].
Qed.

Lemma get_next_token_step `{Host} (lx : Lexer) :
  wf lx -> token_step lx (get_next_token lx).
Proof. intros Hwf. apply get_next_token_loop_step; auto. Qed.

(** The payload of a token is the one that its type announces. *)
Lemma get_next_token_value `{Host} (lx lx' : Lexer) (t : Token) :
  wf lx -> get_next_token lx = Ok (t, lx') -> well_valued t.
Proof.
  intros Hwf E. pose proof (get_next_token_step lx Hwf) as Hs.
  rewrite E in Hs. apply Hs.
Qed.

(** ** The whole token sequence *)

Lemma get_next_token_at_end `{Host} (lx : Lexer) :
  current_char lx = None ->
  get_next_token lx = Ok (mkToken EOF NoValue (line lx) (column lx), lx).
Proof. intros Hc. unfold get_next_token. simpl. now rewrite Hc. Qed.

Lemma next_tokens_at_end `{Host} (n : nat) (lx : Lexer) :
  current_char lx = None ->
  next_tokens n lx
  = Ok (repeat (mkToken EOF NoValue (line lx) (column lx)) n, lx).
Proof.
  intros Hc. induction n as [|n IH]; simpl; [reflexivity|].
  rewrite (get_next_token_at_end lx Hc). simpl. now rewrite IH.
Qed.

Lemma TokenType_eqb_eq (a b : TokenType) : TokenType_eqb a b = true <-> a = b.
Proof. destruct a, b; simpl; split; intros E; congruence. Qed.

Lemma TokenType_eqb_neq (a b : TokenType) : TokenType_eqb a b = false <-> a <> b.
Proof. destruct a, b; simpl; split; intros E; congruence. Qed.

(** The fuel that the loop of [tokenize] needs when it holds [token]. *)
Lemma tokenize_loop_ends `{Host} (fuel : nat) (tokens : list Token)
  (token : Token) (lx : Lexer) :
  wf lx ->
  (type token = EOF ->
   current_char lx = None /\ token = mkToken EOF NoValue (line lx) (column lx)) ->
  (remaining lx + (if TokenType_eqb (type token) EOF then 0 else 1) < fuel)%nat ->
  match tokenize_loop fuel tokens token lx with
  | Ok (all, lx') =>
      current_char lx' = None
      /\ exists body,
           all = (tokens ++ body
                  ++ [mkToken EOF NoValue (line lx') (column lx')])%list
           /\ Forall (fun t => type t <> EOF) body
  | Raise _ => True
  | OutOfFuel => False
  end.
Proof.
  revert tokens token lx.
  induction fuel as [|fuel IH]; intros tokens token lx Hwf Heof Hfuel; [lia|].
  simpl. destruct (TokenType_eqb (type token) EOF) eqn:Et; simpl.
  - apply TokenType_eqb_eq in Et. destruct (Heof Et) as [Hc ->].
    split; [exact Hc|]. exists []. split; [reflexivity|constructor].
  - apply TokenType_eqb_neq in Et.
    pose proof (get_next_token_step lx Hwf) as Hs.
    destruct (get_next_token lx) as [[t lx1]| |]; simpl in *; auto.
    destruct Hs as (_ & s & Hp & Hne & Heof1).
    pose proof (passed_remaining _ _ _ Hp) as Hr.
    specialize (IH (tokens ++ [token])%list t lx1).
    destruct (tokenize_loop fuel (tokens ++ [token])%list t lx1)
      as [[all lx']| |].
    + destruct IH as (Hc & body & Hall & Hbody); [apply Hp|exact Heof1| |].
      * destruct (TokenType_eqb (type t) EOF) eqn:Et1; [lia|].
        apply TokenType_eqb_neq in Et1.
        pose proof (length_nonempty s (Hne Et1)). lia.
      * split; [exact Hc|]. exists (token :: body). split.
        -- rewrite Hall, <- app_assoc. reflexivity.
        -- now constructor.
    + exact I.
    + apply IH; [apply Hp|exact Heof1|].
      destruct (TokenType_eqb (type t) EOF) eqn:Et1; [lia|].
      apply TokenType_eqb_neq in Et1.
      pose proof (length_nonempty s (Hne Et1)). lia.
Qed.

Lemma tokenize_ends `{Host} (lx : Lexer) :
  wf lx ->
  match tokenize lx with
  | Ok (all, lx') =>
      current_char lx' = None
      /\ exists body,
           all = (body ++ [mkToken EOF NoValue (line lx') (column lx')])%list
           /\ Forall (fun t => type t <> EOF) body
  | Raise _ => True
  | OutOfFuel => False
  end.
Proof.
  intros Hwf. unfold tokenize.
  pose proof (get_next_token_step lx Hwf) as Hs.
  destruct (get_next_token lx) as [[t lx1]| |]; simpl in *; auto.
  destruct Hs as (_ & s & Hp & Hne & Heof1).
  apply (tokenize_loop_ends (S (S (remaining lx1))) [] t lx1);
    [apply Hp|exact Heof1|].
  destruct (TokenType_eqb (type t) EOF); lia.
Qed.

(** C8. Tokenizing a source text ends, with an error of the lexer or with a
    token sequence; the sequence is a run of tokens other than EOF followed
    by one EOF token, and every further request, any number of times, gives
    that EOF token again and leaves the lexer where it is.  The same holds
    for a lexer used one token at a time: once a call has returned EOF, every
    later call returns the same EOF. *)
Theorem C8_one_eof (H : Host) :
  (forall source,
     match tokenize (Lexer_init source) with
     | Ok (tokens, lx) =>
         exists body eof,
           tokens = (body ++ [eof])%list
           /\ type eof = EOF
           /\ Forall (fun t => type t <> EOF) body
           /\ forall n, next_tokens n lx = Ok (repeat eof n, lx)
     | Raise _ => True
     | OutOfFuel => False
     end)
  /\ (forall lx t lx',
        wf lx -> get_next_token lx = Ok (t, lx') -> type t = EOF ->
        forall n, next_tokens n lx' = Ok (repeat t n, lx')).
Proof.
  split.
  - intros source.
    pose proof (tokenize_ends (Lexer_init source) (Lexer_init_wf source)) as Ht.
    destruct (tokenize (Lexer_init source)) as [[tokens lx]| |]; auto.
    destruct Ht as (Hc & body & Hall & Hbody).
    exists body, (mkToken EOF NoValue (line lx) (column lx)).
    repeat split; auto. intros n. now apply next_tokens_at_end.
  - intros lx t lx' Hwf E Et n.
    pose proof (get_next_token_step lx Hwf) as Hs. rewrite E in Hs.
    destruct Hs as (_ & s & _ & _ & Heof).
    destruct (Heof Et) as [Hc ->]. now apply next_tokens_at_end.
Qed.

Lemma C8_one_eof_witness :
  wf (advance (Lexer_init "x"))
  /\ get_next_token (advance (Lexer_init "x"))
     = Ok (mkToken EOF NoValue 1 2, advance (Lexer_init "x"))
  /\ type (mkToken EOF NoValue 1 2) = EOF
  /\ next_tokens 3 (advance (Lexer_init "x"))
     = Ok (repeat (mkToken EOF NoValue 1 2) 3, advance (Lexer_init "x")).
Proof.
  split; [reflexivity|]. split; [reflexivity|]. split; [reflexivity|].
  destruct (C8_one_eof cpython) as [_ Hlazy].
  exact (Hlazy (advance (Lexer_init "x")) (mkToken EOF NoValue 1 2)
               (advance (Lexer_init "x")) eq_refl eq_refl eq_refl 3).
Defined.

(** ** Texts of white space and comments *)

Lemma blank_span_space (s : string) :
  blank_from false s = true -> blank_from false (snd (span isspace s)) = true.
Proof.
  induction s as [|c s IH]; simpl; auto.
  destruct (isspace c) eqn:E; simpl.
  - intros Hb. specialize (IH Hb). now destruct (span isspace s).
  - rewrite E. auto.
Qed.

Lemma blank_comment (s : string) :
  blank_from true s = true ->
  match snd (span not_newline s) with
  | EmptyString => True
  | String c r => c = newline /\ blank_from false r = true
  end.
Proof.
  induction s as [|c s IH]; simpl; auto.
  unfold not_newline at 1. destruct (Ascii.eqb c newline) eqn:E; simpl.
  - intros Hb. apply Ascii.eqb_eq in E. auto.
  - intros Hb. specialize (IH Hb). now destruct (span not_newline s).
Qed.

Lemma get_next_token_loop_blank `{Host} (fuel : nat) (lx : Lexer) :
  wf lx -> (remaining lx < fuel)%nat -> blank (unread lx) = true ->
  exists lx',
    get_next_token_loop fuel lx
    = Ok (mkToken EOF NoValue (line lx') (column lx'), lx')
    /\ current_char lx' = None
    /\ (unread lx = "" -> lx' = lx).
Proof.
  revert lx. induction fuel as [|fuel IH]; intros lx Hwf Hfuel Hb; [lia|].
  simpl. pose proof (wf_head lx Hwf) as Hh. unfold blank in *.
  destruct (current_char lx) as [ch|] eqn:Ec.
  - destruct (unread lx) as [|c r] eqn:Eu; simpl in Hh; [discriminate|].
    inversion Hh; subst c. clear Hh. simpl in Hb.
    destruct (isspace ch) eqn:Esp.
    + rewrite (skip_whitespace_spec lx Hwf). simpl bind.
      destruct (passed_span isspace lx Hwf) as [Hp Hu].
      set (ws := fst (span isspace (unread lx))) in *.
      assert (Hne : ws <> "").
      { apply span_nonempty with ch; [now rewrite Eu|auto]. }
      pose proof (passed_remaining _ _ _ Hp) as Hr.
      pose proof (length_nonempty ws Hne).
      destruct (IH (advance_n (String.length ws) lx)) as (lx' & E & Hc & _);
        [apply Hp|lia| |].
      * rewrite Hu, Eu. apply (blank_span_space (String ch r)).
        simpl. now rewrite Esp.
      * exists lx'. repeat split; auto. discriminate.
    + apply andb_prop in Hb. destruct Hb as [Hb Hbr].
      apply andb_prop in Hb. destruct Hb as [Hsl Hpk].
      assert (Ecm : Ascii.eqb ch slash && char_is slash (peek lx) = true).
      { rewrite Hsl, peek_unread, Eu. simpl. now destruct r. }
      rewrite Ecm.
      assert (Hcc : char_is slash (current_char lx) && char_is slash (peek lx)
                    = true) by (now rewrite Ec).
      rewrite (skip_comment_spec lx Hwf Hcc). simpl bind.
      destruct (passed_span not_newline lx Hwf) as [Hp Hu].
      set (body := fst (span not_newline (unread lx))) in *.
      set (lx1 := advance_n (String.length body) lx) in *.
      assert (Hne : body <> "").
      { apply span_nonempty with ch; [now rewrite Eu|].
        apply Ascii.eqb_eq in Hsl. now subst ch. }
      pose proof (passed_remaining _ _ _ Hp) as Hr.
      pose proof (length_nonempty body Hne) as Hl.
      assert (Hrest : snd (span not_newline (unread lx))
                      = snd (span not_newline r)).
      { rewrite Eu. simpl. apply Ascii.eqb_eq in Hsl. subst ch. simpl.
        now destruct (span not_newline r). }
      pose proof (blank_comment r Hbr) as Hbc. rewrite <- Hrest, <- Hu in Hbc.
      assert (Hwf1 : wf lx1) by apply Hp.
      pose proof (wf_head lx1 Hwf1) as Hh1.
      destruct (unread lx1) as [|c1 r1] eqn:Eu1; simpl in Hh1.
      * rewrite Hh1. simpl.
        destruct (IH lx1) as (lx' & E & Hc & _); [auto|lia|now rewrite Eu1|].
        exists lx'. repeat split; auto. discriminate.
      * destruct Hbc as [-> Hb1]. rewrite Hh1. simpl.
        assert (Ha : unread (advance lx1) = r1) by (now apply advance_unread with newline).
        destruct (IH (advance lx1)) as (lx' & E & Hc & _);
          [apply advance_wf| |now rewrite Ha|].
        -- rewrite !remaining_unread in *. rewrite Ha. rewrite Eu1 in Hr.
           simpl in Hr. lia.
        -- exists lx'. repeat split; auto. discriminate.
  - exists lx. repeat split; auto.
Qed.

Lemma tokenize_blank `{Host} (lx : Lexer) :
  wf lx -> blank (unread lx) = true ->
  exists lx',
    tokenize lx = Ok ([mkToken EOF NoValue (line lx') (column lx')], lx')
    /\ get_next_token lx
       = Ok (mkToken EOF NoValue (line lx') (column lx'), lx')
    /\ (unread lx = "" -> lx' = lx).
Proof.
  intros Hwf Hb.
  destruct (get_next_token_loop_blank (S (remaining lx)) lx Hwf) as
    (lx' & E & Hc & Hsame); auto.
  exists lx'. unfold tokenize, get_next_token. rewrite E. simpl. auto.
Qed.

(** C10. A source text that is empty, or made of white space and [//]
    comments only, tokenizes to the single token EOF and parses to the
    program with no statement; on the empty text the EOF token stands at
    line 1, column 1. *)
Theorem C10_blank_source (H : Host) (source : string) :
  blank source = true ->
  (exists l c lx,
     tokenize (Lexer_init source) = Ok ([mkToken EOF NoValue l c], lx))
  /\ parse_source source = Ok (ProgramNode [])
  /\ tokenize (Lexer_init "") = Ok ([mkToken EOF NoValue 1 1], Lexer_init "").
Proof.
  intros Hb.
  destruct (tokenize_blank (Lexer_init source) (Lexer_init_wf source) Hb)
    as (lx' & Et & Eg & _).
  split; [eauto|]. split; [|reflexivity].
  unfold parse_source, Parser_init. rewrite Eg. reflexivity.
Qed.

Lemma C10_blank_source_witness :
  blank sample_blank = true
  /\ tokenize (Lexer_init sample_blank)
     = Ok ([mkToken EOF NoValue 3 3],
           advance_n (String.length sample_blank) (Lexer_init sample_blank))
  /\ parse_source sample_blank = Ok (ProgramNode []).
Proof.
  split; [reflexivity|]. split; [reflexivity|].
  exact (proj1 (proj2 (C10_blank_source cpython sample_blank eq_refl))).
Defined.

(** ** Numbers with more than one dot *)

Lemma split_dot_count (s : string) :
  match split_dot s with
  | (ip, Some fp) => count_char dot s = S (count_char dot fp)
  | (ip, None) => count_char dot s = 0%nat
  end.
Proof.
  induction s as [|c s IH]; simpl; auto.
  destruct (Ascii.eqb c dot) eqn:E; auto.
  destruct (split_dot s) as [ip [fp|]]; auto.
Qed.

Lemma decimal_no_dot (s : string) :
  forallb_string isdecimal s = true -> count_char dot s = 0%nat.
Proof.
  induction s as [|c s IH]; simpl; auto.
  intros Hd. apply andb_prop in Hd. destruct Hd as [Hc Hs].
  destruct (Ascii.eqb c dot) eqn:E; auto.
  apply Ascii.eqb_eq in E. subst c. discriminate.
Qed.

(** [float] refuses a text with two dots. *)
Lemma py_float_two_dots (s : string) :
  (2 <= count_char dot s)%nat ->
  py_float s
  = Raise (ValueError ("could not convert string to float: '" ++ s ++ "'")).
Proof.
  intros Hc. unfold py_float. pose proof (split_dot_count s) as Hs.
  destruct (split_dot s) as [ip [fp|]]; [|lia].
  destruct (forallb_string isdecimal fp) eqn:Ef.
  - apply decimal_no_dot in Ef. lia.
  - now rewrite andb_false_r.
Qed.

Lemma contains_count (c : ascii) (s : string) :
  (1 <= count_char c s)%nat -> contains c s = true.
Proof.
  induction s as [|c' s IH]; simpl; [lia|].
  destruct (Ascii.eqb c' c); simpl; auto.
Qed.

Lemma isdigit_not_isspace (c : ascii) : isdigit c = true -> isspace c = false.
Proof.
  destruct c as [[] [] [] [] [] [] [] []]; vm_compute; congruence.
Qed.

Lemma isdigit_not_slash (c : ascii) :
  isdigit c = true -> Ascii.eqb c slash = false.
Proof.
  destruct c as [[] [] [] [] [] [] [] []]; vm_compute; congruence.
Qed.

(** At a digit, [get_next_token] is [number]. *)
Lemma get_next_token_digit `{Host} (lx : Lexer) (c : ascii) :
  current_char lx = Some c -> isdigit c = true ->
  get_next_token lx = number lx.
Proof.
  intros Hc Hd. unfold get_next_token. simpl. rewrite Hc.
  now rewrite (isdigit_not_isspace c Hd), (isdigit_not_slash c Hd), Hd.
Qed.

(** C7, on the code.  The loop of [number] takes digits and dots alike, as
    many as there are.  So whenever the lexer stands at a digit and the run
    of digits and dots ahead holds two dots or more, the run does not stop
    before the second dot: the whole run goes to [float], and the host's
    [ValueError] comes out of [get_next_token].  On the text [1.2.3] the
    run is the whole text and both [get_next_token] and [tokenize] raise.
    A run with no dot, or with one, gives the integer or the float token. *)
Theorem C7_second_dot_raises (H : Host) :
  (forall (lx : Lexer) (c : ascii),
     wf lx -> current_char lx = Some c -> isdigit c = true ->
     (2 <= count_char dot (fst (span digit_or_dot (unread lx))))%nat ->
     get_next_token lx
     = Raise (ValueError ("could not convert string to float: '"
                          ++ fst (span digit_or_dot (unread lx)) ++ "'")))
  /\ fst (span digit_or_dot "1.2.3") = "1.2.3"
  /\ tokenize (Lexer_init "1.2.3")
     = Raise (ValueError "could not convert string to float: '1.2.3'")
  /\ (exists lx, get_next_token (Lexer_init "12")
                 = Ok (mkToken NUMBER (NumValue (PyInt 12)) 1 1, lx))
  /\ (exists f lx, get_next_token (Lexer_init "1.5")
                   = Ok (mkToken NUMBER (NumValue (PyFloat f)) 1 1, lx)
                   /\ py_add (PyFloat f) (PyFloat f) = Ok (PyFloat (exact_float 3))).
Proof.
  split.
  { intros lx c Hwf Hc Hd Hdots.
    rewrite (get_next_token_digit lx c Hc Hd), (number_spec lx Hwf). cbv zeta.
    rewrite contains_count by lia.
    now rewrite py_float_two_dots. }
  split; [reflexivity|]. split; [reflexivity|].
  split.
  - eexists. vm_compute. reflexivity.
  - do 2 eexists. split; vm_compute; reflexivity.
Qed.

Lemma C7_second_dot_raises_witness :
  wf (Lexer_init "1.2.3")
  /\ current_char (Lexer_init "1.2.3") = Some "1"%char
  /\ isdigit "1"%char = true
  /\ (2 <= count_char dot (fst (span digit_or_dot (unread (Lexer_init "1.2.3")))))%nat
  /\ get_next_token (Lexer_init "1.2.3")
     = Raise (ValueError "could not convert string to float: '1.2.3'").
Proof.
  split; [reflexivity|]. split; [reflexivity|]. split; [reflexivity|].
  split; [apply le_n|].
  exact (proj1 (C7_second_dot_raises cpython) (Lexer_init "1.2.3") "1"%char
               eq_refl eq_refl eq_refl (le_n 2)).
Defined.

(** * Properties of the parser *)

(** ** Tokens ahead *)

Lemma eat_shift `{Host} (p : Parser) (token_type : TokenType) :
  type (current_token p) = token_type -> eat p token_type = shift p.
Proof.
  intros E. unfold eat, shift.
  replace (TokenType_eqb (type (current_token p)) token_type) with true;
    [reflexivity|].
  symmetry. now apply TokenType_eqb_eq.
Qed.

Lemma spells_app `{Host} (p p' : Parser) (a b : list spelling) :
  spells p (a ++ b)%list p' ->
  exists p1, spells p a p1 /\ spells p1 b p'.
Proof.
  revert p. induction a as [|k a IH]; intros p Hs; simpl in Hs.
  - exists p. split; [constructor|exact Hs].
  - inversion Hs as [|? p0 ? ? ? Hk Hsh Hrest]; subst.
    destruct (IH p0 Hrest) as (p1 & Ha & Hb).
    exists p1. split; [econstructor; eauto|exact Hb].
Qed.

Lemma spells_eat `{Host} (p p' : Parser) (t : TokenType) (v : tokval)
  (ks : list spelling) :
  spells p ((t, v) :: ks) p' ->
  type (current_token p) = t /\ value (current_token p) = v
  /\ exists p1, eat p t = Ok p1 /\ spells p1 ks p'.
Proof.
  intros Hs. inversion Hs as [|? p0 ? ? ? Hk Hsh Hrest]; subst.
  unfold spelled in Hk. inversion Hk as [[Ht Hv]].
  repeat split; auto. exists p0. split; [|exact Hrest].
  now rewrite eat_shift.
Qed.

Lemma spells_one `{Host} (p p' : Parser) (t : TokenType) (v : tokval) :
  spells p [(t, v)] p' ->
  type (current_token p) = t /\ value (current_token p) = v
  /\ eat p t = Ok p'.
Proof.
  intros Hs. destruct (spells_eat _ _ _ _ _ Hs) as (Ht & Hv & p1 & He & Hn).
  inversion Hn; subst. auto.
Qed.

(** ** The shape of the unparsed text *)

Lemma unparse_paren (l r : ExprNode) (op : string) :
  unparse 2 (BinOpNode l op r)
  = ((LPAREN, StrValue "(") :: unparse 0 (BinOpNode l op r)
       ++ [(RPAREN, StrValue ")")])%list.
Proof. simpl. now destruct (additive op). Qed.

Lemma unparse_sum_1 (e : ExprNode) :
  is_sum e = true -> unparse 1 e = unparse 2 e.
Proof. destruct e as [v|x|l op r]; simpl; auto. now intros ->. Qed.

Lemma unparse_leaf (e : ExprNode) (lvl : nat) :
  is_leaf e = true -> unparse lvl e = unparse 2 e.
Proof. destruct e; simpl; auto; discriminate. Qed.

Lemma unparse_product_0 (e : ExprNode) :
  is_sum e = false -> unparse 0 e = unparse 1 e.
Proof. destruct e as [v|x|l op r]; simpl; auto. now intros ->. Qed.

Lemma mspine_size (e : ExprNode) : (mspine e < size e)%nat.
Proof.
  induction e as [v|x|l IHl op r IHr]; simpl; try lia.
  destruct (additive op); lia.
Qed.

Lemma aspine_size (e : ExprNode) : (aspine e < size e)%nat.
Proof.
  induction e as [v|x|l IHl op r IHr]; simpl; try lia.
  destruct (additive op); lia.
Qed.

Lemma size_pos (e : ExprNode) : (1 <= size e)%nat.
Proof. destruct e; simpl; lia. Qed.

Lemma operator_token_additive (op : string) :
  additive op = true ->
  is_additive (fst (operator_token op)) = true.
Proof.
  unfold additive, operator_token. simpl.
  destruct (String.eqb op "+"); [reflexivity|].
  destruct (String.eqb op "-"); [reflexivity|discriminate].
Qed.

Lemma operator_token_multiplicative (op : string) :
  additive op = false -> multiplicative op = true ->
  is_multiplicative (fst (operator_token op)) = true.
Proof.
  unfold additive, multiplicative, operator_token. simpl.
  destruct (String.eqb op "+"); [discriminate|].
  destruct (String.eqb op "-"); [discriminate|].
  destruct (String.eqb op "*"); [reflexivity|].
  destruct (String.eqb op "/"); [reflexivity|discriminate].
Qed.

(** ** The loops at their last round *)

Lemma term_loop_stop `{Host} (factor : parsing ExprNode) (k : nat)
  (node : ExprNode) (p : Parser) :
  is_multiplicative (type (current_token p)) = false ->
  term_loop factor (S k) node p = Ok (node, p).
Proof. simpl. now destruct (type (current_token p)). Qed.

Lemma expr_loop_stop `{Host} (term : parsing ExprNode) (k : nat)
  (node : ExprNode) (p : Parser) :
  is_additive (type (current_token p)) = false ->
  expr_loop term (S k) node p = Ok (node, p).
Proof. simpl. now destruct (type (current_token p)). Qed.

Lemma term_loop_round `{Host} (factor : parsing ExprNode) (k : nat)
  (node right_node : ExprNode) (p p1 p2 : Parser) :
  is_multiplicative (type (current_token p)) = true ->
  shift p = Ok p1 ->
  factor p1 = Ok (right_node, p2) ->
  term_loop factor (S k) node p
  = term_loop factor k
      (BinOpNode node (token_text (current_token p)) right_node) p2.
Proof.
  intros Ht Hs Hf. simpl.
  destruct (type (current_token p)) eqn:E; try discriminate;
    rewrite (eat_shift p _ E), Hs; simpl; rewrite Hf; reflexivity.
Qed.

Lemma expr_loop_round `{Host} (term : parsing ExprNode) (k : nat)
  (node right_node : ExprNode) (p p1 p2 : Parser) :
  is_additive (type (current_token p)) = true ->
  shift p = Ok p1 ->
  term p1 = Ok (right_node, p2) ->
  expr_loop term (S k) node p
  = expr_loop term k
      (BinOpNode node (token_text (current_token p)) right_node) p2.
Proof.
  intros Ht Hs Hf. simpl.
  destruct (type (current_token p)) eqn:E; try discriminate;
    rewrite (eat_shift p _ E), Hs; simpl; rewrite Hf; reflexivity.
Qed.

Lemma spells_shift `{Host} (p p' : Parser) (t : TokenType) (v : tokval)
  (ks : list spelling) :
  spells p ((t, v) :: ks) p' ->
  type (current_token p) = t /\ value (current_token p) = v
  /\ exists p1, shift p = Ok p1 /\ spells p1 ks p'.
Proof.
  intros Hs. inversion Hs as [|? p0 ? ? ? Hk Hsh Hrest]; subst.
  unfold spelled in Hk. inversion Hk as [[Ht Hv]].
  repeat split; auto. exists p0. auto.
Qed.

Lemma additive_not_multiplicative (t : TokenType) :
  is_additive t = true -> is_multiplicative t = false.
Proof. now destruct t. Qed.

(** ** One level of parentheses *)

(** If [expr] with the fuel [n] reads back every expression of fewer than
    [n] nodes, then the methods built on it read back their part of an
    expression of up to [n] nodes. *)
Section ExprStep.
Context `{Host}.
Variable n : nat.
Hypothesis expr_n :
  forall e p p',
    known_ops e = true -> (size e < n)%nat ->
    spells p (unparse 0 e) p' ->
    is_additive (type (current_token p')) = false ->
    is_multiplicative (type (current_token p')) = false ->
    expr n p = Ok (e, p').

Lemma factor_unparse (e : ExprNode) (p p' : Parser) :
  known_ops e = true ->
  (is_leaf e = false -> (size e < n)%nat) ->
  spells p (unparse 2 e) p' ->
  factor_with (expr n) p = Ok (e, p').
Proof.
  intros Hk Hsz Hs. destruct e as [v|x|l op r].
  - simpl in Hs. destruct (spells_one _ _ _ _ Hs) as (Ht & Hv & He).
    unfold factor_with. rewrite Ht, He. simpl.
    unfold token_number. now rewrite Hv.
  - simpl in Hs. destruct (spells_one _ _ _ _ Hs) as (Ht & Hv & He).
    unfold factor_with. rewrite Ht, He. simpl.
    unfold token_text. now rewrite Hv.
  - rewrite unparse_paren in Hs.
    destruct (spells_eat _ _ _ _ _ Hs) as (Ht & Hv & p1 & He & Hrest).
    destruct (spells_app _ _ _ _ Hrest) as (p2 & Hbody & Hclose).
    destruct (spells_one _ _ _ _ Hclose) as (Ht2 & Hv2 & He2).
    unfold factor_with. rewrite Ht, He. simpl.
    rewrite (expr_n _ _ _ Hk (Hsz eq_refl) Hbody)
      by (rewrite Ht2; reflexivity).
    simpl. now rewrite He2.
Qed.

Lemma term_unparse (e : ExprNode) :
  forall (p p' : Parser) (k : nat),
    known_ops e = true ->
    (size e + (if is_sum e then 1 else 0) <= n)%nat ->
    spells p (unparse 1 e) p' ->
    term_with (factor_with (expr n)) (mspine e + k) p
    = term_loop (factor_with (expr n)) k e p'.
Proof.
  induction e as [v|x|l IHl op r _]; intros p p' k Hk Hsz Hs.
  - unfold term_with. rewrite (factor_unparse (NumberNode v) p p'); auto.
    discriminate.
  - unfold term_with. rewrite (factor_unparse (VarNode x) p p'); auto.
    discriminate.
  - pose proof Hk as Hk0. simpl in Hk.
    apply andb_prop in Hk. destruct Hk as [Hk Hkr].
    apply andb_prop in Hk. destruct Hk as [Hop Hkl].
    destruct (additive op) eqn:Ea.
    + rewrite unparse_sum_1 in Hs by (simpl; exact Ea).
      simpl mspine. rewrite Ea. unfold term_with.
      rewrite (factor_unparse (BinOpNode l op r) p p'); auto.
      intros _. simpl in Hsz. rewrite Ea in Hsz. simpl. lia.
    + simpl in Hs. rewrite Ea in Hs. simpl in Hs.
      destruct (spells_app _ _ _ _ Hs) as (p1 & Hl & Hrest).
      unfold operator_token in Hrest.
      destruct (spells_shift _ _ _ _ _ Hrest) as (Ht & Hv & p2 & Hsh & Hr).
      simpl mspine. rewrite Ea.
      replace (S (mspine l) + k)%nat with (mspine l + S k)%nat by lia.
      simpl in Hsz. rewrite Ea in Hsz.
      rewrite (IHl p p1 (S k) Hkl); auto.
      * rewrite (term_loop_round _ k l r p1 p2 p').
        -- unfold token_text. now rewrite Hv.
        -- rewrite Ht. simpl in Hop.
           now apply (operator_token_multiplicative op).
        -- exact Hsh.
        -- apply factor_unparse; auto. intros _. lia.
      * destruct (is_sum l); lia.
Qed.

Lemma term_parse (e : ExprNode) (p p' : Parser) (m : nat) :
  known_ops e = true ->
  (size e + (if is_sum e then 1 else 0) <= n)%nat ->
  (mspine e < m)%nat ->
  spells p (unparse 1 e) p' ->
  is_multiplicative (type (current_token p')) = false ->
  term_with (factor_with (expr n)) m p = Ok (e, p').
Proof.
  intros Hk Hsz Hm Hs Hstop.
  replace m with (mspine e + S (m - mspine e - 1))%nat by lia.
  rewrite (term_unparse e p p' _ Hk Hsz Hs).
  now apply term_loop_stop.
Qed.

Lemma expr_unparse (e : ExprNode) :
  forall (p p' : Parser) (k : nat),
    known_ops e = true ->
    (size e <= n)%nat ->
    spells p (unparse 0 e) p' ->
    is_multiplicative (type (current_token p')) = false ->
    ('(node, p1) <- term_with (factor_with (expr n)) n p ;;
     expr_loop (term_with (factor_with (expr n)) n) (aspine e + k) node p1)
    = expr_loop (term_with (factor_with (expr n)) n) k e p'.
Proof.
  induction e as [v|x|l IHl op r _]; intros p p' k Hk Hsz Hs Hstop.
  - rewrite (term_parse (NumberNode v) p p' n); simpl; auto; simpl in *; lia.
  - rewrite (term_parse (VarNode x) p p' n); simpl; auto; simpl in *; lia.
  - pose proof Hk as Hk0. simpl in Hk.
    apply andb_prop in Hk. destruct Hk as [Hk Hkr].
    apply andb_prop in Hk. destruct Hk as [Hop Hkl].
    pose proof (mspine_size r) as Hmr.
    destruct (additive op) eqn:Ea.
    + simpl in Hs. rewrite Ea in Hs. simpl in Hs.
      destruct (spells_app _ _ _ _ Hs) as (p1 & Hl & Hrest).
      unfold operator_token in Hrest.
      destruct (spells_shift _ _ _ _ _ Hrest) as (Ht & Hv & p2 & Hsh & Hr).
      assert (Hadd : is_additive (type (current_token p1)) = true).
      { rewrite Ht. now apply (operator_token_additive op). }
      simpl aspine. rewrite Ea. simpl in Hsz.
      replace (S (aspine l) + k)%nat with (aspine l + S k)%nat by lia.
      rewrite (IHl p p1 (S k) Hkl); auto.
      * rewrite (expr_loop_round _ k l r p1 p2 p'); auto.
        -- unfold token_text. now rewrite Hv.
        -- apply term_parse; auto; try lia. destruct (is_sum r); lia.
      * lia.
      * now apply additive_not_multiplicative.
    + rewrite unparse_product_0 in Hs by (simpl; exact Ea).
      simpl aspine. rewrite Ea.
      rewrite (term_parse (BinOpNode l op r) p p' n); auto.
      * simpl is_sum. rewrite Ea. lia.
      * pose proof (mspine_size (BinOpNode l op r)). lia.
Qed.

Lemma expr_step (e : ExprNode) (p p' : Parser) :
  known_ops e = true ->
  (size e <= n)%nat ->
  spells p (unparse 0 e) p' ->
  is_additive (type (current_token p')) = false ->
  is_multiplicative (type (current_token p')) = false ->
  expr (S n) p = Ok (e, p').
Proof.
  intros Hk Hsz Hs Ha Hm.
  pose proof (aspine_size e) as Has.
  pose proof (expr_unparse e p p' (S (n - aspine e - 1)) Hk Hsz Hs Hm) as E.
  replace (aspine e + S (n - aspine e - 1))%nat with n in E by lia.
  change (expr (S n) p)
    with ('(node, p1) <- term_with (factor_with (expr n)) n p ;;
          expr_loop (term_with (factor_with (expr n)) n) n node p1).
  rewrite E. now apply expr_loop_stop.
Qed.

End ExprStep.

(** ** Reading back an expression *)

(** With more fuel than the expression has nodes, [expr] reads the tokens
    of the expression back into the expression, and stops at the token
    that follows them when it is no operator. *)
Lemma expr_unparse_fuel `{Host} (fuel : nat) :
  forall (e : ExprNode) (p p' : Parser),
    known_ops e = true -> (size e < fuel)%nat ->
    spells p (unparse 0 e) p' ->
    is_additive (type (current_token p')) = false ->
    is_multiplicative (type (current_token p')) = false ->
    expr fuel p = Ok (e, p').
Proof.
  induction fuel as [|n IH]; intros e p p' Hk Hsz Hs Ha Hm; [lia|].
  apply expr_step; auto. lia.
Qed.

(** * The parser ends on every source *)

Lemma shift_eats `{Host} (p : Parser) :
  wf (lexer p) -> type (current_token p) <> EOF -> eats p (shift p).
Proof.
  intros Hwf Hne. unfold shift.
  pose proof (get_next_token_step (lexer p) Hwf) as Hs.
  destruct (get_next_token (lexer p)) as [[t lx']| |]; simpl in *; auto.
  destruct Hs as (_ & s & Hp & Hnes & _).
  split; [apply Hp|]. unfold tokens_bound. simpl.
  pose proof (passed_remaining _ _ _ Hp) as Hr.
  apply TokenType_eqb_neq in Hne. rewrite Hne.
  destruct (TokenType_eqb (type t) EOF) eqn:Et; [lia|].
  apply TokenType_eqb_neq in Et.
  pose proof (length_nonempty s (Hnes Et)). lia.
Qed.

Lemma eat_eats `{Host} (p : Parser) (token_type : TokenType) :
  wf (lexer p) -> token_type <> EOF -> eats p (eat p token_type).
Proof.
  intros Hwf Hne. unfold eat.
  destruct (TokenType_eqb (type (current_token p)) token_type) eqn:E.
  - apply TokenType_eqb_eq in E. apply shift_eats; congruence.
  - exact I.
Qed.

(** One [eat] in a sequence: the rest of the method runs from a parser with
    a smaller bound. *)
Lemma eat_then `{Host} {A : Type} (p : Parser) (token_type : TokenType)
  (k : Parser -> result (A * Parser)) (eaten : nat) :
  wf (lexer p) -> token_type <> EOF ->
  (forall p1, wf (lexer p1) -> (tokens_bound p1 < tokens_bound p)%nat ->
              ends eaten p1 (k p1)) ->
  ends (S eaten) p (p1 <- eat p token_type ;; k p1).
Proof.
  intros Hwf Hne Hk. pose proof (eat_eats p token_type Hwf Hne) as He.
  destruct (eat p token_type) as [p1| |]; simpl in *; auto.
  destruct He as [Hwf1 Hb]. specialize (Hk p1 Hwf1 Hb).
  destruct (k p1) as [[a p2]| |]; simpl in *; auto.
  split; [apply Hk|]. lia.
Qed.

Lemma ends_then `{Host} {A B : Type} (p : Parser) (m : result (A * Parser))
  (k : A * Parser -> result (B * Parser)) (e1 e2 : nat) :
  ends e1 p m ->
  (forall a p1, wf (lexer p1) -> (tokens_bound p1 + e1 <= tokens_bound p)%nat ->
                ends e2 p1 (k (a, p1))) ->
  ends (e1 + e2) p (bind m k).
Proof.
  intros Hm Hk. destruct m as [[a p1]| |]; simpl in *; auto.
  destruct Hm as [Hwf1 Hb]. specialize (Hk a p1 Hwf1 Hb).
  destruct (k (a, p1)) as [[b p2]| |]; simpl in *; auto.
  split; [apply Hk|]. lia.
Qed.

Lemma ends_weaken {A : Type} (e e' : nat) (p : Parser)
  (r : result (A * Parser)) :
  (e' <= e)%nat -> ends e p r -> ends e' p r.
Proof.
  intros Hle. destruct r as [[a p']| |]; simpl; auto.
  intros [Hwf Hb]. split; [exact Hwf|lia].
Qed.

Lemma ends_return {A : Type} (p : Parser) (a : A) :
  wf (lexer p) -> ends 0 p (Ok (a, p)).
Proof. intros Hwf. simpl. split; [exact Hwf|lia]. Qed.

(** The goal after a successful [eat], and after a method that eats. *)
Ltac after_eat p t :=
  apply ends_weaken with 1%nat;
  [lia|apply (eat_then p t _ 0); auto; [discriminate|]].

Ltac after_method :=
  apply ends_weaken with (1 + 0)%nat; [lia|apply ends_then].

Section Ends.
Context `{Host}.
Variable n : nat.
Variable inner : parsing ExprNode.
Hypothesis inner_ends :
  forall p, wf (lexer p) -> (tokens_bound p < n)%nat -> ends 1 p (inner p).

Lemma factor_with_ends (p : Parser) :
  wf (lexer p) -> (tokens_bound p <= n)%nat ->
  ends 1 p (factor_with inner p).
Proof.
  intros Hwf Hb. unfold factor_with.
  destruct (type (current_token p)); try exact I.
  - after_eat p NUMBER.
    intros p1 Hwf1 _. now apply ends_return.
  - after_eat p ID.
    intros p1 Hwf1 _. now apply ends_return.
  - after_eat p LPAREN.
    intros p1 Hwf1 Hb1.
    after_method; [apply inner_ends; auto; lia|].
    intros node p2 Hwf2 Hb2.
    after_eat p2 RPAREN.
    intros p3 Hwf3 _. now apply ends_return.
Qed.

Lemma term_loop_ends (k : nat) :
  forall (node : ExprNode) (p : Parser),
    wf (lexer p) -> (tokens_bound p < k)%nat -> (tokens_bound p <= n)%nat ->
    ends 0 p (term_loop (factor_with inner) k node p).
Proof.
  induction k as [|k IH]; intros node p Hwf Hk Hn; [lia|].
  simpl. destruct (type (current_token p)); try (now apply ends_return).
  - after_eat p MUL.
    intros p1 Hwf1 Hb1.
    after_method; [apply factor_with_ends; auto; lia|].
    intros right_node p2 Hwf2 Hb2. apply IH; auto; lia.
  - after_eat p DIV.
    intros p1 Hwf1 Hb1.
    after_method; [apply factor_with_ends; auto; lia|].
    intros right_node p2 Hwf2 Hb2. apply IH; auto; lia.
Qed.

Lemma term_with_ends (k : nat) (p : Parser) :
  wf (lexer p) -> (tokens_bound p <= k)%nat -> (tokens_bound p <= n)%nat ->
  ends 1 p (term_with (factor_with inner) k p).
Proof.
  intros Hwf Hk Hn. unfold term_with.
  after_method; [now apply factor_with_ends|].
  intros node p1 Hwf1 Hb1. apply term_loop_ends; auto; lia.
Qed.

Lemma expr_loop_ends (k : nat) :
  forall (node : ExprNode) (p : Parser),
    wf (lexer p) -> (tokens_bound p < k)%nat -> (tokens_bound p <= n)%nat ->
    ends 0 p (expr_loop (term_with (factor_with inner) n) k node p).
Proof.
  induction k as [|k IH]; intros node p Hwf Hk Hn; [lia|].
  simpl. destruct (type (current_token p)); try (now apply ends_return).
  - after_eat p PLUS.
    intros p1 Hwf1 Hb1.
    after_method; [apply term_with_ends; auto; lia|].
    intros right_node p2 Hwf2 Hb2. apply IH; auto; lia.
  - after_eat p MINUS.
    intros p1 Hwf1 Hb1.
    after_method; [apply term_with_ends; auto; lia|].
    intros right_node p2 Hwf2 Hb2. apply IH; auto; lia.
Qed.

End Ends.

(** [expr] ends when its fuel is beyond the bound on the tokens ahead. *)
Lemma expr_ends `{Host} (fuel : nat) :
  forall p, wf (lexer p) -> (tokens_bound p < fuel)%nat ->
            ends 1 p (expr fuel p).
Proof.
  induction fuel as [|n IH]; intros p Hwf Hb; [lia|].
  change (expr (S n) p)
    with ('(node, p1) <- term_with (factor_with (expr n)) n p ;;
          expr_loop (term_with (factor_with (expr n)) n) n node p1).
  apply (ends_then p _ _ 1 0).
  - apply (term_with_ends n (expr n) IH); auto; lia.
  - intros node p1 Hwf1 Hb1.
    apply (expr_loop_ends n (expr n) IH); auto; lia.
Qed.

Lemma statement_ends `{Host} (fuel : nat) (p : Parser) :
  wf (lexer p) -> (tokens_bound p <= fuel)%nat ->
  ends 1 p (statement fuel p).
Proof.
  intros Hwf Hb. unfold statement.
  destruct (type (current_token p)); try exact I.
  - unfold assignment.
    after_eat p LET. intros p1 Hwf1 Hb1.
    after_eat p1 ID. intros p2 Hwf2 Hb2.
    after_eat p2 ASSIGN. intros p3 Hwf3 Hb3.
    after_method; [apply expr_ends; auto; lia|].
    intros node p4 Hwf4 Hb4.
    after_eat p4 SEMI. intros p5 Hwf5 Hb5.
    now apply ends_return.
  - unfold print_stmt.
    after_eat p PRINT. intros p1 Hwf1 Hb1.
    after_eat p1 LPAREN. intros p2 Hwf2 Hb2.
    after_method; [apply expr_ends; auto; lia|].
    intros node p3 Hwf3 Hb3.
    after_eat p3 RPAREN. intros p4 Hwf4 Hb4.
    after_eat p4 SEMI. intros p5 Hwf5 Hb5.
    now apply ends_return.
Qed.

Lemma program_loop_ends `{Host} (fuel : nat) :
  forall (statements : list StmtNode) (p : Parser),
    wf (lexer p) -> (tokens_bound p < fuel)%nat ->
    ends 0 p (program_loop fuel statements p).
Proof.
  induction fuel as [|fuel IH]; intros statements p Hwf Hb; [lia|].
  simpl. destruct (negb (TokenType_eqb (type (current_token p)) EOF)).
  - after_method; [apply statement_ends; auto; lia|].
    intros s p1 Hwf1 Hb1. apply IH; auto; lia.
  - now apply ends_return.
Qed.

(** Parsing ends on every source text, with a program or with an error of
    the lexer or of the parser: the fuel of the model never runs out. *)
Lemma parse_ends `{Host} (p : Parser) :
  wf (lexer p) -> ends 0 p (parse p).
Proof.
  intros Hwf. unfold parse, program. apply program_loop_ends; auto.
  unfold tokens_bound.
  destruct (TokenType_eqb (type (current_token p)) EOF); lia.
Qed.

Lemma parse_source_ends `{Host} (source : string) :
  parse_source source <> OutOfFuel.
Proof.
  unfold parse_source, Parser_init.
  pose proof (get_next_token_step (Lexer_init source) (Lexer_init_wf source))
    as Hs.
  destruct (get_next_token (Lexer_init source)) as [[t lx]| |];
    [|discriminate|contradiction].
  destruct Hs as (_ & s & Hp & _).
  cbn [bind].
  pose proof (parse_ends {| lexer := lx; current_token := t |}) as He.
  destruct (parse {| lexer := lx; current_token := t |}) as [[ast p]| |];
    cbn [bind]; try discriminate.
  intros _. apply He. apply Hp.
Qed.

(** * More fuel changes no result *)

Lemma bind_fuel {A B : Type} (m : result A) (k : A -> result B) :
  bind m k <> OutOfFuel ->
  m <> OutOfFuel /\ forall a, m = Ok a -> k a <> OutOfFuel.
Proof.
  destruct m as [a| |]; simpl; intros Hn.
  - split; [discriminate|]. intros a' E. inversion E; subst. exact Hn.
  - split; discriminate.
  - contradiction.
Qed.

Lemma extends_refl {A : Type} (g : parsing A) : extends g g.
Proof. now intros p _. Qed.

Lemma factor_with_extends `{Host} (inner inner' : parsing ExprNode) :
  extends inner inner' -> extends (factor_with inner) (factor_with inner').
Proof.
  intros Hext p. unfold factor_with.
  destruct (type (current_token p)); auto.
  destruct (eat p LPAREN) as [p1| |]; simpl; auto.
  intros Hn. apply bind_fuel in Hn. destruct Hn as [Hn _].
  now rewrite (Hext p1 Hn).
Qed.

Lemma term_loop_extends `{Host} (f f' : parsing ExprNode) (k : nat) :
  extends f f' ->
  forall (k' : nat) (node : ExprNode) (p : Parser),
    (k <= k')%nat ->
    term_loop f k node p <> OutOfFuel ->
    term_loop f' k' node p = term_loop f k node p.
Proof.
  intros Hext. induction k as [|k IH]; intros k' node p Hk Hn;
    [now elim Hn|].
  destruct k' as [|k']; [lia|]. simpl in *.
  destruct (type (current_token p)); auto.
  - destruct (eat p MUL) as [p1| |]; simpl in *; auto.
    apply bind_fuel in Hn. destruct Hn as [Hf Hn].
    rewrite (Hext p1 Hf). destruct (f p1) as [[r p2]| |]; simpl; auto.
    apply IH; [lia|]. now apply (Hn (r, p2)).
  - destruct (eat p DIV) as [p1| |]; simpl in *; auto.
    apply bind_fuel in Hn. destruct Hn as [Hf Hn].
    rewrite (Hext p1 Hf). destruct (f p1) as [[r p2]| |]; simpl; auto.
    apply IH; [lia|]. now apply (Hn (r, p2)).
Qed.

Lemma term_with_extends `{Host} (f f' : parsing ExprNode) (k k' : nat) :
  extends f f' -> (k <= k')%nat ->
  extends (term_with f k) (term_with f' k').
Proof.
  intros Hext Hk p Hn. unfold term_with in *.
  apply bind_fuel in Hn. destruct Hn as [Hf Hn].
  rewrite (Hext p Hf). destruct (f p) as [[node p1]| |]; simpl; auto.
  apply term_loop_extends; auto. now apply (Hn (node, p1)).
Qed.

Lemma expr_loop_extends `{Host} (t t' : parsing ExprNode) (k : nat) :
  extends t t' ->
  forall (k' : nat) (node : ExprNode) (p : Parser),
    (k <= k')%nat ->
    expr_loop t k node p <> OutOfFuel ->
    expr_loop t' k' node p = expr_loop t k node p.
Proof.
  intros Hext. induction k as [|k IH]; intros k' node p Hk Hn;
    [now elim Hn|].
  destruct k' as [|k']; [lia|]. simpl in *.
  destruct (type (current_token p)); auto.
  - destruct (eat p PLUS) as [p1| |]; simpl in *; auto.
    apply bind_fuel in Hn. destruct Hn as [Hf Hn].
    rewrite (Hext p1 Hf). destruct (t p1) as [[r p2]| |]; simpl; auto.
    apply IH; [lia|]. now apply (Hn (r, p2)).
  - destruct (eat p MINUS) as [p1| |]; simpl in *; auto.
    apply bind_fuel in Hn. destruct Hn as [Hf Hn].
    rewrite (Hext p1 Hf). destruct (t p1) as [[r p2]| |]; simpl; auto.
    apply IH; [lia|]. now apply (Hn (r, p2)).
Qed.

(** [expr] with more fuel extends [expr] with less. *)
Lemma expr_extends `{Host} (n : nat) :
  forall m, (n <= m)%nat -> extends (expr n) (expr m).
Proof.
  induction n as [|n IH]; intros m Hm p Hn; [now elim Hn|].
  destruct m as [|m]; [lia|].
  change (expr (S n) p)
    with ('(node, p1) <- term_with (factor_with (expr n)) n p ;;
          expr_loop (term_with (factor_with (expr n)) n) n node p1) in *.
  change (expr (S m) p)
    with ('(node, p1) <- term_with (factor_with (expr m)) m p ;;
          expr_loop (term_with (factor_with (expr m)) m) m node p1).
  assert (Ht : extends (term_with (factor_with (expr n)) n)
                       (term_with (factor_with (expr m)) m)).
  { apply term_with_extends; [|lia].
    apply factor_with_extends. apply IH. lia. }
  apply bind_fuel in Hn. destruct Hn as [Hf Hn].
  rewrite (Ht p Hf).
  destruct (term_with (factor_with (expr n)) n p) as [[node p1]| |];
    simpl; auto.
  apply expr_loop_extends; auto; [lia|]. now apply (Hn (node, p1)).
Qed.

(** ** Reading back with the fuel of [parse] *)

Lemma expr_unparse_bound `{Host} (fuel : nat) (e : ExprNode) (p p' : Parser) :
  wf (lexer p) -> (tokens_bound p < fuel)%nat ->
  known_ops e = true ->
  spells p (unparse 0 e) p' ->
  is_additive (type (current_token p')) = false ->
  is_multiplicative (type (current_token p')) = false ->
  expr fuel p = Ok (e, p').
Proof.
  intros Hwf Hb Hk Hs Ha Hm.
  pose proof (expr_unparse_fuel (S (size e)) e p p' Hk (le_n _) Hs Ha Hm) as E.
  pose proof (expr_ends fuel p Hwf Hb) as He.
  destruct (Nat.le_ge_cases (S (size e)) fuel) as [Hle|Hle].
  - rewrite (expr_extends _ _ Hle p); [exact E|]. rewrite E. discriminate.
  - rewrite <- (expr_extends _ _ Hle p); [exact E|].
    intros Ef. rewrite Ef in He. exact He.
Qed.

Lemma spells_bound `{Host} (ks : list spelling) :
  forall p p',
    wf (lexer p) -> spells p ks p' ->
    Forall (fun k => fst k <> EOF) ks ->
    wf (lexer p') /\ (tokens_bound p' + List.length ks <= tokens_bound p)%nat.
Proof.
  induction ks as [|k ks IH]; intros p p' Hwf Hs Hall.
  - inversion Hs; subst. split; [exact Hwf|simpl; lia].
  - inversion Hs as [|? p1 ? ? ? Hk Hsh Hrest]; subst.
    inversion Hall as [|? ? Hk1 Hall1]; subst.
    pose proof (shift_eats p Hwf) as He. rewrite Hsh in He.
    destruct He as [Hwf1 Hb1]; [exact Hk1|].
    destruct (IH p1 p' Hwf1 Hrest Hall1) as [Hwf' Hb'].
    split; [exact Hwf'|simpl; lia].
Qed.

Lemma operator_token_not_EOF (op : string) : fst (operator_token op) <> EOF.
Proof.
  unfold operator_token. simpl.
  repeat match goal with
         | |- context [if ?b then _ else _] => destruct b
         end; discriminate.
Qed.

Lemma unparse_not_EOF (e : ExprNode) :
  forall lvl, Forall (fun k => fst k <> EOF) (unparse lvl e).
Proof.
  induction e as [v|x|l IHl op r IHr]; intros lvl; simpl.
  - repeat constructor. discriminate.
  - repeat constructor. discriminate.
  - assert (Hbody : Forall (fun k => fst k <> EOF)
                      (if additive op
                       then (unparse 0 l ++ operator_token op :: unparse 1 r)%list
                       else (unparse 1 l ++ operator_token op :: unparse 2 r)%list)).
    { destruct (additive op); apply Forall_app; split; auto;
        constructor; auto; apply operator_token_not_EOF. }
    destruct ((if additive op then 0 else 1) <? lvl)%nat; [|exact Hbody].
    constructor; [discriminate|].
    apply Forall_app. split; [exact Hbody|].
    repeat constructor. discriminate.
Qed.

Lemma eat_Ok `{Host} (p p1 : Parser) (token_type : TokenType) :
  wf (lexer p) -> token_type <> EOF -> eat p token_type = Ok p1 ->
  wf (lexer p1) /\ (tokens_bound p1 < tokens_bound p)%nat.
Proof.
  intros Hwf Hne E. pose proof (eat_eats p token_type Hwf Hne) as He.
  now rewrite E in He.
Qed.

(** A statement is read back from its tokens. *)
Lemma statement_unparse `{Host} (fuel : nat) (s : StmtNode) (p p' : Parser) :
  wf (lexer p) -> (tokens_bound p <= fuel)%nat ->
  known_ops_statement s = true ->
  spells p (unparse_statement s) p' ->
  statement fuel p = Ok (s, p').
Proof.
  intros Hwf Hb Hk Hs. destruct s as [var e|e]; simpl in Hs, Hk.
  - destruct (spells_eat _ _ _ _ _ Hs) as (Ht & _ & p1 & E1 & Hs1).
    destruct (spells_eat _ _ _ _ _ Hs1) as (_ & Hv & p2 & E2 & Hs2).
    destruct (spells_eat _ _ _ _ _ Hs2) as (_ & _ & p3 & E3 & Hs3).
    destruct (spells_app _ _ _ _ Hs3) as (p4 & Hse & Hsemi).
    destruct (spells_one _ _ _ _ Hsemi) as (Ht4 & _ & E4).
    destruct (eat_Ok p p1 LET Hwf ltac:(discriminate) E1) as [Hwf1 Hb1].
    destruct (eat_Ok p1 p2 ID Hwf1 ltac:(discriminate) E2) as [Hwf2 Hb2].
    destruct (eat_Ok p2 p3 ASSIGN Hwf2 ltac:(discriminate) E3) as [Hwf3 Hb3].
    unfold statement. rewrite Ht. unfold assignment.
    rewrite E1. cbn [bind]. rewrite E2. cbn [bind]. rewrite E3. cbn [bind].
    rewrite (expr_unparse_bound fuel e p3 p4); auto;
      [|lia|now rewrite Ht4|now rewrite Ht4].
    cbn [bind]. rewrite E4. cbn [bind].
    unfold token_text. now rewrite Hv.
  - destruct (spells_eat _ _ _ _ _ Hs) as (Ht & _ & p1 & E1 & Hs1).
    destruct (spells_eat _ _ _ _ _ Hs1) as (_ & _ & p2 & E2 & Hs2).
    destruct (spells_app _ _ _ _ Hs2) as (p3 & Hse & Hclose).
    destruct (spells_eat _ _ _ _ _ Hclose) as (Ht3 & _ & p4 & E3 & Hsemi).
    destruct (spells_one _ _ _ _ Hsemi) as (_ & _ & E4).
    destruct (eat_Ok p p1 PRINT Hwf ltac:(discriminate) E1) as [Hwf1 Hb1].
    destruct (eat_Ok p1 p2 LPAREN Hwf1 ltac:(discriminate) E2) as [Hwf2 Hb2].
    unfold statement. rewrite Ht. unfold print_stmt.
    rewrite E1. cbn [bind]. rewrite E2. cbn [bind].
    rewrite (expr_unparse_bound fuel e p2 p3); auto;
      [|lia|now rewrite Ht3|now rewrite Ht3].
    cbn [bind]. rewrite E3. cbn [bind]. rewrite E4. reflexivity.
Qed.

Lemma unparse_statement_head (s : StmtNode) :
  exists k ks, unparse_statement s = k :: ks /\ fst k <> EOF.
Proof.
  destruct s; simpl; do 2 eexists; (split; [reflexivity|discriminate]).
Qed.

Lemma program_loop_unparse `{Host} (statements : list StmtNode) :
  forall (fuel : nat) (done : list StmtNode) (p p' : Parser),
    wf (lexer p) -> (tokens_bound p < fuel)%nat ->
    forallb known_ops_statement statements = true ->
    spells p (unparse_statements statements) p' ->
    type (current_token p') = EOF ->
    program_loop fuel done p = Ok (ProgramNode (done ++ statements), p').
Proof.
  induction statements as [|s rest IH];
    intros fuel done p p' Hwf Hb Hk Hs Heof;
    (destruct fuel as [|fuel]; [lia|]); simpl in Hs, Hk.
  - inversion Hs; subst. simpl. rewrite Heof. simpl. now rewrite app_nil_r.
  - apply andb_prop in Hk. destruct Hk as [Hks Hkr].
    destruct (spells_app _ _ _ _ Hs) as (p1 & Hs1 & Hrest).
    assert (Hne : type (current_token p) <> EOF).
    { destruct (unparse_statement_head s) as (k & ks & E & Hk).
      rewrite E in Hs1. inversion Hs1; subst. exact Hk. }
    apply TokenType_eqb_neq in Hne.
    simpl. rewrite Hne. simpl.
    assert (Est : statement fuel p = Ok (s, p1))
      by (apply statement_unparse; auto; lia).
    pose proof (statement_ends fuel p Hwf ltac:(lia)) as He.
    rewrite Est in He |- *. destruct He as [Hwf1 Hb1]. cbn [bind].
    rewrite (IH fuel (done ++ [s])%list p1 p' Hwf1 ltac:(lia) Hkr Hrest Heof).
    now rewrite <- app_assoc.
Qed.

(** A program is read back from its tokens by [parse], with the fuel that
    [parse] takes. *)
Lemma parse_unparse `{Host} (statements : list StmtNode) (p p' : Parser) :
  wf (lexer p) ->
  forallb known_ops_statement statements = true ->
  spells p (unparse_statements statements) p' ->
  type (current_token p') = EOF ->
  parse p = Ok (ProgramNode statements, p').
Proof.
  intros Hwf Hk Hs Heof. unfold parse, program.
  apply (program_loop_unparse statements _ [] p p'); auto.
  unfold tokens_bound.
  destruct (TokenType_eqb (type (current_token p)) EOF); lia.
Qed.

(** What [expr] returns on the tokens of an expression is that expression,
    whatever its fuel. *)
Lemma expr_unparse_returns `{Host} (fuel : nat) (e : ExprNode) (p p' : Parser)
  (r : ExprNode * Parser) :
  known_ops e = true ->
  spells p (unparse 0 e) p' ->
  is_additive (type (current_token p')) = false ->
  is_multiplicative (type (current_token p')) = false ->
  expr fuel p = Ok r -> r = (e, p').
Proof.
  intros Hk Hs Ha Hm Er.
  pose proof (expr_unparse_fuel (S (size e)) e p p' Hk (le_n _) Hs Ha Hm) as E.
  destruct (Nat.le_ge_cases (S (size e)) fuel) as [Hle|Hle].
  - rewrite (expr_extends _ _ Hle p) in Er by (rewrite E; discriminate).
    rewrite E in Er. now inversion Er.
  - rewrite (expr_extends _ _ Hle p) in E by (rewrite Er; discriminate).
    rewrite Er in E. now inversion E.
Qed.

(** C1. Write any expression over the four operators with the fewest
    parentheses that the usual reading needs: a sum or difference takes its
    left operand as it is and its right operand as a product, a product or
    quotient takes its left operand as a product and its right operand
    closed, and parentheses close what does not fit.  Whenever the tokens
    ahead of the parser spell this text, the token after them is no
    operator, and [expr] returns, it returns that expression and stops at
    that token; and whenever they spell the statements of a program up to
    EOF and [parse] returns, it returns that program.  So in every tree that
    the parser returns [*] and [/] bind tighter than [+] and [-], chains of
    one level nest to the left, and parentheses override both.  (The parser
    does return on such tokens as long as the parentheses do not nest beyond
    the recursion limit of the host.)  On the sources of the specification
    it returns: [2 + 3 * 4] parses to Add(2, Mul(3, 4)), and the three
    programs leave [x] at 14, 20 and 3. *)
Theorem C1_precedence (H : Host) :
  (forall (e : ExprNode) (p p' : Parser) (fuel : nat) (r : ExprNode * Parser),
     known_ops e = true ->
     spells p (unparse 0 e) p' ->
     is_additive (type (current_token p')) = false ->
     is_multiplicative (type (current_token p')) = false ->
     expr fuel p = Ok r ->
     r = (e, p'))
  /\ (forall (statements : list StmtNode) (p p' : Parser)
             (r : Program * Parser),
        wf (lexer p) ->
        forallb known_ops_statement statements = true ->
        spells p (unparse_statements statements) p' ->
        type (current_token p') = EOF ->
        parse p = Ok r ->
        r = (ProgramNode statements, p'))
  /\ (exists p p',
        Parser_init (Lexer_init "2 + 3 * 4") = Ok p
        /\ forall fuel, (5 < fuel)%nat ->
             expr fuel p = Ok (tree_2_plus_3_times_4, p'))
  /\ parse_source "let x = 2 + 3 * 4;"
     = Ok (ProgramNode [AssignNode "x" tree_2_plus_3_times_4])
  /\ parse_source "let x = (2 + 3) * 4;"
     = Ok (ProgramNode [AssignNode "x" tree_2_plus_3_all_times_4])
  /\ parse_source "let x = 10 - 5 - 2;"
     = Ok (ProgramNode [AssignNode "x" tree_10_minus_5_minus_2])
  /\ run_source "let x = 2 + 3 * 4;"
     = (Ok tt, {| symbol_table := [("x", PyInt 14)]; stdout := "" |})
  /\ run_source "let x = (2 + 3) * 4;"
     = (Ok tt, {| symbol_table := [("x", PyInt 20)]; stdout := "" |})
  /\ run_source "let x = 10 - 5 - 2;"
     = (Ok tt, {| symbol_table := [("x", PyInt 3)]; stdout := "" |}).
Proof.
  split.
  { intros e p p' fuel r Hk Hs Ha Hm Er.
    exact (expr_unparse_returns fuel e p p' r Hk Hs Ha Hm Er). }
  split.
  { intros statements p p' r Hwf Hk Hs Heof Er.
    rewrite (parse_unparse statements p p' Hwf Hk Hs Heof) in Er.
    now inversion Er. }
  split.
  { destruct (Parser_init (Lexer_init "2 + 3 * 4")) as [p| |] eqn:Ep;
      try (vm_compute in Ep; discriminate).
    exists p. eexists. split; [reflexivity|].
    intros fuel Hfuel. apply expr_unparse_fuel; try reflexivity.
    - exact Hfuel.
    - vm_compute in Ep. inversion Ep; subst p.
      repeat (eapply spells_cons; [reflexivity|vm_compute; reflexivity|]).
      apply spells_nil.
    - reflexivity.
    - reflexivity. }
  repeat split; vm_compute; reflexivity.
Qed.

Lemma C1_precedence_witness :
  known_ops tree_10_minus_5_minus_2 = true
  /\ wf (lexer sample_parser)
  /\ spells sample_parser_at_10 (unparse 0 tree_10_minus_5_minus_2)
            sample_parser_at_semi
  /\ is_additive (type (current_token sample_parser_at_semi)) = false
  /\ is_multiplicative (type (current_token sample_parser_at_semi)) = false
  /\ expr 6 sample_parser_at_10 = Ok sample_expr_result
  /\ sample_expr_result = (tree_10_minus_5_minus_2, sample_parser_at_semi)
  /\ spells sample_parser
            (unparse_statements [AssignNode "x" tree_10_minus_5_minus_2])
            sample_parser_at_end
  /\ type (current_token sample_parser_at_end) = EOF
  /\ parse sample_parser = Ok sample_parse_result
  /\ sample_parse_result
     = (ProgramNode [AssignNode "x" tree_10_minus_5_minus_2],
        sample_parser_at_end).
Proof.
  assert (Hs : spells sample_parser_at_10 (unparse 0 tree_10_minus_5_minus_2)
                      sample_parser_at_semi).
  { repeat (eapply spells_cons; [reflexivity|vm_compute; reflexivity|]).
    apply spells_nil. }
  assert (Hp : spells sample_parser
                 (unparse_statements [AssignNode "x" tree_10_minus_5_minus_2])
                 sample_parser_at_end).
  { repeat (eapply spells_cons; [reflexivity|vm_compute; reflexivity|]).
    apply spells_nil. }
  assert (Er : expr 6 sample_parser_at_10 = Ok sample_expr_result)
    by (vm_compute; reflexivity).
  assert (Er' : parse sample_parser = Ok sample_parse_result)
    by (vm_compute; reflexivity).
  split; [reflexivity|]. split; [reflexivity|].
  split; [exact Hs|]. split; [reflexivity|]. split; [reflexivity|].
  split; [exact Er|].
  split.
  { exact (proj1 (C1_precedence cpython) tree_10_minus_5_minus_2 _ _ 6
                 sample_expr_result eq_refl Hs eq_refl eq_refl Er). }
  split; [exact Hp|]. split; [reflexivity|].
  split; [exact Er'|].
  exact (proj1 (proj2 (C1_precedence cpython))
           [AssignNode "x" tree_10_minus_5_minus_2]
           sample_parser sample_parser_at_end sample_parse_result
           (eq_refl : wf (lexer sample_parser)) eq_refl Hp eq_refl Er').
Defined.

(** * The whole pipeline ends *)

Lemma py_str_fuel `{Host} (v : pynum) : py_str v <> OutOfFuel.
Proof.
  destruct v as [z|f]; simpl; [|discriminate].
  destruct (exceeds_str_digits _); discriminate.
Qed.

Lemma visit_statement_fuel `{Host} (node : StmtNode) (self : Interpreter) :
  fst (visit_statement node self) <> OutOfFuel.
Proof.
  destruct node as [var e|e]; simpl.
  - rewrite visit_AssignNode_eq. pose proof (visit_not_OutOfFuel e self) as Hv.
    destruct (fst (visit e self)); simpl; congruence.
  - rewrite visit_PrintNode_eq. pose proof (visit_not_OutOfFuel e self) as Hv.
    destruct (fst (visit e self)) as [v| |]; simpl; try congruence.
    pose proof (py_str_fuel v) as Hs.
    destruct (py_str v); simpl; congruence.
Qed.

Lemma interpret_ends `{Host} (ast : Program) (self : Interpreter) :
  fst (interpret ast self) <> OutOfFuel.
Proof.
  destruct ast as [statements]. unfold interpret, visit_ProgramNode.
  revert self. induction statements as [|s rest IH]; intros self; simpl.
  - discriminate.
  - unfold mbind. pose proof (visit_statement_fuel s self) as Hs.
    destruct (visit_statement s self) as [[[]| |] self1]; simpl in *;
      [apply IH|discriminate|congruence].
Qed.

(** Running a source text ends: with the program run to its end, or with
    the first error of the lexer, the parser or the evaluator. *)
Lemma run_source_ends `{Host} (source : string) :
  fst (run_source source) <> OutOfFuel.
Proof.
  unfold run_source. pose proof (parse_source_ends source) as Hp.
  destruct (parse_source source) as [ast| |]; simpl;
    [apply interpret_ends|discriminate|congruence].
Qed.

(** * The model on the repository's own programs *)

(** The program of [interpreter.py]'s [main], on CPython: the three printed
    lines and the final store. *)
Example main_program :
  run_source ("let x = 10 + 5;" ++ String newline
              ("let y = x * 2;" ++ String newline
               ("print(x);" ++ String newline
                ("print(y);" ++ String newline
                 ("let z = (x + y) / 5;" ++ String newline
                  "print(z);")))))
  = (Ok tt,
     {| symbol_table := [("x", PyInt 15); ("y", PyInt 30);
                         ("z", PyFloat (exact_float 9))];
        stdout := "15" ++ String newline
                  ("30" ++ String newline
                   ("9.0" ++ String newline "")) |}).
Proof. vm_compute. reflexivity. Qed.

(** The sequential program of the specification: the output [15] and the
    store [x = 10], [y = 15]. *)
Example sequential_state :
  run_source "let x = 10; let y = x + 5; print(y);"
  = (Ok tt,
     {| symbol_table := [("x", PyInt 10); ("y", PyInt 15)];
        stdout := "15" ++ String newline "" |}).
Proof. vm_compute. reflexivity. Qed.

(** The assertions of [test_interpreter.py] on the evaluator: the values of
    [x], with [==] as the tests compare, and the two errors. *)
Example test_interpreter :
  leaves_x "let x = 42;" (PyInt 42) = true
  /\ leaves_x "let x = 10 + 5;" (PyInt 15) = true
  /\ leaves_x "let x = 10 - 5;" (PyInt 5) = true
  /\ leaves_x "let x = 10 * 5;" (PyInt 50) = true
  /\ leaves_x "let x = 10 / 5;" (PyInt 2) = true
  /\ leaves_x "let x = 2 + 3 * 4;" (PyInt 14) = true
  /\ leaves_x "let x = (10 + 5) * 2 / 3;" (PyFloat (exact_float 10)) = true
  /\ fst (run_source "let x = y + 5;")
     = Raise (Exception "Runtime error: Variable 'y' is not defined")
  /\ fst (run_source "let x = 10 / 0;")
     = Raise (Exception "Runtime error: Division by zero").
Proof. repeat split; vm_compute; reflexivity. Qed.

(** * Further properties of the lexer *)

(** ** The cases of [get_next_token] *)

(** To show a property of every call of [get_next_token] it is enough to
    show it at the end of the text, through a run of white space, through a
    comment, and at a number, a name, an operator and any other character. *)
Lemma get_next_token_cases `{Host}
  (P : Lexer -> result (Token * Lexer) -> Prop) :
  (forall lx, wf lx -> current_char lx = None ->
     P lx (Ok (mkToken EOF NoValue (line lx) (column lx), lx))) ->
  (forall lx ch r, wf lx -> current_char lx = Some ch -> isspace ch = true ->
     P (after_space lx) r -> P lx r) ->
  (forall lx ch r, wf lx -> current_char lx = Some ch -> isspace ch = false ->
     Ascii.eqb ch slash && char_is slash (peek lx) = true ->
     P (after_comment lx) r -> P lx r) ->
  (forall lx ch, wf lx -> current_char lx = Some ch -> isspace ch = false ->
     Ascii.eqb ch slash && char_is slash (peek lx) = false ->
     isdigit ch = true -> P lx (number lx)) ->
  (forall lx ch, wf lx -> current_char lx = Some ch -> isspace ch = false ->
     Ascii.eqb ch slash && char_is slash (peek lx) = false ->
     isdigit ch = false -> isalpha ch || Ascii.eqb ch underscore = true ->
     P lx (identifier lx)) ->
  (forall lx ch k, wf lx -> current_char lx = Some ch -> isspace ch = false ->
     Ascii.eqb ch slash && char_is slash (peek lx) = false ->
     isdigit ch = false -> isalpha ch || Ascii.eqb ch underscore = false ->
     operator ch = Some k ->
     P lx (Ok (mkToken k (StrValue (String ch "")) (line lx) (column lx),
               advance lx))) ->
  (forall lx ch, wf lx -> current_char lx = Some ch -> isspace ch = false ->
     Ascii.eqb ch slash && char_is slash (peek lx) = false ->
     isdigit ch = false -> isalpha ch || Ascii.eqb ch underscore = false ->
     operator ch = None ->
     P lx (lexer_error lx ("Invalid character '" ++ String ch "" ++ "'"))) ->
  forall lx, wf lx -> P lx (get_next_token lx).
Proof.
  intros Heof Hspace Hcomment Hnumber Hident Hop Herr lx Hwf.
  unfold get_next_token.
  assert (Hfuel : (remaining lx < S (remaining lx))%nat) by lia.
  revert Hfuel. generalize (S (remaining lx)) as fuel. intros fuel.
  revert lx Hwf. induction fuel as [|fuel IH]; intros lx Hwf Hfuel; [lia|].
  simpl. destruct (current_char lx) as [ch|] eqn:Ec; [|now apply Heof].
  destruct (isspace ch) eqn:Esp.
  { rewrite (skip_whitespace_spec lx Hwf). simpl bind.
    apply Hspace with ch; auto.
    destruct (passed_span isspace lx Hwf) as [Hp _].
    assert (Hne : fst (span isspace (unread lx)) <> "").
    { apply span_nonempty with ch; [now rewrite <- wf_head|auto]. }
    pose proof (passed_remaining _ _ _ Hp) as Hr.
    pose proof (length_nonempty _ Hne).
    apply IH; [apply Hp|]. unfold after_space. lia. }
  destruct (Ascii.eqb ch slash && char_is slash (peek lx)) eqn:Ecm.
  { assert (Hcc : char_is slash (current_char lx) && char_is slash (peek lx)
                  = true) by (now rewrite Ec).
    destruct (skip_comment_passed lx Hwf Hcc) as (lx1 & s & E & Hp & Hne).
    rewrite E. simpl bind.
    rewrite (skip_comment_spec lx Hwf Hcc) in E. inversion E as [E1].
    apply Hcomment with ch; auto.
    unfold after_comment. rewrite E1.
    pose proof (passed_remaining _ _ _ Hp) as Hr.
    pose proof (length_nonempty _ Hne).
    apply IH; [apply Hp|lia]. }
  destruct (isdigit ch) eqn:Ed; [now apply Hnumber with ch|].
  destruct (isalpha ch || Ascii.eqb ch underscore) eqn:Ea;
    [now apply Hident with ch|].
  destruct (operator ch) as [k|] eqn:Eop.
  - now apply Hop.
  - now apply Herr.
Qed.

(** ** Lines and columns *)

Lemma position_after_app (a b : string) (start : nat * nat) :
  position_after (a ++ b) start = position_after b (position_after a start).
Proof.
  revert start. induction a as [|c a IH]; intros start; simpl; auto.
  destruct (Ascii.eqb c newline); apply IH.
Qed.

Lemma advance_position (lx : Lexer) (c : ascii) :
  current_char lx = Some c ->
  position (advance lx) = position_after (String c "") (position lx).
Proof.
  intros Hc. unfold position, advance. rewrite Hc. simpl.
  now destruct (Ascii.eqb c newline).
Qed.

Lemma advance_n_position (s r : string) (lx : Lexer) :
  wf lx -> unread lx = s ++ r ->
  position (advance_n (String.length s) lx) = position_after s (position lx).
Proof.
  revert lx. induction s as [|c s IH]; intros lx Hwf E; simpl in *; auto.
  assert (Hc : current_char lx = Some c) by (now rewrite wf_head, E).
  rewrite (IH (advance lx)).
  - rewrite (advance_position lx c Hc). simpl.
    now destruct (Ascii.eqb c newline).
  - apply advance_wf.
  - now apply advance_unread with c.
Qed.

Lemma span_position (p : ascii -> bool) (lx : Lexer) :
  wf lx ->
  position (advance_n (String.length (fst (span p (unread lx)))) lx)
  = position_after (fst (span p (unread lx))) (position lx).
Proof.
  intros Hwf. apply advance_n_position with (snd (span p (unread lx))); auto.
  apply span_append.
Qed.

(** A text without a newline stays on its line. *)
Lemma position_after_line (p : ascii -> bool) (s : string) (start : nat * nat) :
  p newline = false -> forallb_string p s = true ->
  position_after s start = (fst start, (snd start + String.length s)%nat).
Proof.
  intros Hn. revert start. induction s as [|c s IH]; intros [l k] Hs; simpl in *.
  - now rewrite Nat.add_0_r.
  - apply andb_prop in Hs. destruct Hs as [Hc Hs].
    destruct (Ascii.eqb c newline) eqn:E.
    + apply Ascii.eqb_eq in E. congruence.
    + rewrite (IH _ Hs). simpl. f_equal. lia.
Qed.

(** ** Blank texts *)

Lemma blank_in_comment (s : string) :
  blank_from false s = true -> blank_from true s = true.
Proof.
  induction s as [|c s IH]; simpl; auto.
  destruct (Ascii.eqb c newline) eqn:En; simpl.
  - apply Ascii.eqb_eq in En. subst c. auto.
  - destruct (isspace c); auto.
    intros Hb. apply andb_prop in Hb. apply Hb.
Qed.

Lemma blank_space_app (ws s : string) :
  forallb_string isspace ws = true ->
  blank_from false s = true -> blank_from false (ws ++ s) = true.
Proof.
  induction ws as [|c ws IH]; simpl; auto.
  intros Hw Hs. apply andb_prop in Hw. destruct Hw as [-> Hw]. auto.
Qed.

Lemma blank_comment_app (body s : string) :
  forallb_string not_newline body = true ->
  blank_from true s = true -> blank_from true (body ++ s) = true.
Proof.
  induction body as [|c body IH]; simpl; auto.
  intros Hb Hs. apply andb_prop in Hb. destruct Hb as [Hc Hb].
  unfold not_newline in Hc. rewrite Hc. auto.
Qed.

Lemma blank_from_app (m : bool) (a b : string) :
  blank_from m a = true -> blank_from false b = true ->
  blank_from m (a ++ b) = true.
Proof.
  intros Ha Hb. revert m Ha.
  induction a as [|c a IH]; intros m Hm; simpl in *.
  - destruct m; auto. now apply blank_in_comment.
  - destruct m; [now apply IH|].
    destruct (isspace c); [now apply IH|].
    apply andb_prop in Hm. destruct Hm as [Hm Hr].
    apply andb_prop in Hm. destruct Hm as [Hs Hp].
    rewrite Hs. simpl.
    assert (Hh : char_is slash (head (a ++ b)) = true).
    { destruct a; [discriminate|exact Hp]. }
    rewrite Hh. simpl. now apply IH.
Qed.

Lemma blank_app (a b : string) :
  blank a = true -> blank b = true -> blank (a ++ b) = true.
Proof. apply blank_from_app. Qed.

(** ** Gaps *)

Lemma gap_from_app (m : bool) (a b : string) :
  gap_from m a = true -> gap_from m (a ++ b) = gap_from false b.
Proof.
  revert m. induction a as [|c a IH]; intros m Ha; simpl in *.
  - now destruct m.
  - destruct m; [now apply IH|].
    destruct (isspace c); [now apply IH|].
    apply andb_prop in Ha. destruct Ha as [Ha Hr].
    apply andb_prop in Ha. destruct Ha as [Hs Hp].
    assert (Hh : char_is slash (head (a ++ b)) = true).
    { destruct a; [discriminate|exact Hp]. }
    rewrite Hs, Hh. simpl. now apply IH.
Qed.

Lemma gap_blank_from_app (m : bool) (a b : string) :
  gap_from m a = true -> blank_from m (a ++ b) = blank_from false b.
Proof.
  revert m. induction a as [|c a IH]; intros m Ha; simpl in *.
  - now destruct m.
  - destruct m; [now apply IH|].
    destruct (isspace c); [now apply IH|].
    apply andb_prop in Ha. destruct Ha as [Ha Hr].
    apply andb_prop in Ha. destruct Ha as [Hs Hp].
    assert (Hh : char_is slash (head (a ++ b)) = true).
    { destruct a; [discriminate|exact Hp]. }
    rewrite Hs, Hh. simpl. now apply IH.
Qed.

Lemma gap_blank (a : string) : gap a = true -> blank a = true.
Proof.
  intros Ha. unfold blank. rewrite <- (append_nil_r a).
  now rewrite (gap_blank_from_app false a "" Ha).
Qed.

Lemma gap_app (a b : string) :
  gap a = true -> gap b = true -> gap (a ++ b) = true.
Proof. unfold gap. intros Ha Hb. now rewrite (gap_from_app false a b Ha). Qed.

Lemma gap_space (ws : string) :
  forallb_string isspace ws = true -> gap ws = true.
Proof.
  unfold gap. induction ws as [|c ws IH]; simpl; auto.
  intros Hw. apply andb_prop in Hw. destruct Hw as [-> Hw]. auto.
Qed.

Lemma gap_comment_body (body : string) :
  forallb_string not_newline body = true ->
  gap_from true (body ++ String newline "") = true.
Proof.
  induction body as [|c body IH]; simpl.
  - reflexivity.
  - intros Hb. apply andb_prop in Hb. destruct Hb as [Hc Hb].
    unfold not_newline in Hc. rewrite Hc. auto.
Qed.

(** After a gap and then a text that starts a token, what is left after
    the white space and the comments is that text; after a blank text
    nothing is left. *)
Lemma after_gap_app (m : bool) (a l : string) :
  gap_from m a = true -> token_start l = true -> after_gap m (a ++ l) = l.
Proof.
  revert m. induction a as [|c a IH]; intros m Ha Hl; simpl in *.
  - destruct m; [discriminate|]. destruct l as [|c l]; [discriminate|].
    simpl in *. apply andb_prop in Hl. destruct Hl as [Hs Hc].
    apply negb_true_iff in Hs, Hc. now rewrite Hs, Hc.
  - destruct m; [now apply IH|].
    destruct (isspace c); [now apply IH|].
    apply andb_prop in Ha. destruct Ha as [Ha Hr].
    apply andb_prop in Ha. destruct Ha as [Hs Hp].
    assert (Hh : char_is slash (head (a ++ l)) = true).
    { destruct a; [discriminate|exact Hp]. }
    rewrite Hs, Hh. simpl. now apply IH.
Qed.

Lemma after_gap_blank (m : bool) (a : string) :
  blank_from m a = true -> after_gap m a = "".
Proof.
  revert m. induction a as [|c a IH]; intros m Ha; simpl in *; auto.
  destruct m; [now apply IH|].
  destruct (isspace c); [now apply IH|].
  apply andb_prop in Ha. destruct Ha as [Ha Hr].
  rewrite Ha. now apply IH.
Qed.

(** ** What one call reads *)

Lemma span_stop_starts (p : ascii -> bool) (s : string) :
  starts p (snd (span p s)) = false.
Proof.
  pose proof (span_stop p s) as Hs. unfold starts.
  now destruct (head (snd (span p s))).
Qed.

Lemma span_starts (p q : ascii -> bool) (s : string) (c : ascii) :
  head s = Some c -> p c = true -> q c = true ->
  starts q (fst (span p s)) = true.
Proof.
  destruct s as [|c' r]; simpl; [discriminate|].
  intros E Hp Hq. inversion E; subst c'. rewrite Hp.
  now destruct (span p r).
Qed.

Lemma wf_at_end (lx : Lexer) : wf lx -> current_char lx = None -> unread lx = "".
Proof.
  intros Hwf Hc. rewrite (wf_head lx Hwf) in Hc.
  now destruct (unread lx).
Qed.

Lemma number_value_fuel `{Host} (s : string) : number_value s <> OutOfFuel.
Proof.
  unfold number_value. destruct (contains dot s).
  - pose proof (py_float_fuel s). now destruct (py_float s).
  - pose proof (py_int_fuel s). now destruct (py_int s).
Qed.

Lemma number_value_error `{Host} (s : string) (e : exn) :
  number_value s = Raise e -> exists msg, e = ValueError msg.
Proof.
  unfold number_value. destruct (contains dot s).
  - unfold py_float. destruct (split_dot s) as [ip fp].
    match goal with |- context [if ?b then _ else _] => destruct b end;
      simpl; intros E; inversion E; eauto.
  - unfold py_int.
    repeat match goal with |- context [if ?b then _ else _] => destruct b end;
      simpl; intros E; inversion E; eauto.
Qed.

Lemma number_value_spec `{Host} (lx : Lexer) :
  wf lx ->
  number lx =
  let lexeme := fst (span digit_or_dot (unread lx)) in
  let lx' := advance_n (String.length lexeme) lx in
  n <- number_value lexeme ;;
  Ok (mkToken NUMBER (NumValue n) (line lx') (column lx), lx').
Proof.
  intros Hwf. rewrite (number_spec lx Hwf). cbv zeta. unfold number_value.
  destruct (contains dot _).
  - now destruct (py_float _).
  - now destruct (py_int _).
Qed.

Lemma reads_eof_inv `{Host} (lexeme rest : string) (v : tokval) :
  reads lexeme rest EOF v -> lexeme = "" /\ rest = "" /\ v = NoValue.
Proof.
  intros Hr. inversion Hr; subst; auto.
  - exfalso. eapply keywords_get_not_EOF; eauto.
  - exfalso. eapply operator_not_EOF; eauto.
Qed.

Lemma starts_nonempty (p : ascii -> bool) (s : string) :
  starts p s = true -> s <> "".
Proof. destruct s; discriminate. Qed.

Lemma reads_nonempty `{Host} (lexeme rest : string) (k : TokenType) (v : tokval) :
  reads lexeme rest k v -> k <> EOF -> lexeme <> "".
Proof.
  intros Hr Hk. inversion Hr; subst; try congruence;
    eauto using starts_nonempty.
Qed.

Lemma append_empty (a b : string) : a ++ b = "" -> a = "" /\ b = "".
Proof. destruct a; [auto|discriminate]. Qed.

Lemma rejects_nonempty `{Host} (start : nat * nat) (e : exn) :
  ~ rejects start "" e.
Proof.
  intros [(ch & rest' & E & _)|(E & _)]; discriminate.
Qed.

(** A step after a gap is a step from before the gap. *)
Lemma scan_step_skip `{Host} (lx lx1 : Lexer) (s : string)
  (r : result (Token * Lexer)) :
  passed lx lx1 s -> position lx1 = position_after s (position lx) ->
  gap s = true ->
  scan_step lx1 r -> scan_step lx r.
Proof.
  intros Hp Hpos Hs. destruct r as [[t lx']|e|]; simpl; auto.
  - intros (skipped & lexeme & Hp' & Hb & Hg & Hr & Ht & Hpos').
    exists (s ++ skipped), lexeme.
    split; [|split; [|split; [|split; [|split]]]].
    + repeat split.
      * apply Hp'.
      * destruct Hp as (_ & E & _). destruct Hp' as (_ & E' & _). congruence.
      * destruct Hp as (_ & _ & E). destruct Hp' as (_ & _ & E').
        now rewrite E, E', !append_assoc.
    + apply blank_app; [now apply gap_blank|exact Hb].
    + intros Hne. apply gap_app; auto.
    + exact Hr.
    + now rewrite position_after_app, <- Hpos.
    + now rewrite append_assoc, position_after_app, <- Hpos.
  - intros (skipped & rest & E' & Hg & Hr).
    exists (s ++ skipped), rest. repeat split.
    + destruct Hp as (_ & _ & E). now rewrite E, E', append_assoc.
    + now apply gap_app.
    + now rewrite position_after_app, <- Hpos.
Qed.

(** After a blank text that reaches the end of the source the step is EOF. *)
Lemma scan_step_skip_end `{Host} (lx lx1 : Lexer) (s : string)
  (r : result (Token * Lexer)) :
  passed lx lx1 s -> position lx1 = position_after s (position lx) ->
  blank s = true -> unread lx1 = "" ->
  scan_step lx1 r -> scan_step lx r.
Proof.
  intros Hp Hpos Hs Hend. destruct r as [[t lx']|e|]; simpl; auto.
  - intros (skipped & lexeme & Hp' & Hb & Hg & Hr & Ht & Hpos').
    assert (Hnil : skipped = "" /\ lexeme = "").
    { destruct Hp' as (_ & _ & E'). rewrite Hend in E'. symmetry in E'.
      apply append_empty in E'. destruct E' as [E' _].
      now apply append_empty in E'. }
    destruct Hnil as [-> ->].
    assert (Heof : type t = EOF).
    { destruct (type t) eqn:Et; auto;
        exfalso; now apply (reads_nonempty _ _ _ _ Hr). }
    exists s, "". simpl in *. rewrite append_nil_r in *.
    split; [|split; [exact Hs|split; [congruence|split; [exact Hr|split]]]].
    + repeat split.
      * apply Hp'.
      * destruct Hp as (_ & E & _). destruct Hp' as (_ & E' & _). congruence.
      * destruct Hp as (_ & _ & E). destruct Hp' as (_ & _ & E').
        now rewrite E, E'.
    + now rewrite Ht, Hpos.
    + now rewrite Hpos', Hpos.
  - intros (skipped & rest & E' & Hg & Hr). exfalso.
    rewrite Hend in E'. symmetry in E'. apply append_empty in E'.
    destruct E' as [_ ->]. now apply rejects_nonempty in Hr.
Qed.

Lemma after_space_passed (lx : Lexer) :
  wf lx ->
  exists s,
    passed lx (after_space lx) s
    /\ position (after_space lx) = position_after s (position lx)
    /\ gap s = true.
Proof.
  intros Hwf. exists (fst (span isspace (unread lx))). split; [|split].
  - apply (passed_span isspace lx Hwf).
  - now apply span_position.
  - apply gap_space, span_all.
Qed.

Lemma after_comment_passed (lx : Lexer) (ch : ascii) :
  wf lx -> current_char lx = Some ch ->
  Ascii.eqb ch slash && char_is slash (peek lx) = true ->
  exists s,
    passed lx (after_comment lx) s
    /\ position (after_comment lx) = position_after s (position lx)
    /\ blank s = true
    /\ (gap s = true \/ unread (after_comment lx) = "").
Proof.
  intros Hwf Hc Hcm. apply andb_prop in Hcm. destruct Hcm as [H1 H2].
  apply Ascii.eqb_eq in H1. subst ch.
  rewrite (wf_head lx Hwf) in Hc. rewrite peek_unread in H2.
  destruct (passed_span not_newline lx Hwf) as [Hp Hu].
  pose proof (span_position not_newline lx Hwf) as Hpos.
  pose proof (span_all not_newline (unread lx)) as Hall.
  pose proof (span_stop not_newline (unread lx)) as Hstop.
  unfold after_comment. cbv zeta.
  set (body := fst (span not_newline (unread lx))) in *.
  set (lx1 := advance_n (String.length body) lx) in *.
  assert (Hbody : exists body',
             body = String slash (String slash body')
             /\ forallb_string not_newline body' = true).
  { unfold body in *.
    destruct (unread lx) as [|c1 [|c2 r]]; try discriminate.
    simpl in Hc, H2. inversion Hc; subst c1.
    apply Ascii.eqb_eq in H2. subst c2. simpl in *.
    destruct (span not_newline r) as [a b]. simpl in *. eauto. }
  destruct Hbody as (body' & Eb & Hb').
  assert (Hblank : forall s, blank_from true s = true ->
                             blank (body ++ s) = true).
  { intros s Hs. rewrite Eb. simpl. now apply blank_comment_app. }
  assert (Hwf1 : wf lx1) by apply Hp.
  pose proof (wf_head lx1 Hwf1) as Hh1. rewrite Hu in Hh1.
  destruct (current_char lx1) as [c|] eqn:Ec1; simpl.
  - rewrite <- Hh1 in Hstop. unfold not_newline in Hstop.
    apply negb_false_iff in Hstop. rewrite Hstop.
    apply Ascii.eqb_eq in Hstop. subst c.
    exists (body ++ String newline ""). split; [|split; [|split]].
    + apply passed_trans with lx1; [exact Hp|].
      apply passed_advance; [apply Hp|exact Ec1].
    + rewrite position_after_app, <- Hpos.
      now apply advance_position.
    + now apply Hblank.
    + left. rewrite Eb. unfold gap. simpl.
      now apply gap_comment_body.
  - exists body. split; [exact Hp|]. split; [exact Hpos|]. split.
    + rewrite <- (append_nil_r body). now apply Hblank.
    + right. now apply wf_at_end.
Qed.

(** Every call of [get_next_token] skips a blank text and reads one lexeme
    there, or is rejected there. *)
Lemma get_next_token_scan `{Host} (lx : Lexer) :
  wf lx -> scan_step lx (get_next_token lx).
Proof.
  revert lx. apply get_next_token_cases.
  - intros lx Hwf Hc. exists "", "". simpl.
    rewrite (wf_at_end lx Hwf Hc). repeat split; auto. constructor.
  - intros lx ch r Hwf Hc Hsp IH.
    destruct (after_space_passed lx Hwf) as (s & Hp & Hpos & Hg).
    now apply scan_step_skip with (after_space lx) s.
  - intros lx ch r Hwf Hc Hsp Hcm IH.
    destruct (after_comment_passed lx ch Hwf Hc Hcm)
      as (s & Hp & Hpos & Hb & [Hg|Hend]).
    + now apply scan_step_skip with (after_comment lx) s.
    + now apply scan_step_skip_end with (after_comment lx) s.
  - intros lx ch Hwf Hc Hsp Hcm Hd.
    rewrite (number_value_spec lx Hwf). cbv zeta.
    destruct (passed_span digit_or_dot lx Hwf) as [Hp Hu].
    pose proof (span_position digit_or_dot lx Hwf) as Hpos.
    pose proof (span_all digit_or_dot (unread lx)) as Hall.
    set (lexeme := fst (span digit_or_dot (unread lx))) in *.
    assert (Hst : starts isdigit lexeme = true).
    { apply span_starts with ch; auto; [now rewrite <- wf_head|].
      unfold digit_or_dot. now rewrite Hd. }
    pose proof (number_value_fuel lexeme) as Hf.
    destruct (number_value lexeme) as [n|e|] eqn:En; simpl; [| |congruence].
    + exists "", lexeme. simpl.
      split; [exact Hp|]. split; [reflexivity|]. split; [reflexivity|].
      split; [|split].
      * constructor; auto. rewrite Hu. apply span_stop_starts.
      * rewrite (position_after_line digit_or_dot) in Hpos by auto.
        unfold position in *. simpl in Hpos. congruence.
      * exact Hpos.
    + exists "", (unread lx). simpl. repeat split; auto.
      right. split; [|split; [exact En|now apply number_value_error in En]].
      unfold starts. now rewrite <- wf_head, Hc.
  - intros lx ch Hwf Hc Hsp Hcm Hd Ha.
    rewrite (identifier_spec lx Hwf). cbv zeta.
    change (fun ch0 => isalnum ch0 || Ascii.eqb ch0 underscore) with name_char.
    destruct (passed_span name_char lx Hwf) as [Hp Hu].
    pose proof (span_position name_char lx Hwf) as Hpos.
    pose proof (span_all name_char (unread lx)) as Hall.
    set (lexeme := fst (span name_char (unread lx))) in *.
    assert (Hst : starts name_start lexeme = true).
    { apply span_starts with ch; auto; [now rewrite <- wf_head|].
      unfold name_char. apply orb_prop in Ha. destruct Ha as [Ha|Ha].
      - now rewrite (isalpha_isalnum ch Ha).
      - rewrite Ha. apply orb_true_r. }
    exists "", lexeme. simpl.
    split; [exact Hp|]. split; [reflexivity|]. split; [reflexivity|].
    split; [|split].
    + constructor; auto. rewrite Hu. apply span_stop_starts.
    + rewrite (position_after_line name_char) in Hpos by auto.
      unfold position in *. simpl in Hpos. congruence.
    + exact Hpos.
  - intros lx ch k Hwf Hc Hsp Hcm Hd Ha Hop.
    destruct (passed_advance lx ch Hwf Hc) as (Hw & Ht & Hu).
    exists "", (String ch ""). simpl.
    split; [now apply passed_advance|]. split; [reflexivity|].
    split; [reflexivity|]. split; [|split; [reflexivity|]].
    + constructor; auto.
      rewrite peek_unread, Hu in Hcm. simpl in Hcm.
      destruct (Ascii.eqb ch slash); auto.
    + rewrite (advance_position lx ch Hc). reflexivity.
  - intros lx ch Hwf Hc Hsp Hcm Hd Ha Hop.
    exists "", (unread lx). simpl. repeat split; auto.
    left. rewrite (wf_head lx Hwf) in Hc.
    destruct (unread lx) as [|c r]; simpl in Hc; inversion Hc; subst c.
    exists ch, r. repeat split; auto.
Qed.

(** ** The calls that [tokenize] makes *)

Lemma tokenize_loop_chain `{Host} (fuel : nat) (acc : list Token)
  (token : Token) (lx : Lexer) (all : list Token) (lx' : Lexer) :
  tokenize_loop fuel acc token lx = Ok (all, lx') ->
  (type token = EOF /\ all = (acc ++ [token])%list /\ lx' = lx)
  \/ (type token <> EOF
      /\ exists ts, chain lx ts lx' /\ all = (acc ++ token :: ts)%list).
Proof.
  revert acc token lx.
  induction fuel as [|fuel IH]; intros acc token lx E; [discriminate|].
  simpl in E. destruct (TokenType_eqb (type token) EOF) eqn:Et; simpl in E.
  - apply TokenType_eqb_eq in Et. inversion E. auto.
  - apply TokenType_eqb_neq in Et. right. split; [exact Et|].
    destruct (get_next_token lx) as [[t lx1]| |] eqn:Eg; try discriminate.
    simpl in E. destruct (IH _ _ _ E) as [(Ht & -> & ->)|(Ht & ts & Hc & ->)].
    + exists [t]. split; [now constructor|]. now rewrite <- app_assoc.
    + exists (t :: ts). split; [now apply chain_more with lx1|].
      now rewrite <- app_assoc.
Qed.

Lemma tokenize_chain `{Host} (lx : Lexer) (tokens : list Token) (lx' : Lexer) :
  tokenize lx = Ok (tokens, lx') -> chain lx tokens lx'.
Proof.
  unfold tokenize. intros E.
  destruct (get_next_token lx) as [[t lx1]| |] eqn:Eg; try discriminate.
  cbn [bind] in E.
  destruct (tokenize_loop_chain _ _ _ _ _ _ E)
    as [(Ht & -> & ->)|(Ht & ts & Hc & ->)].
  - now constructor.
  - now apply chain_more with lx1.
Qed.

Lemma tokenize_loop_chain_fails `{Host} (fuel : nat) (acc : list Token)
  (token : Token) (lx : Lexer) (e : exn) :
  tokenize_loop fuel acc token lx = Raise e ->
  type token <> EOF /\ exists ts lx', chain_fails lx ts lx' e.
Proof.
  revert acc token lx.
  induction fuel as [|fuel IH]; intros acc token lx E; [discriminate|].
  simpl in E. destruct (TokenType_eqb (type token) EOF) eqn:Et; simpl in E;
    [discriminate|].
  apply TokenType_eqb_neq in Et. split; [exact Et|].
  destruct (get_next_token lx) as [[t lx1]|e'|] eqn:Eg; try discriminate.
  - simpl in E. destruct (IH _ _ _ E) as (Ht & ts & lx' & Hc).
    exists (t :: ts), lx'. now apply chain_fails_later with lx1.
  - simpl in E. inversion E; subst e'. exists [], lx. now constructor.
Qed.

Lemma tokenize_chain_fails `{Host} (lx : Lexer) (e : exn) :
  tokenize lx = Raise e -> exists ts lx', chain_fails lx ts lx' e.
Proof.
  unfold tokenize. intros E.
  destruct (get_next_token lx) as [[t lx1]|e'|] eqn:Eg; try discriminate.
  - cbn [bind] in E.
    destruct (tokenize_loop_chain_fails _ _ _ _ _ E) as (Ht & ts & lx' & Hc).
    exists (t :: ts), lx'. now apply chain_fails_later with lx1.
  - simpl in E. inversion E; subst e'. exists [], lx. now constructor.
Qed.

(** ** The tokens and the source *)

Lemma chain_tiled `{Host} (lx : Lexer) (tokens : list Token) (lx' : Lexer) :
  chain lx tokens lx' -> wf lx ->
  tiled reads_at (position lx) (unread lx) tokens.
Proof.
  induction 1 as [lx t lx' E Ht|lx t lx1 ts lx' E Ht Hc IH]; intros Hwf;
    pose proof (get_next_token_scan lx Hwf) as Hs; rewrite E in Hs;
    destruct Hs as (skipped & lexeme & Hp & Hb & Hg & Hr & Hpos & Hpos').
  - rewrite Ht in Hr. destruct (reads_eof_inv _ _ _ Hr) as (-> & Hu & Hv).
    destruct Hp as (_ & _ & ->). rewrite Hu, !append_nil_r.
    apply tiled_eof; auto. split; [|now symmetry].
    rewrite Ht, Hv. constructor.
  - destruct Hp as (Hw1 & _ & ->). rewrite append_assoc.
    apply tiled_token; auto.
    + now apply reads_nonempty in Hr.
    + split; [exact Hr|now symmetry].
    + rewrite <- Hpos'. now apply IH.
Qed.

Lemma tiled_impl (R Q : nat * nat -> string -> string -> Token -> Prop)
  (start : nat * nat) (source : string) (tokens : list Token) :
  (forall start lexeme rest t, R start lexeme rest t -> Q start lexeme rest t) ->
  tiled R start source tokens -> tiled Q start source tokens.
Proof.
  intros HRQ. induction 1; [apply tiled_eof|apply tiled_token]; auto.
Qed.

(** ** The tokens are determined by the source *)

Lemma char_kinds (c : ascii) :
  (isdigit c = true ->
   name_start c = false /\ operator c = None /\ isspace c = false
   /\ Ascii.eqb c slash = false)
  /\ (name_start c = true ->
      operator c = None /\ isspace c = false /\ Ascii.eqb c slash = false)
  /\ (operator c <> None -> isspace c = false).
Proof.
  destruct c as [[] [] [] [] [] [] [] []]; vm_compute;
    repeat split; intros; congruence.
Qed.

Lemma span_exact (p : ascii -> bool) (l r : string) :
  forallb_string p l = true -> starts p r = false -> span p (l ++ r) = (l, r).
Proof.
  intros Hl Hr. induction l as [|c l IH]; simpl in *.
  - destruct r as [|c r]; [reflexivity|]. unfold starts in Hr. simpl in *.
    now rewrite Hr.
  - apply andb_prop in Hl. destruct Hl as [Hc Hl].
    now rewrite Hc, (IH Hl).
Qed.

Lemma append_cancel_r (a b l : string) : a ++ l = b ++ l -> a = b.
Proof.
  revert b. induction a as [|c a IH]; intros [|d b] E; simpl in E; auto.
  - apply (f_equal String.length) in E. simpl in E.
    rewrite length_append in E. lia.
  - apply (f_equal String.length) in E. simpl in E.
    rewrite length_append in E. lia.
  - inversion E as [[Ec Ea]]. f_equal. now apply IH.
Qed.

Lemma reads_kind `{Host} (l r : string) (k : TokenType) (v : tokval) :
  reads l r k v ->
  (starts isdigit l = true /\ k = NUMBER
   /\ exists n, number_value l = Ok n /\ v = NumValue n)
  \/ (starts name_start l = true /\ k = keywords_get l /\ v = StrValue l)
  \/ (exists c, l = String c "" /\ operator c = Some k /\ v = StrValue l)
  \/ (l = "" /\ k = EOF /\ v = NoValue).
Proof.
  intros Hr. destruct Hr as [l r n Hs Ha Hst Hv|l r Hs Ha Hst|c r k Hop Hsl|].
  - left. eauto.
  - right. left. auto.
  - right. right. left. eauto.
  - right. right. right. auto.
Qed.

(** A lexeme and the text after it are read in one way only. *)
Lemma reads_functional `{Host} (l r : string) (k k' : TokenType)
  (v v' : tokval) :
  reads l r k v -> reads l r k' v' -> k = k' /\ v = v'.
Proof.
  intros H1 H2.
  destruct (reads_kind _ _ _ _ H1)
    as [(S1 & K1 & n1 & N1 & V1)|[(S1 & K1 & V1)
       |[(c1 & L1 & O1 & V1)|(L1 & K1 & V1)]]];
    destruct (reads_kind _ _ _ _ H2)
      as [(S2 & K2 & n2 & N2 & V2)|[(S2 & K2 & V2)
         |[(c2 & L2 & O2 & V2)|(L2 & K2 & V2)]]];
    try (subst l; discriminate).
  - rewrite N1 in N2. inversion N2. subst. auto.
  - exfalso. destruct l as [|c l]; [discriminate|]. unfold starts in *.
    simpl in *. destruct (char_kinds c) as [Hd _].
    destruct (Hd S1) as (Kn & _). congruence.
  - exfalso. subst l. unfold starts in S1. simpl in S1.
    destruct (char_kinds c2) as [Hd _].
    destruct (Hd S1) as (_ & Ko & _). congruence.
  - exfalso. destruct l as [|c l]; [discriminate|]. unfold starts in *.
    simpl in *. destruct (char_kinds c) as [Hd _].
    destruct (Hd S2) as (Kn & _). congruence.
  - subst. auto.
  - exfalso. subst l. unfold starts in S1. simpl in S1.
    destruct (char_kinds c2) as (_ & Hn & _).
    destruct (Hn S1) as (Ko & _). congruence.
  - exfalso. subst l. unfold starts in S2. simpl in S2.
    destruct (char_kinds c1) as [Hd _].
    destruct (Hd S2) as (_ & Ko & _). congruence.
  - exfalso. subst l. unfold starts in S2. simpl in S2.
    destruct (char_kinds c1) as (_ & Hn & _).
    destruct (Hn S2) as (Ko & _). congruence.
  - subst l. inversion L2; subst c2. rewrite O1 in O2. inversion O2.
    subst. auto.
  - subst. auto.
Qed.

(** The kind of a lexeme: the text that it is the longest prefix of. *)
Lemma reads_prefix `{Host} (l r : string) (k : TokenType) (v : tokval) :
  reads l r k v -> l <> "" ->
  (starts isdigit (l ++ r) = true /\ span digit_or_dot (l ++ r) = (l, r))
  \/ (starts name_start (l ++ r) = true /\ span name_char (l ++ r) = (l, r))
  \/ (exists c, l = String c "" /\ operator c <> None).
Proof.
  intros Hr Hne.
  destruct Hr as [l r n Hs Ha Hst Hn|l r Hs Ha Hst|c r k Hop Hsl|].
  - left. split; [|now apply span_exact].
    destruct l; [discriminate|exact Hs].
  - right. left. split; [|now apply span_exact].
    destruct l; [discriminate|exact Hs].
  - right. right. exists c. split; [reflexivity|congruence].
  - congruence.
Qed.

(** A text that starts with a lexeme is split into the lexeme and the rest
    in one way only. *)
Lemma reads_unique `{Host} (l1 r1 l2 r2 : string) (k1 k2 : TokenType)
  (v1 v2 : tokval) :
  reads l1 r1 k1 v1 -> reads l2 r2 k2 v2 ->
  l1 <> "" -> l2 <> "" -> l1 ++ r1 = l2 ++ r2 ->
  l1 = l2 /\ r1 = r2.
Proof.
  intros H1 H2 N1 N2 E.
  destruct (reads_prefix _ _ _ _ H1 N1) as [[S1 P1]|[[S1 P1]|(c1 & E1 & O1)]];
    destruct (reads_prefix _ _ _ _ H2 N2) as [[S2 P2]|[[S2 P2]|(c2 & E2 & O2)]].
  - rewrite E in P1. rewrite P1 in P2. now inversion P2.
  - exfalso. rewrite E in S1. destruct (l2 ++ r2) as [|c s]; [discriminate|].
    unfold starts in *. simpl in *.
    destruct (char_kinds c) as [Hd _]. destruct (Hd S1) as (Hn & _).
    congruence.
  - exfalso. subst l2. rewrite E in S1. unfold starts in S1. simpl in S1.
    destruct (char_kinds c2) as [Hd _]. destruct (Hd S1) as (_ & Ho & _).
    congruence.
  - exfalso. rewrite <- E in S2. destruct (l1 ++ r1) as [|c s]; [discriminate|].
    unfold starts in *. simpl in *.
    destruct (char_kinds c) as [Hd _]. destruct (Hd S2) as (Hn & _).
    congruence.
  - rewrite E in P1. rewrite P1 in P2. now inversion P2.
  - exfalso. subst l2. rewrite E in S1. unfold starts in S1. simpl in S1.
    destruct (char_kinds c2) as (_ & Hn & _). destruct (Hn S1) as (Ho & _).
    congruence.
  - exfalso. subst l1. rewrite <- E in S2. unfold starts in S2. simpl in S2.
    destruct (char_kinds c1) as [Hd _]. destruct (Hd S2) as (_ & Ho & _).
    congruence.
  - exfalso. subst l1. rewrite <- E in S2. unfold starts in S2. simpl in S2.
    destruct (char_kinds c1) as (_ & Hn & _). destruct (Hn S2) as (Ho & _).
    congruence.
  - subst l1 l2. simpl in E. inversion E. auto.
Qed.

(** A lexeme starts with a character that is no white space and starts no
    comment. *)
Lemma reads_token_start `{Host} (l r : string) (k : TokenType) (v : tokval) :
  reads l r k v -> l <> "" -> token_start (l ++ r) = true.
Proof.
  intros Hr Hne.
  destruct Hr as [l r n Hs Ha Hst Hn|l r Hs Ha Hst|c r k Hop Hsl|].
  - destruct l as [|c l]; [discriminate|]. unfold starts in Hs. simpl in *.
    destruct (char_kinds c) as [Hd _].
    destruct (Hd Hs) as (_ & _ & Hsp & Hsl). now rewrite Hsp, Hsl.
  - destruct l as [|c l]; [discriminate|]. unfold starts in Hs. simpl in *.
    destruct (char_kinds c) as (_ & Hn & _).
    destruct (Hn Hs) as (_ & Hsp & Hsl). now rewrite Hsp, Hsl.
  - simpl. destruct (char_kinds c) as (_ & _ & Ho).
    rewrite Ho by congruence. simpl.
    apply negb_true_iff. exact Hsl.
  - congruence.
Qed.

(** Two ways to read the same source as gaps and lexemes give the same
    tokens, up to what the relation [R] leaves open. *)
Lemma tiled_determined `{Host}
  (R : nat * nat -> string -> string -> Token -> Prop)
  (same : Token -> Token -> Prop) :
  (forall start l r t, R start l r t -> reads l r (type t) (value t)) ->
  (forall start l r t t', R start l r t -> R start l r t' -> same t t') ->
  forall start source tokens,
    tiled R start source tokens ->
    forall tokens', tiled R start source tokens' ->
    Forall2 same tokens tokens'.
Proof.
  intros Hreads Hsame start source tokens H1.
  induction H1 as [start skipped t Hb Ht HR
                  |start skipped lexeme rest t ts Hg Ht Hne HR Hrest IH];
    intros tokens' H2.
  - remember skipped as source eqn:Es in H2.
    destruct H2 as [start skipped' t' Hb' Ht' HR'
                   |start skipped' lexeme' rest' t' ts' Hg' Ht' Hne' HR' Hrest'].
    + subst skipped'. constructor; [|constructor]. eapply Hsame; eauto.
    + exfalso.
      pose proof (after_gap_blank false skipped Hb) as E1.
      rewrite <- Es in E1.
      rewrite (after_gap_app false skipped' (lexeme' ++ rest') Hg') in E1.
      * apply append_empty in E1. destruct E1. contradiction.
      * eapply reads_token_start; eauto.
  - remember (skipped ++ lexeme ++ rest) as source eqn:Es in H2.
    destruct H2 as [start skipped' t' Hb' Ht' HR'
                   |start skipped' lexeme' rest' t' ts' Hg' Ht' Hne' HR' Hrest'].
    + exfalso.
      pose proof (after_gap_blank false skipped' Hb') as E1.
      rewrite Es in E1.
      rewrite (after_gap_app false skipped (lexeme ++ rest) Hg) in E1.
      * apply append_empty in E1. destruct E1. contradiction.
      * eapply reads_token_start; eauto.
    + pose proof (f_equal (after_gap false) Es) as E1.
      rewrite (after_gap_app false skipped' (lexeme' ++ rest') Hg') in E1
        by (eapply reads_token_start; eauto).
      rewrite (after_gap_app false skipped (lexeme ++ rest) Hg) in E1
        by (eapply reads_token_start; eauto).
      destruct (reads_unique _ _ _ _ _ _ _ _ (Hreads _ _ _ _ HR')
                  (Hreads _ _ _ _ HR) Hne' Hne E1) as [El Er].
      subst lexeme' rest'.
      apply append_cancel_r in Es. subst skipped'.
      constructor; [eapply Hsame; eauto|]. now apply IH.
Qed.

Lemma token_eq (t t' : Token) :
  type t = type t' -> value t = value t' ->
  (tline t, tcolumn t) = (tline t', tcolumn t') -> t = t'.
Proof.
  destruct t, t'. simpl. intros -> -> E. now inversion E.
Qed.

Lemma Forall2_eq {A : Type} (l l' : list A) : Forall2 eq l l' -> l = l'.
Proof. induction 1; congruence. Qed.

Lemma Forall2_map_eq {A B : Type} (f : A -> B) (l l' : list A) :
  Forall2 (fun a a' => f a = f a') l l' -> map f l = map f l'.
Proof. induction 1; simpl; congruence. Qed.

Lemma chain_fails_rejects `{Host} (lx : Lexer) (ts : list Token) (lx' : Lexer)
  (e : exn) :
  chain_fails lx ts lx' e -> wf lx ->
  exists consumed rest,
    unread lx = consumed ++ rest
    /\ rejects (position_after consumed (position lx)) rest e.
Proof.
  induction 1 as [lx e E|lx t lx1 ts lx' e E Ht Hc IH]; intros Hwf;
    pose proof (get_next_token_scan lx Hwf) as Hs; rewrite E in Hs.
  - destruct Hs as (skipped & rest & Hu & _ & Hr). eauto.
  - destruct Hs as (skipped & lexeme & Hp & _ & _ & _ & _ & Hpos).
    destruct IH as (consumed & rest & Hu & Hr); [apply Hp|].
    exists ((skipped ++ lexeme) ++ consumed), rest. split.
    + destruct Hp as (_ & _ & ->). now rewrite Hu, !append_assoc.
    + now rewrite position_after_app, <- Hpos.
Qed.

(** X1. When [tokenize] succeeds, its tokens account for the whole source
    text, in order: the source is a gap (white space and [//] comments, each
    comment ended by its newline), a lexeme, a gap, a lexeme and so on, and
    then blank text to its end (where a last comment may lack its newline);
    each token but the last is what its lexeme reads as (the longest run of
    digits and dots from a digit on as a number, the longest run of name
    characters from a letter or an underscore on as a name or, when spelled
    [let] or [print], as that keyword, one operator character as that
    operator), and the last token is EOF for the end of the text.  The
    source can be read so in one way only: any list of tokens that stands in
    this relation to the source has the types and values of the tokens of
    [tokenize], in the same order. *)
Theorem tokens_cover_source (H : Host) (source : string)
  (tokens : list Token) (lx : Lexer) :
  tokenize (Lexer_init source) = Ok (tokens, lx) ->
  tiled (fun _ lexeme rest t => reads lexeme rest (type t) (value t))
        (1%nat, 1%nat) source tokens
  /\ forall tokens',
       tiled (fun _ lexeme rest t => reads lexeme rest (type t) (value t))
             (1%nat, 1%nat) source tokens' ->
       map spelled tokens' = map spelled tokens.
Proof.
  intros E. apply tokenize_chain in E.
  apply chain_tiled in E; [|apply Lexer_init_wf].
  assert (Ht : tiled (fun _ lexeme rest t =>
                        reads lexeme rest (type t) (value t))
                     (1%nat, 1%nat) source tokens).
  { revert E. apply tiled_impl. now intros start lexeme rest t [Hr _]. }
  split; [exact Ht|]. intros tokens' Ht'. symmetry.
  apply Forall2_map_eq.
  apply (tiled_determined
           (fun _ lexeme rest t => reads lexeme rest (type t) (value t))
           (fun t t' => spelled t = spelled t')) with (1%nat, 1%nat) source;
    auto.
  intros start l r t t' Hr Hr'. unfold spelled.
  destruct (reads_functional _ _ _ _ _ _ Hr Hr') as [-> ->]. reflexivity.
Qed.

Lemma tokens_cover_source_witness :
  tokenize (Lexer_init sample_text) = Ok (sample_tokens, sample_text_end)
  /\ tiled (fun _ lexeme rest t => reads lexeme rest (type t) (value t))
           (1%nat, 1%nat) sample_text sample_tokens.
Proof.
  assert (E : tokenize (Lexer_init sample_text)
              = Ok (sample_tokens, sample_text_end))
    by (vm_compute; reflexivity).
  split; [exact E|].
  exact (proj1 (tokens_cover_source cpython sample_text sample_tokens
                                    sample_text_end E)).
Defined.

(** X2. When [tokenize] succeeds, every token has the line and the column
    of the first character of its lexeme in the source, counted from line 1,
    column 1, a newline starting the next line at column 1 and any other
    character taking one column; the lexemes are the ones that the tokens
    are read from, each right after the gap that follows the lexeme before
    it, and the token EOF has the position after the last character of the
    text.  This fixes the tokens altogether: the list that [tokenize]
    returns is the only list of tokens that stands in this relation to the
    source. *)
Theorem token_positions (H : Host) (source : string)
  (tokens : list Token) (lx : Lexer) :
  tokenize (Lexer_init source) = Ok (tokens, lx) ->
  tiled reads_at (1%nat, 1%nat) source tokens
  /\ forall tokens',
       tiled reads_at (1%nat, 1%nat) source tokens' -> tokens' = tokens.
Proof.
  intros E. apply tokenize_chain in E.
  apply chain_tiled in E; [|apply Lexer_init_wf].
  split; [exact E|]. intros tokens' Ht'. symmetry.
  apply Forall2_eq.
  apply (tiled_determined reads_at eq) with (1%nat, 1%nat) source; auto.
  - now intros start l r t [Hr _].
  - intros start l r t t' [Hr Hp] [Hr' Hp'].
    destruct (reads_functional _ _ _ _ _ _ Hr Hr') as [Ek Ev].
    apply token_eq; congruence.
Qed.

Lemma token_positions_witness :
  tokenize (Lexer_init sample_text) = Ok (sample_tokens, sample_text_end)
  /\ tiled reads_at (1%nat, 1%nat) sample_text sample_tokens.
Proof.
  assert (E : tokenize (Lexer_init sample_text)
              = Ok (sample_tokens, sample_text_end))
    by (vm_compute; reflexivity).
  split; [exact E|].
  exact (proj1 (token_positions cpython sample_text sample_tokens
                                sample_text_end E)).
Defined.

(** X3. When [tokenize] raises, it does so at a place in the source: after
    some consumed prefix, the rest either starts with a character that
    starts no token, and the error is the lexer's "Invalid character" with
    the line and the column of that character; or it starts with a run of
    digits and dots that is no number, and the error is the [ValueError] of
    the conversion, without a position. *)
Theorem lexer_error_position (H : Host) (source : string) (e : exn) :
  tokenize (Lexer_init source) = Raise e ->
  exists consumed rest,
    source = consumed ++ rest
    /\ rejects (position_after consumed (1%nat, 1%nat)) rest e.
Proof.
  intros E. apply tokenize_chain_fails in E. destruct E as (ts & lx' & Hc).
  exact (chain_fails_rejects _ _ _ _ Hc (Lexer_init_wf source)).
Qed.

Lemma lexer_error_position_witness :
  tokenize (Lexer_init sample_bad_text)
  = Raise (Exception "Lexer error at line 2, column 5: Invalid character '$'")
  /\ exists consumed rest,
       sample_bad_text = consumed ++ rest
       /\ rejects (position_after consumed (1%nat, 1%nat)) rest
                  (Exception
                     "Lexer error at line 2, column 5: Invalid character '$'").
Proof.
  assert (E : tokenize (Lexer_init sample_bad_text)
              = Raise (Exception
                  "Lexer error at line 2, column 5: Invalid character '$'"))
    by (vm_compute; reflexivity).
  split; [exact E|].
  exact (lexer_error_position cpython sample_bad_text _ E).
Defined.

(** * Further properties of the parser *)

(** ** The tokens that the parser sees *)

Lemma operator_text (ch : ascii) (k : TokenType) :
  operator ch = Some k ->
  match k with
  | PLUS => ch = "+"%char | MINUS => ch = "-"%char
  | MUL => ch = "*"%char | DIV => ch = "/"%char
  | ASSIGN => ch = "="%char | LPAREN => ch = "("%char
  | RPAREN => ch = ")"%char | SEMI => ch = ";"%char
  | _ => False
  end.
Proof.
  unfold operator.
  repeat match goal with
         | |- context [if Ascii.eqb ?a ?b then _ else _] =>
             let E := fresh "E" in
             destruct (Ascii.eqb a b) eqn:E;
             [apply Ascii.eqb_eq in E; intros Hk; inversion Hk; exact E|]
         end.
  discriminate.
Qed.

Lemma reads_lexed `{Host} (lexeme rest : string) (t : Token) :
  reads lexeme rest (type t) (value t) -> lexed t.
Proof.
  unfold lexed. intros Hr.
  remember (type t) as k eqn:Ek. remember (value t) as v eqn:Ev.
  destruct Hr as [lexeme rest n _ _ _ _|lexeme rest _ _ _|ch rest k Hop _|].
  - eauto.
  - unfold keywords_get in *.
    destruct (String.eqb lexeme "let") eqn:E1.
    + apply String.eqb_eq in E1. now subst lexeme.
    + destruct (String.eqb lexeme "print") eqn:E2.
      * apply String.eqb_eq in E2. now subst lexeme.
      * exists lexeme. now rewrite E1, E2.
  - apply operator_text in Hop.
    destruct k; try contradiction; now subst ch.
  - reflexivity.
Qed.

(** The value of a token is the one that its type announces. *)
Lemma get_next_token_lexed `{Host} (lx lx' : Lexer) (t : Token) :
  wf lx -> get_next_token lx = Ok (t, lx') -> wf lx' /\ lexed t.
Proof.
  intros Hwf E. pose proof (get_next_token_scan lx Hwf) as Hs.
  rewrite E in Hs. destruct Hs as (skipped & lexeme & Hp & _ & _ & Hr & _).
  split; [apply Hp|]. eapply reads_lexed; eauto.
Qed.

Lemma Parser_init_ready `{Host} (lx : Lexer) (p : Parser) :
  wf lx -> Parser_init lx = Ok p ->
  ready p /\ get_next_token lx = Ok (current_token p, lexer p).
Proof.
  unfold Parser_init. intros Hwf E.
  destruct (get_next_token lx) as [[t lx']| |] eqn:Eg; try discriminate.
  simpl in E. inversion E; subst p. simpl. split; [|reflexivity].
  exact (get_next_token_lexed lx lx' t Hwf Eg).
Qed.

Lemma eat_step `{Host} (p p1 : Parser) (k : TokenType) :
  ready p -> eat p k = Ok p1 ->
  type (current_token p) = k
  /\ spells p [spelled (current_token p)] p1
  /\ ready p1.
Proof.
  intros [Hwf _] E. unfold eat in E.
  destruct (TokenType_eqb (type (current_token p)) k) eqn:Ek;
    [|discriminate].
  apply TokenType_eqb_eq in Ek. split; [exact Ek|].
  split.
  - apply spells_cons with p1; [reflexivity|exact E|constructor].
  - destruct (get_next_token (lexer p)) as [[t lx']| |] eqn:Eg;
      try discriminate.
    simpl in E. inversion E; subst p1.
    exact (get_next_token_lexed _ _ _ Hwf Eg).
Qed.

Lemma spells_trans `{Host} (p p1 p' : Parser) (a b : list spelling) :
  spells p a p1 -> spells p1 b p' -> spells p (a ++ b)%list p'.
Proof.
  induction 1 as [|p p0 p1 k ks Hk Hsh Hs IH]; intros Hb; simpl; auto.
  apply spells_cons with p0; auto.
Qed.

(** ** The parser accepts only the grammar *)

Lemma factor_with_sound `{Host} (inner : parsing ExprNode) :
  sound_at 0 inner -> sound_at 2 (factor_with inner).
Proof.
  intros Hin p e p' Hr E. unfold factor_with in E.
  pose proof (proj2 Hr) as Hl. unfold lexed in Hl.
  destruct (type (current_token p)) eqn:Et; try discriminate.
  - destruct (eat p NUMBER) as [p1| |] eqn:E1; try discriminate.
    simpl in E. inversion E; subst e p1.
    destruct (eat_step p p' NUMBER Hr E1) as (_ & Hs & Hr').
    destruct Hl as [n Hv]. unfold spelled in Hs. rewrite Et, Hv in Hs.
    exists [(NUMBER, NumValue n)]. repeat split; try apply Hr'; auto.
    unfold token_number. rewrite Hv. constructor.
  - destruct (eat p ID) as [p1| |] eqn:E1; try discriminate.
    simpl in E. inversion E; subst e p1.
    destruct (eat_step p p' ID Hr E1) as (_ & Hs & Hr').
    destruct Hl as (x & Hv & _). unfold spelled in Hs. rewrite Et, Hv in Hs.
    exists [(ID, StrValue x)]. repeat split; try apply Hr'; auto.
    unfold token_text. rewrite Hv. constructor.
  - destruct (eat p LPAREN) as [p1| |] eqn:E1; try discriminate.
    cbn [bind] in E.
    destruct (eat_step p p1 LPAREN Hr E1) as (_ & Hs1 & Hr1).
    destruct (inner p1) as [[node p2]| |] eqn:E2; try discriminate.
    cbn [bind] in E.
    destruct (Hin p1 node p2 Hr1 E2) as (ks & Hs2 & Hd & Hr2).
    destruct (eat p2 RPAREN) as [p3| |] eqn:E3; try discriminate.
    simpl in E. inversion E; subst e p3.
    destruct (eat_step p2 p' RPAREN Hr2 E3) as (Et3 & Hs3 & Hr3).
    pose proof (proj2 Hr2) as Hl2. unfold lexed in Hl2. rewrite Et3 in Hl2.
    unfold spelled in Hs1, Hs3. rewrite Et, Hl in Hs1. rewrite Et3, Hl2 in Hs3.
    exists ((LPAREN, StrValue "(") :: ks ++ [(RPAREN, StrValue ")")])%list.
    split; [|split; [now constructor|exact Hr3]].
    apply (spells_trans _ _ _ [_] _ Hs1).
    now apply spells_trans with p2.
Qed.

Lemma term_loop_sound `{Host} (f : parsing ExprNode) :
  sound_at 2 f ->
  forall fuel node p e p' ks0,
    ready p -> derives 1 ks0 node ->
    term_loop f fuel node p = Ok (e, p') ->
    exists ks, spells p ks p' /\ derives 1 (ks0 ++ ks)%list e /\ ready p'.
Proof.
  intros Hf. induction fuel as [|fuel IH];
    intros node p e p' ks0 Hr Hd E; [discriminate|].
  simpl in E. pose proof (proj2 Hr) as Hl. unfold lexed in Hl.
  destruct (type (current_token p)) eqn:Et;
    try (inversion E; subst; exists []; rewrite app_nil_r;
         split; [constructor|split; [exact Hd|exact Hr]]).
  - destruct (eat p MUL) as [p1| |] eqn:E1; try discriminate.
    cbn [bind] in E.
    destruct (eat_step p p1 MUL Hr E1) as (_ & Hs1 & Hr1).
    destruct (f p1) as [[right_node p2]| |] eqn:E2; try discriminate.
    cbn [bind] in E.
    destruct (Hf p1 right_node p2 Hr1 E2) as (ks2 & Hs2 & Hd2 & Hr2).
    unfold token_text in E. rewrite Hl in E.
    unfold spelled in Hs1. rewrite Et, Hl in Hs1.
    destruct (IH _ _ _ _ (ks0 ++ operator_token "*" :: ks2)%list Hr2
                 (derives_product _ _ _ _ "*" Hd eq_refl Hd2) E)
      as (ks & Hs & Hd' & Hr').
    exists ((MUL, StrValue "*") :: ks2 ++ ks)%list.
    split; [|split; [|exact Hr']].
    + apply (spells_trans _ _ _ [_] _ Hs1).
      now apply spells_trans with p2.
    + rewrite <- app_assoc in Hd'. exact Hd'.
  - destruct (eat p DIV) as [p1| |] eqn:E1; try discriminate.
    cbn [bind] in E.
    destruct (eat_step p p1 DIV Hr E1) as (_ & Hs1 & Hr1).
    destruct (f p1) as [[right_node p2]| |] eqn:E2; try discriminate.
    cbn [bind] in E.
    destruct (Hf p1 right_node p2 Hr1 E2) as (ks2 & Hs2 & Hd2 & Hr2).
    unfold token_text in E. rewrite Hl in E.
    unfold spelled in Hs1. rewrite Et, Hl in Hs1.
    destruct (IH _ _ _ _ (ks0 ++ operator_token "/" :: ks2)%list Hr2
                 (derives_product _ _ _ _ "/" Hd eq_refl Hd2) E)
      as (ks & Hs & Hd' & Hr').
    exists ((DIV, StrValue "/") :: ks2 ++ ks)%list.
    split; [|split; [|exact Hr']].
    + apply (spells_trans _ _ _ [_] _ Hs1).
      now apply spells_trans with p2.
    + rewrite <- app_assoc in Hd'. exact Hd'.
Qed.

Lemma term_with_sound `{Host} (f : parsing ExprNode) (fuel : nat) :
  sound_at 2 f -> sound_at 1 (term_with f fuel).
Proof.
  intros Hf p e p' Hr E. unfold term_with in E.
  destruct (f p) as [[node p1]| |] eqn:E1; try discriminate.
  cbn [bind] in E.
  destruct (Hf p node p1 Hr E1) as (ks1 & Hs1 & Hd1 & Hr1).
  destruct (term_loop_sound f Hf fuel node p1 e p' ks1 Hr1
                            (derives_factor _ _ Hd1) E)
    as (ks & Hs & Hd & Hr').
  exists (ks1 ++ ks)%list. split; [|split; auto].
  now apply spells_trans with p1.
Qed.

Lemma expr_loop_sound `{Host} (t : parsing ExprNode) :
  sound_at 1 t ->
  forall fuel node p e p' ks0,
    ready p -> derives 0 ks0 node ->
    expr_loop t fuel node p = Ok (e, p') ->
    exists ks, spells p ks p' /\ derives 0 (ks0 ++ ks)%list e /\ ready p'.
Proof.
  intros Ht. induction fuel as [|fuel IH];
    intros node p e p' ks0 Hr Hd E; [discriminate|].
  simpl in E. pose proof (proj2 Hr) as Hl. unfold lexed in Hl.
  destruct (type (current_token p)) eqn:Et;
    try (inversion E; subst; exists []; rewrite app_nil_r;
         split; [constructor|split; [exact Hd|exact Hr]]).
  - destruct (eat p PLUS) as [p1| |] eqn:E1; try discriminate.
    cbn [bind] in E.
    destruct (eat_step p p1 PLUS Hr E1) as (_ & Hs1 & Hr1).
    destruct (t p1) as [[right_node p2]| |] eqn:E2; try discriminate.
    cbn [bind] in E.
    destruct (Ht p1 right_node p2 Hr1 E2) as (ks2 & Hs2 & Hd2 & Hr2).
    unfold token_text in E. rewrite Hl in E.
    unfold spelled in Hs1. rewrite Et, Hl in Hs1.
    destruct (IH _ _ _ _ (ks0 ++ operator_token "+" :: ks2)%list Hr2
                 (derives_sum _ _ _ _ "+" Hd eq_refl Hd2) E)
      as (ks & Hs & Hd' & Hr').
    exists ((PLUS, StrValue "+") :: ks2 ++ ks)%list.
    split; [|split; [|exact Hr']].
    + apply (spells_trans _ _ _ [_] _ Hs1).
      now apply spells_trans with p2.
    + rewrite <- app_assoc in Hd'. exact Hd'.
  - destruct (eat p MINUS) as [p1| |] eqn:E1; try discriminate.
    cbn [bind] in E.
    destruct (eat_step p p1 MINUS Hr E1) as (_ & Hs1 & Hr1).
    destruct (t p1) as [[right_node p2]| |] eqn:E2; try discriminate.
    cbn [bind] in E.
    destruct (Ht p1 right_node p2 Hr1 E2) as (ks2 & Hs2 & Hd2 & Hr2).
    unfold token_text in E. rewrite Hl in E.
    unfold spelled in Hs1. rewrite Et, Hl in Hs1.
    destruct (IH _ _ _ _ (ks0 ++ operator_token "-" :: ks2)%list Hr2
                 (derives_sum _ _ _ _ "-" Hd eq_refl Hd2) E)
      as (ks & Hs & Hd' & Hr').
    exists ((MINUS, StrValue "-") :: ks2 ++ ks)%list.
    split; [|split; [|exact Hr']].
    + apply (spells_trans _ _ _ [_] _ Hs1).
      now apply spells_trans with p2.
    + rewrite <- app_assoc in Hd'. exact Hd'.
Qed.

Lemma expr_sound `{Host} (fuel : nat) : sound_at 0 (expr fuel).
Proof.
  induction fuel as [|fuel IH]; intros p e p' Hr E; [discriminate|].
  simpl in E.
  pose proof (term_with_sound _ fuel (factor_with_sound _ IH)) as Ht.
  destruct (term_with (factor_with (expr fuel)) fuel p)
    as [[node p1]| |] eqn:E1; try discriminate.
  cbn [bind] in E.
  destruct (Ht p node p1 Hr E1) as (ks1 & Hs1 & Hd1 & Hr1).
  destruct (expr_loop_sound _ Ht fuel node p1 e p' ks1 Hr1
                            (derives_term _ _ Hd1) E)
    as (ks & Hs & Hd & Hr').
  exists (ks1 ++ ks)%list. split; [|split; auto].
  now apply spells_trans with p1.
Qed.

Lemma statement_sound `{Host} (fuel : nat) (p : Parser) (s : StmtNode)
  (p' : Parser) :
  ready p -> statement fuel p = Ok (s, p') ->
  exists ks, spells p ks p' /\ derives_statement ks s /\ ready p'.
Proof.
  intros Hr E. unfold statement in E.
  pose proof (proj2 Hr) as Hl. unfold lexed in Hl.
  destruct (type (current_token p)) eqn:Et; try discriminate.
  - unfold assignment in E.
    destruct (eat p LET) as [p1| |] eqn:E1; try discriminate.
    cbn [bind] in E.
    destruct (eat_step p p1 LET Hr E1) as (_ & Hs1 & Hr1).
    destruct (eat p1 ID) as [p2| |] eqn:E2; try discriminate.
    cbn [bind] in E.
    destruct (eat_step p1 p2 ID Hr1 E2) as (Et1 & Hs2 & Hr2).
    destruct (eat p2 ASSIGN) as [p3| |] eqn:E3; try discriminate.
    cbn [bind] in E.
    destruct (eat_step p2 p3 ASSIGN Hr2 E3) as (Et2 & Hs3 & Hr3).
    destruct (expr fuel p3) as [[expr_node p4]| |] eqn:E4; try discriminate.
    cbn [bind] in E.
    destruct (expr_sound fuel p3 expr_node p4 Hr3 E4) as (ks & Hs4 & Hd & Hr4).
    destruct (eat p4 SEMI) as [p5| |] eqn:E5; try discriminate.
    simpl in E. inversion E; subst s p5.
    destruct (eat_step p4 p' SEMI Hr4 E5) as (Et4 & Hs5 & Hr5).
    pose proof (proj2 Hr1) as Hl1. pose proof (proj2 Hr2) as Hl2.
    pose proof (proj2 Hr4) as Hl4. unfold lexed in Hl1, Hl2, Hl4.
    rewrite Et1 in Hl1. rewrite Et2 in Hl2. rewrite Et4 in Hl4.
    destruct Hl1 as (x & Hv1 & _).
    unfold spelled in *. rewrite Et, Hl in Hs1. rewrite Et1, Hv1 in Hs2.
    rewrite Et2, Hl2 in Hs3. rewrite Et4, Hl4 in Hs5.
    unfold token_text. rewrite Hv1.
    eexists. split; [|split; [apply derives_assignment; exact Hd|exact Hr5]].
    apply (spells_trans _ _ _ [_] _ Hs1).
    apply (spells_trans _ _ _ [_] _ Hs2).
    apply (spells_trans _ _ _ [_] _ Hs3).
    now apply spells_trans with p4.
  - unfold print_stmt in E.
    destruct (eat p PRINT) as [p1| |] eqn:E1; try discriminate.
    cbn [bind] in E.
    destruct (eat_step p p1 PRINT Hr E1) as (_ & Hs1 & Hr1).
    destruct (eat p1 LPAREN) as [p2| |] eqn:E2; try discriminate.
    cbn [bind] in E.
    destruct (eat_step p1 p2 LPAREN Hr1 E2) as (Et1 & Hs2 & Hr2).
    destruct (expr fuel p2) as [[expr_node p3]| |] eqn:E3; try discriminate.
    cbn [bind] in E.
    destruct (expr_sound fuel p2 expr_node p3 Hr2 E3) as (ks & Hs3 & Hd & Hr3).
    destruct (eat p3 RPAREN) as [p4| |] eqn:E4; try discriminate.
    cbn [bind] in E.
    destruct (eat_step p3 p4 RPAREN Hr3 E4) as (Et3 & Hs4 & Hr4).
    destruct (eat p4 SEMI) as [p5| |] eqn:E5; try discriminate.
    simpl in E. inversion E; subst s p5.
    destruct (eat_step p4 p' SEMI Hr4 E5) as (Et4 & Hs5 & Hr5).
    pose proof (proj2 Hr1) as Hl1. pose proof (proj2 Hr3) as Hl3.
    pose proof (proj2 Hr4) as Hl4. unfold lexed in Hl1, Hl3, Hl4.
    rewrite Et1 in Hl1. rewrite Et3 in Hl3. rewrite Et4 in Hl4.
    unfold spelled in *. rewrite Et, Hl in Hs1. rewrite Et1, Hl1 in Hs2.
    rewrite Et3, Hl3 in Hs4. rewrite Et4, Hl4 in Hs5.
    eexists. split; [|split; [apply derives_print; exact Hd|exact Hr5]].
    apply (spells_trans _ _ _ [_] _ Hs1).
    apply (spells_trans _ _ _ [_] _ Hs2).
    apply (spells_trans _ _ _ _ _ Hs3).
    apply (spells_trans _ _ _ [_] _ Hs4). exact Hs5.
Qed.

Lemma program_loop_sound `{Host} (fuel : nat) :
  forall (done : list StmtNode) (p : Parser) (all : list StmtNode)
         (p' : Parser),
    ready p -> program_loop fuel done p = Ok (ProgramNode all, p') ->
    exists ks statements,
      all = (done ++ statements)%list
      /\ spells p ks p' /\ derives_program ks statements
      /\ ready p' /\ type (current_token p') = EOF.
Proof.
  induction fuel as [|fuel IH]; intros done p all p' Hr E; [discriminate|].
  simpl in E.
  destruct (TokenType_eqb (type (current_token p)) EOF) eqn:Et; simpl in E.
  - apply TokenType_eqb_eq in Et. inversion E; subst all p'.
    exists [], []. rewrite app_nil_r.
    repeat split; try apply Hr; auto; constructor.
  - destruct (statement fuel p) as [[s p1]| |] eqn:E1; try discriminate.
    cbn [bind] in E.
    destruct (statement_sound fuel p s p1 Hr E1) as (ks1 & Hs1 & Hd1 & Hr1).
    destruct (IH _ _ _ _ Hr1 E) as (ks & rest & -> & Hs & Hd & Hr' & Heof).
    exists (ks1 ++ ks)%list, (s :: rest). rewrite <- app_assoc.
    split; [reflexivity|]. split; [now apply spells_trans with p1|].
    split; [now constructor|auto].
Qed.

(** ** The tokens of the parser are those of [tokenize] *)

Lemma chain_unique `{Host} (lx : Lexer) (a : list Token) (la : Lexer) :
  chain lx a la -> forall b lb, chain lx b lb -> a = b /\ la = lb.
Proof.
  induction 1 as [lx t lx' E Ht|lx t lx1 ts lx' E Ht Hc IH];
    intros b lb Hb; inversion Hb as [? t' ? E' Ht'|? t' lx1' ts' ? E' Ht' Hc'];
    subst; rewrite E in E'; inversion E'; subst; try congruence; auto.
  destruct (IH _ _ Hc') as [-> ->]. auto.
Qed.

Lemma chain_not_fails `{Host} (lx : Lexer) (a : list Token) (la : Lexer) :
  chain lx a la -> forall b lb e, chain_fails lx b lb e -> False.
Proof.
  induction 1 as [lx t lx' E Ht|lx t lx1 ts lx' E Ht Hc IH];
    intros b lb e Hb; inversion Hb as [? ? E'|? t' lx1' ts' ? ? E' Ht' Hc'];
    subst; rewrite E in E'; inversion E'; subst; try congruence.
  eapply IH; eauto.
Qed.

Lemma chain_tokenize `{Host} (lx : Lexer) (tokens : list Token) (lx' : Lexer) :
  wf lx -> chain lx tokens lx' -> tokenize lx = Ok (tokens, lx').
Proof.
  intros Hwf Hc. pose proof (tokenize_ends lx Hwf) as He.
  destruct (tokenize lx) as [[tokens2 lx2]|e|] eqn:E; [| |contradiction].
  - apply tokenize_chain in E.
    now destruct (chain_unique _ _ _ Hc _ _ E) as [-> ->].
  - apply tokenize_chain_fails in E. destruct E as (ts & lx1 & Hf).
    exfalso. eapply chain_not_fails; eauto.
Qed.

Lemma spells_chain `{Host} (p : Parser) (ks : list spelling) (p' : Parser) :
  spells p ks p' ->
  forall lx,
    get_next_token lx = Ok (current_token p, lexer p) ->
    Forall (fun k => fst k <> EOF) ks ->
    type (current_token p') = EOF ->
    exists tokens,
      chain lx tokens (lexer p')
      /\ map spelled tokens = (ks ++ [spelled (current_token p')])%list.
Proof.
  induction 1 as [p|p p0 p1 k ks Hk Hsh Hs IH]; intros lx Eg Hne Heof.
  - exists [current_token p]. split; [now constructor|reflexivity].
  - inversion Hne as [|? ? Hk1 Hks]; subst.
    unfold shift in Hsh.
    destruct (get_next_token (lexer p)) as [[t1 lx1]| |] eqn:E1;
      try discriminate.
    simpl in Hsh. inversion Hsh; subst p0.
    destruct (IH (lexer p) E1 Hks Heof) as (tokens & Hc & Hm).
    exists (current_token p :: tokens). split.
    + now apply chain_more with (lexer p).
    + simpl. now rewrite Hm.
Qed.

Lemma derives_not_EOF (lvl : nat) (ks : list spelling) (e : ExprNode) :
  derives lvl ks e -> Forall (fun k => fst k <> EOF) ks.
Proof.
  induction 1 as [n|x|ks e Hd IH|ks e Hd IH|ks1 ks2 l r op H1 IH1 Hop H2 IH2
                 |ks e Hd IH|ks1 ks2 l r op H1 IH1 Hop H2 IH2]; auto.
  - repeat constructor. discriminate.
  - repeat constructor. discriminate.
  - constructor; [discriminate|]. apply Forall_app. split; [exact IH|].
    repeat constructor. discriminate.
  - apply Forall_app. split; [exact IH1|].
    constructor; [apply operator_token_not_EOF|exact IH2].
  - apply Forall_app. split; [exact IH1|].
    constructor; [apply operator_token_not_EOF|exact IH2].
Qed.

Lemma derives_program_not_EOF (ks : list spelling) (statements : list StmtNode) :
  derives_program ks statements -> Forall (fun k => fst k <> EOF) ks.
Proof.
  induction 1 as [|ks kss s rest Hs Hp IH]; [constructor|].
  apply Forall_app. split; [|exact IH].
  destruct Hs as [x ks e Hd|ks e Hd]; apply derives_not_EOF in Hd.
  - do 3 (constructor; [discriminate|]). apply Forall_app. split; [exact Hd|].
    repeat constructor. discriminate.
  - do 2 (constructor; [discriminate|]). apply Forall_app. split; [exact Hd|].
    repeat constructor; discriminate.
Qed.

(** X4. The parser accepts only the grammar of its module.  When a source
    parses, [tokenize] succeeds on it too, its tokens are the ones that the
    parser has read, the last of them, EOF, included; and the tokens before
    EOF are a [program] of the grammar,
      program : statement*,  statement : assignment | print_stmt,
      assignment : LET ID ASSIGN expr SEMI,
      print_stmt : PRINT LPAREN expr RPAREN SEMI,
      expr : term ((PLUS | MINUS) term)*,  term : factor ((MUL | DIV) factor)*,
      factor : NUMBER | ID | LPAREN expr RPAREN,
    whose tree, chains of operators nesting to the left, is the one that
    [parse] returns.  Nothing of the source is left unparsed. *)
Theorem parse_sound (H : Host) (source : string) (statements : list StmtNode) :
  parse_source source = Ok (ProgramNode statements) ->
  exists tokens lx ks,
    tokenize (Lexer_init source) = Ok (tokens, lx)
    /\ map spelled tokens = (ks ++ [(EOF, NoValue)])%list
    /\ derives_program ks statements.
Proof.
  unfold parse_source. intros E.
  destruct (Parser_init (Lexer_init source)) as [p| |] eqn:Ei;
    try discriminate.
  cbn [bind] in E.
  destruct (parse p) as [[ast p']| |] eqn:Ep; try discriminate.
  simpl in E. inversion E; subst ast.
  destruct (Parser_init_ready _ _ (Lexer_init_wf source) Ei) as [Hr Eg].
  unfold parse, program in Ep.
  destruct (program_loop_sound _ _ _ _ _ Hr Ep)
    as (ks & sts & Hall & Hs & Hd & Hr' & Heof).
  simpl in Hall. subst sts.
  destruct (spells_chain _ _ _ Hs _ Eg (derives_program_not_EOF _ _ Hd) Heof)
    as (tokens & Hc & Hm).
  exists tokens, (lexer p'), ks. split; [|split; [|exact Hd]].
  - apply chain_tokenize; [apply Lexer_init_wf|exact Hc].
  - rewrite Hm. unfold spelled. rewrite Heof.
    pose proof (proj2 Hr') as Hl. unfold lexed in Hl. rewrite Heof in Hl.
    now rewrite Hl.
Qed.

(** ** The parser accepts all of the grammar *)

Lemma multiplicative_not_additive (op : string) :
  multiplicative op = true -> additive op = false.
Proof.
  unfold multiplicative, additive. intros Hm.
  apply orb_prop in Hm. destruct Hm as [E|E]; apply String.eqb_eq in E;
    now subst op.
Qed.

(** With fuel enough, [factor] reads a factor of the grammar; [term] reads a
    term and is then in its loop after it; [expr] reads an expression that
    no [*] or [/] follows and is then in its loop after it. *)
Lemma derives_complete `{Host} (lvl : nat) (ks : list spelling) (e : ExprNode) :
  derives lvl ks e ->
  forall p p',
    spells p ks p' ->
    match lvl with
    | 2 => exists n, forall m, (n <= m)%nat ->
             factor_with (expr m) p = Ok (e, p')
    | 1 => exists n j, forall m k, (n <= m)%nat ->
             term_with (factor_with (expr m)) (j + k) p
             = term_loop (factor_with (expr m)) k e p'
    | 0 => is_multiplicative (type (current_token p')) = false ->
           exists n j, forall m k, (n <= m)%nat ->
             ('(node, p1) <- term_with (factor_with (expr m)) m p ;;
              expr_loop (term_with (factor_with (expr m)) m) (j + k) node p1)
             = expr_loop (term_with (factor_with (expr m)) m) k e p'
    | _ => True
    end.
Proof.
  induction 1 as [v|x|ks e Hd IH|ks e Hd IH|ks1 ks2 l r op H1 IH1 Hop H2 IH2
                 |ks e Hd IH|ks1 ks2 l r op H1 IH1 Hop H2 IH2];
    intros p p' Hs.
  - destruct (spells_one _ _ _ _ Hs) as (Ht & Hv & He).
    exists 0%nat. intros m _. unfold factor_with. rewrite Ht, He. simpl.
    unfold token_number. now rewrite Hv.
  - destruct (spells_one _ _ _ _ Hs) as (Ht & Hv & He).
    exists 0%nat. intros m _. unfold factor_with. rewrite Ht, He. simpl.
    unfold token_text. now rewrite Hv.
  - destruct (spells_eat _ _ _ _ _ Hs) as (Ht & Hv & p1 & He & Hrest).
    destruct (spells_app _ _ _ _ Hrest) as (p2 & Hbody & Hclose).
    destruct (spells_one _ _ _ _ Hclose) as (Ht2 & Hv2 & He2).
    destruct (IH p1 p2 Hbody) as (n & j & Hn); [now rewrite Ht2|].
    exists (S (n + S j))%nat. intros m Hm.
    destruct m as [|m]; [lia|].
    unfold factor_with. rewrite Ht, He. cbn [bind].
    change (expr (S m) p1)
      with ('(node, p1) <- term_with (factor_with (expr m)) m p1 ;;
            expr_loop (term_with (factor_with (expr m)) m) m node p1).
    pose proof (Hn m (S (m - j - 1)) ltac:(lia)) as E.
    replace (j + S (m - j - 1))%nat with m in E by lia.
    rewrite E, expr_loop_stop by (now rewrite Ht2).
    cbn [bind]. now rewrite He2.
  - destruct (IH p p' Hs) as [n Hn].
    exists n, 0%nat. intros m k Hm. unfold term_with.
    now rewrite (Hn m Hm).
  - destruct (spells_app _ _ _ _ Hs) as (p1 & Hl & Hrest).
    unfold operator_token in Hrest.
    destruct (spells_shift _ _ _ _ _ Hrest) as (Ht & Hv & p2 & Hsh & Hr).
    destruct (IH1 p p1 Hl) as (n1 & j & Hn1).
    destruct (IH2 p2 p' Hr) as [n2 Hn2].
    exists (n1 + n2)%nat, (S j). intros m k Hm.
    replace (S j + k)%nat with (j + S k)%nat by lia.
    rewrite Hn1 by lia.
    rewrite (term_loop_round _ k l r p1 p2 p').
    + unfold token_text. now rewrite Hv.
    + rewrite Ht.
      apply (operator_token_multiplicative op); auto.
      now apply multiplicative_not_additive.
    + exact Hsh.
    + apply Hn2. lia.
  - intros Hstop. destruct (IH p p' Hs) as (n & j & Hn).
    exists (n + S j)%nat, 0%nat. intros m k Hm.
    pose proof (Hn m (S (m - j - 1)) ltac:(lia)) as E.
    replace (j + S (m - j - 1))%nat with m in E by lia.
    rewrite E. now rewrite term_loop_stop.
  - intros Hstop.
    destruct (spells_app _ _ _ _ Hs) as (p1 & Hl & Hrest).
    unfold operator_token in Hrest.
    destruct (spells_shift _ _ _ _ _ Hrest) as (Ht & Hv & p2 & Hsh & Hr).
    assert (Hadd : is_additive (type (current_token p1)) = true).
    { rewrite Ht. now apply (operator_token_additive op). }
    destruct (IH1 p p1 Hl) as (n1 & j1 & Hn1);
      [now apply additive_not_multiplicative|].
    destruct (IH2 p2 p' Hr) as (n2 & j2 & Hn2).
    exists (n1 + n2 + S j2)%nat, (S j1). intros m k Hm.
    replace (S j1 + k)%nat with (j1 + S k)%nat by lia.
    rewrite Hn1 by lia.
    rewrite (expr_loop_round _ k l r p1 p2 p'); auto.
    + unfold token_text. now rewrite Hv.
    + pose proof (Hn2 m (S (m - j2 - 1)) ltac:(lia)) as E.
      replace (j2 + S (m - j2 - 1))%nat with m in E by lia.
      rewrite E. now rewrite term_loop_stop.
Qed.

Lemma expr_complete_fuel `{Host} (ks : list spelling) (e : ExprNode)
  (p p' : Parser) :
  derives 0 ks e -> spells p ks p' ->
  is_additive (type (current_token p')) = false ->
  is_multiplicative (type (current_token p')) = false ->
  exists n, forall m, (n <= m)%nat -> expr m p = Ok (e, p').
Proof.
  intros Hd Hs Ha Hm.
  destruct (derives_complete 0 ks e Hd p p' Hs Hm) as (n & j & Hn).
  exists (S (n + S j)). intros m Hle. destruct m as [|m]; [lia|].
  change (expr (S m) p)
    with ('(node, p1) <- term_with (factor_with (expr m)) m p ;;
          expr_loop (term_with (factor_with (expr m)) m) m node p1).
  pose proof (Hn m (S (m - j - 1)) ltac:(lia)) as E.
  replace (j + S (m - j - 1))%nat with m in E by lia.
  rewrite E. now apply expr_loop_stop.
Qed.

Lemma expr_complete `{Host} (fuel : nat) (ks : list spelling) (e : ExprNode)
  (p p' : Parser) :
  wf (lexer p) -> (tokens_bound p < fuel)%nat ->
  derives 0 ks e -> spells p ks p' ->
  is_additive (type (current_token p')) = false ->
  is_multiplicative (type (current_token p')) = false ->
  expr fuel p = Ok (e, p').
Proof.
  intros Hwf Hb Hd Hs Ha Hm.
  destruct (expr_complete_fuel ks e p p' Hd Hs Ha Hm) as [n Hn].
  pose proof (expr_ends fuel p Hwf Hb) as He.
  destruct (Nat.le_ge_cases n fuel) as [Hle|Hle]; [now apply Hn|].
  rewrite <- (expr_extends _ _ Hle p); [now apply Hn|].
  intros Ef. rewrite Ef in He. exact He.
Qed.

Lemma statement_complete `{Host} (fuel : nat) (ks : list spelling)
  (s : StmtNode) (p p' : Parser) :
  wf (lexer p) -> (tokens_bound p <= fuel)%nat ->
  derives_statement ks s -> spells p ks p' ->
  statement fuel p = Ok (s, p').
Proof.
  intros Hwf Hb Hd Hs. destruct Hd as [x ks e Hd|ks e Hd].
  - destruct (spells_eat _ _ _ _ _ Hs) as (Ht & _ & p1 & E1 & Hs1).
    destruct (spells_eat _ _ _ _ _ Hs1) as (_ & Hv & p2 & E2 & Hs2).
    destruct (spells_eat _ _ _ _ _ Hs2) as (_ & _ & p3 & E3 & Hs3).
    destruct (spells_app _ _ _ _ Hs3) as (p4 & Hse & Hsemi).
    destruct (spells_one _ _ _ _ Hsemi) as (Ht4 & _ & E4).
    destruct (eat_Ok p p1 LET Hwf ltac:(discriminate) E1) as [Hwf1 Hb1].
    destruct (eat_Ok p1 p2 ID Hwf1 ltac:(discriminate) E2) as [Hwf2 Hb2].
    destruct (eat_Ok p2 p3 ASSIGN Hwf2 ltac:(discriminate) E3) as [Hwf3 Hb3].
    unfold statement. rewrite Ht. unfold assignment.
    rewrite E1. cbn [bind]. rewrite E2. cbn [bind]. rewrite E3. cbn [bind].
    rewrite (expr_complete fuel ks e p3 p4); auto;
      [|lia|now rewrite Ht4|now rewrite Ht4].
    cbn [bind]. rewrite E4. cbn [bind].
    unfold token_text. now rewrite Hv.
  - destruct (spells_eat _ _ _ _ _ Hs) as (Ht & _ & p1 & E1 & Hs1).
    destruct (spells_eat _ _ _ _ _ Hs1) as (_ & _ & p2 & E2 & Hs2).
    destruct (spells_app _ _ _ _ Hs2) as (p3 & Hse & Hclose).
    destruct (spells_eat _ _ _ _ _ Hclose) as (Ht3 & _ & p4 & E3 & Hsemi).
    destruct (spells_one _ _ _ _ Hsemi) as (_ & _ & E4).
    destruct (eat_Ok p p1 PRINT Hwf ltac:(discriminate) E1) as [Hwf1 Hb1].
    destruct (eat_Ok p1 p2 LPAREN Hwf1 ltac:(discriminate) E2) as [Hwf2 Hb2].
    unfold statement. rewrite Ht. unfold print_stmt.
    rewrite E1. cbn [bind]. rewrite E2. cbn [bind].
    rewrite (expr_complete fuel ks e p2 p3); auto;
      [|lia|now rewrite Ht3|now rewrite Ht3].
    cbn [bind]. rewrite E3. cbn [bind]. rewrite E4. reflexivity.
Qed.

Lemma derives_statement_head (ks : list spelling) (s : StmtNode) :
  derives_statement ks s -> exists k ks', ks = k :: ks' /\ fst k <> EOF.
Proof.
  intros [x ks0 e Hd|ks0 e Hd]; do 2 eexists;
    (split; [reflexivity|discriminate]).
Qed.

Lemma program_loop_complete `{Host} (ks : list spelling)
  (statements : list StmtNode) :
  derives_program ks statements ->
  forall (fuel : nat) (done : list StmtNode) (p p' : Parser),
    wf (lexer p) -> (tokens_bound p < fuel)%nat ->
    spells p ks p' ->
    type (current_token p') = EOF ->
    program_loop fuel done p = Ok (ProgramNode (done ++ statements), p').
Proof.
  induction 1 as [|ks kss s rest Hd Hp IH];
    intros fuel done p p' Hwf Hb Hs Heof;
    (destruct fuel as [|fuel]; [lia|]).
  - inversion Hs; subst. simpl. rewrite Heof. simpl. now rewrite app_nil_r.
  - destruct (spells_app _ _ _ _ Hs) as (p1 & Hs1 & Hrest).
    assert (Hne : type (current_token p) <> EOF).
    { destruct (derives_statement_head ks s Hd) as (k & ks' & E & Hk).
      rewrite E in Hs1. inversion Hs1; subst. exact Hk. }
    apply TokenType_eqb_neq in Hne.
    simpl. rewrite Hne. simpl.
    assert (Est : statement fuel p = Ok (s, p1))
      by (apply statement_complete with ks; auto; lia).
    pose proof (statement_ends fuel p Hwf ltac:(lia)) as He.
    rewrite Est in He |- *. destruct He as [Hwf1 Hb1]. cbn [bind].
    rewrite (IH fuel (done ++ [s])%list p1 p' Hwf1 ltac:(lia) Hrest Heof).
    now rewrite <- app_assoc.
Qed.

Lemma chain_spells `{Host} (lx : Lexer) (tokens : list Token) (lx' : Lexer) :
  chain lx tokens lx' ->
  forall ks eof,
    map spelled tokens = (ks ++ [eof])%list ->
    exists p p',
      Parser_init lx = Ok p
      /\ spells p ks p'
      /\ type (current_token p') = EOF.
Proof.
  induction 1 as [lx t lx' E Ht|lx t lx1 ts lx' E Ht Hc IH]; intros ks eof Hm.
  - exists (mkParser lx' t), (mkParser lx' t).
    unfold Parser_init. rewrite E. simpl.
    destruct ks as [|k [|k' ks]]; try discriminate.
    repeat split; auto. constructor.
  - destruct ks as [|k ks].
    + simpl in Hm. inversion Hm as [[Hk Hts]].
      inversion Hc; subst; discriminate.
    + simpl in Hm. inversion Hm as [[Hk Hts]].
      destruct (IH ks eof Hts) as (p1 & p' & Ei & Hs & Heof).
      exists (mkParser lx1 t), p'.
      unfold Parser_init. rewrite E. simpl.
      split; [reflexivity|]. split; [|exact Heof].
      apply spells_cons with p1; auto.
Qed.

(** X5. The parser rejects nothing of the grammar of its module.  When
    [tokenize] succeeds on a source and the tokens before EOF are a
    [program] of the grammar, whatever parentheses it has, parsing the
    source raises no error of the parser: it returns, and then the tree of
    that program, unless the parentheses nest beyond the recursion limit of
    the host, which ends the real parser with [RecursionError]. *)
Theorem parse_complete (H : Host) (source : string) (tokens : list Token)
  (lx : Lexer) (ks : list spelling) (statements : list StmtNode) :
  tokenize (Lexer_init source) = Ok (tokens, lx) ->
  map spelled tokens = (ks ++ [(EOF, NoValue)])%list ->
  derives_program ks statements ->
  match parse_source source with
  | Ok ast => ast = ProgramNode statements
  | Raise e => exists msg, e = RecursionError msg
  | OutOfFuel => False
  end.
Proof.
  intros Et Hm Hd. apply tokenize_chain in Et.
  destruct (chain_spells _ _ _ Et ks _ Hm) as (p & p' & Ei & Hs & Heof).
  destruct (Parser_init_ready _ _ (Lexer_init_wf source) Ei) as [[Hwf _] _].
  assert (Ep : parse p = Ok (ProgramNode statements, p')).
  { unfold parse, program.
    rewrite (program_loop_complete ks statements Hd _ [] p p'); auto.
    unfold tokens_bound.
    destruct (TokenType_eqb (type (current_token p)) EOF); lia. }
  unfold parse_source. rewrite Ei. cbn [bind]. rewrite Ep. reflexivity.
Qed.

Lemma parse_complete_witness :
  tokenize (Lexer_init sample_program_text)
  = Ok (sample_program_tokens, sample_program_end)
  /\ derives_program (removelast (map spelled sample_program_tokens))
                     sample_program_tree
  /\ match parse_source sample_program_text with
     | Ok ast => ast = ProgramNode sample_program_tree
     | Raise e => exists msg, e = RecursionError msg
     | OutOfFuel => False
     end.
Proof.
  assert (E : tokenize (Lexer_init sample_program_text)
              = Ok (sample_program_tokens, sample_program_end))
    by (vm_compute; reflexivity).
  assert (Hd : derives_program (removelast (map spelled sample_program_tokens))
                               sample_program_tree).
  { apply (derives_statements
             (removelast (map spelled sample_program_tokens)) [] _ []);
      [|constructor].
    apply (derives_print
             [(LPAREN, StrValue "("); (NUMBER, NumValue (PyInt 1));
              (PLUS, StrValue "+"); (LPAREN, StrValue "(");
              (NUMBER, NumValue (PyInt 2)); (RPAREN, StrValue ")");
              (RPAREN, StrValue ")"); (MUL, StrValue "*"); (ID, StrValue "x")]).
    apply derives_term.
    apply (derives_product
             [(LPAREN, StrValue "("); (NUMBER, NumValue (PyInt 1));
              (PLUS, StrValue "+"); (LPAREN, StrValue "(");
              (NUMBER, NumValue (PyInt 2)); (RPAREN, StrValue ")");
              (RPAREN, StrValue ")")]
             [(ID, StrValue "x")] _ _ "*"); [|reflexivity|constructor].
    apply derives_factor.
    apply (derives_paren
             [(NUMBER, NumValue (PyInt 1)); (PLUS, StrValue "+");
              (LPAREN, StrValue "("); (NUMBER, NumValue (PyInt 2));
              (RPAREN, StrValue ")")]).
    apply (derives_sum [(NUMBER, NumValue (PyInt 1))]
             [(LPAREN, StrValue "("); (NUMBER, NumValue (PyInt 2));
              (RPAREN, StrValue ")")] _ _ "+"); [|reflexivity|].
    - apply derives_term, derives_factor. constructor.
    - apply derives_factor.
      apply (derives_paren [(NUMBER, NumValue (PyInt 2))]).
      apply derives_term, derives_factor. constructor. }
  split; [exact E|]. split; [exact Hd|].
  exact (parse_complete cpython sample_program_text sample_program_tokens
           sample_program_end
           (removelast (map spelled sample_program_tokens))
           sample_program_tree E eq_refl Hd).
Defined.

Lemma parse_sound_witness :
  parse_source sample_program_text = Ok (ProgramNode sample_program_tree)
  /\ exists tokens lx ks,
       tokenize (Lexer_init sample_program_text) = Ok (tokens, lx)
       /\ map spelled tokens = (ks ++ [(EOF, NoValue)])%list
       /\ derives_program ks sample_program_tree.
Proof.
  assert (E : parse_source sample_program_text
              = Ok (ProgramNode sample_program_tree))
    by (vm_compute; reflexivity).
  split; [exact E|].
  exact (parse_sound cpython sample_program_text sample_program_tree E).
Defined.

(** * The errors of a run *)

(** ** The front end *)

Lemma raises_bind {A B : Type} (Q : exn -> Prop) (m : result A)
  (k : A -> result B) :
  raises_only Q m -> (forall a, m = Ok a -> raises_only Q (k a)) ->
  raises_only Q (bind m k).
Proof. destruct m as [a|e|]; simpl; auto. Qed.

Lemma get_next_token_raises `{Host} (lx : Lexer) :
  wf lx -> raises_only run_error (get_next_token lx).
Proof.
  intros Hwf. pose proof (get_next_token_scan lx Hwf) as Hs.
  destruct (get_next_token lx) as [[t lx']|e|]; simpl; auto.
  destruct Hs as (skipped & rest & _ & _ & [Hr|Hr]).
  - destruct Hr as (ch & rest' & _ & _ & _ & _ & _ & ->). constructor.
  - destruct Hr as (_ & _ & msg & ->). constructor.
Qed.

Lemma Parser_init_raises `{Host} (lx : Lexer) :
  wf lx -> raises_only run_error (Parser_init lx).
Proof.
  intros Hwf. unfold Parser_init.
  apply raises_bind; [now apply get_next_token_raises|].
  now intros [t lx'] _.
Qed.

Lemma eat_raises `{Host} (p : Parser) (k : TokenType) :
  ready p -> raises_only run_error (eat p k).
Proof.
  intros [Hwf _]. unfold eat.
  destruct (TokenType_eqb (type (current_token p)) k).
  - apply raises_bind; [now apply get_next_token_raises|].
    now intros [t lx'] _.
  - apply expected_token.
Qed.

Ltac eat_then p1 Hr1 :=
  match goal with
  | Hr : ready ?p |- raises_only _ (bind (eat ?p ?k) _) =>
      let E := fresh "E" in
      apply raises_bind; [exact (eat_raises p k Hr)|];
      intros p1 E;
      pose proof (proj2 (proj2 (eat_step p p1 k Hr E))) as Hr1;
      clear E
  end.

Lemma factor_with_raises `{Host} (inner : parsing ExprNode) :
  sound_at 0 inner -> fails_well inner -> fails_well (factor_with inner).
Proof.
  intros Hs Hf p Hr. unfold factor_with.
  destruct (type (current_token p)); try apply unexpected_token.
  - eat_then p1 Hr1. exact I.
  - eat_then p1 Hr1. exact I.
  - eat_then p1 Hr1. clear Hr.
    apply raises_bind; [now apply Hf|]. intros [node p2] E2.
    destruct (Hs p1 node p2 Hr1 E2) as (_ & _ & _ & Hr2). clear Hr1.
    eat_then p3 Hr3. exact I.
Qed.

Lemma term_loop_raises `{Host} (f : parsing ExprNode) :
  sound_at 2 f -> fails_well f ->
  forall fuel node p, ready p ->
    raises_only run_error (term_loop f fuel node p).
Proof.
  intros Hs Hf. induction fuel as [|fuel IH]; intros node p Hr; [exact I|].
  simpl. destruct (type (current_token p)); try exact I.
  - eat_then p1 Hr1. clear Hr.
    apply raises_bind; [now apply Hf|]. intros [r p2] E2.
    destruct (Hs p1 r p2 Hr1 E2) as (_ & _ & _ & Hr2). now apply IH.
  - eat_then p1 Hr1. clear Hr.
    apply raises_bind; [now apply Hf|]. intros [r p2] E2.
    destruct (Hs p1 r p2 Hr1 E2) as (_ & _ & _ & Hr2). now apply IH.
Qed.

Lemma term_with_raises `{Host} (f : parsing ExprNode) (fuel : nat) :
  sound_at 2 f -> fails_well f -> fails_well (term_with f fuel).
Proof.
  intros Hs Hf p Hr. unfold term_with.
  apply raises_bind; [now apply Hf|]. intros [node p1] E1.
  destruct (Hs p node p1 Hr E1) as (_ & _ & _ & Hr1).
  now apply term_loop_raises.
Qed.

Lemma expr_loop_raises `{Host} (t : parsing ExprNode) :
  sound_at 1 t -> fails_well t ->
  forall fuel node p, ready p ->
    raises_only run_error (expr_loop t fuel node p).
Proof.
  intros Hs Hf. induction fuel as [|fuel IH]; intros node p Hr; [exact I|].
  simpl. destruct (type (current_token p)); try exact I.
  - eat_then p1 Hr1. clear Hr.
    apply raises_bind; [now apply Hf|]. intros [r p2] E2.
    destruct (Hs p1 r p2 Hr1 E2) as (_ & _ & _ & Hr2). now apply IH.
  - eat_then p1 Hr1. clear Hr.
    apply raises_bind; [now apply Hf|]. intros [r p2] E2.
    destruct (Hs p1 r p2 Hr1 E2) as (_ & _ & _ & Hr2). now apply IH.
Qed.

Lemma expr_raises `{Host} (fuel : nat) : fails_well (expr fuel).
Proof.
  induction fuel as [|fuel IH]; intros p Hr; [exact I|].
  change (expr (S fuel) p)
    with ('(node, p1) <- term_with (factor_with (expr fuel)) fuel p ;;
          expr_loop (term_with (factor_with (expr fuel)) fuel) fuel node p1).
  pose proof (factor_with_sound _ (expr_sound fuel)) as Hfs.
  pose proof (factor_with_raises _ (expr_sound fuel) IH) as Hfr.
  pose proof (term_with_sound _ fuel Hfs) as Hts.
  pose proof (term_with_raises _ fuel Hfs Hfr) as Htr.
  apply raises_bind; [now apply Htr|]. intros [node p1] E1.
  destruct (Hts p node p1 Hr E1) as (_ & _ & _ & Hr1).
  now apply expr_loop_raises.
Qed.

Lemma statement_raises `{Host} (fuel : nat) : fails_well (statement fuel).
Proof.
  intros p Hr. unfold statement.
  destruct (type (current_token p)); try apply unexpected_token.
  - unfold assignment.
    eat_then p1 Hr1. clear Hr. eat_then p2 Hr2. clear Hr1.
    eat_then p3 Hr3. clear Hr2.
    apply raises_bind; [now apply expr_raises|]. intros [e p4] E4.
    destruct (expr_sound fuel p3 e p4 Hr3 E4) as (_ & _ & _ & Hr4). clear Hr3.
    eat_then p5 Hr5. exact I.
  - unfold print_stmt.
    eat_then p1 Hr1. clear Hr. eat_then p2 Hr2. clear Hr1.
    apply raises_bind; [now apply expr_raises|]. intros [e p3] E3.
    destruct (expr_sound fuel p2 e p3 Hr2 E3) as (_ & _ & _ & Hr3). clear Hr2.
    eat_then p4 Hr4. clear Hr3. eat_then p5 Hr5. exact I.
Qed.

Lemma program_loop_raises `{Host} (fuel : nat) :
  forall done p, ready p ->
    raises_only run_error (program_loop fuel done p).
Proof.
  induction fuel as [|fuel IH]; intros done p Hr; [exact I|].
  simpl. destruct (negb (TokenType_eqb (type (current_token p)) EOF));
    [|exact I].
  apply raises_bind; [now apply statement_raises|]. intros [s p1] E1.
  destruct (statement_sound fuel p s p1 Hr E1) as (_ & _ & _ & Hr1).
  now apply IH.
Qed.

Lemma parse_source_raises `{Host} (source : string) :
  raises_only run_error (parse_source source).
Proof.
  unfold parse_source.
  apply raises_bind; [apply Parser_init_raises, Lexer_init_wf|].
  intros p Ei.
  destruct (Parser_init_ready _ _ (Lexer_init_wf source) Ei) as [Hr _].
  apply raises_bind; [now apply program_loop_raises|].
  now intros [ast p'] _.
Qed.

(** ** The operators of a parsed program *)

Lemma derives_known_ops (lvl : nat) (ks : list spelling) (e : ExprNode) :
  derives lvl ks e -> known_ops e = true.
Proof.
  induction 1 as [n|x|ks e Hd IH|ks e Hd IH|ks1 ks2 l r op H1 IH1 Hop H2 IH2
                 |ks e Hd IH|ks1 ks2 l r op H1 IH1 Hop H2 IH2]; simpl; auto.
  - now rewrite Hop, IH1, IH2, orb_true_r.
  - now rewrite Hop, IH1, IH2.
Qed.

Lemma derives_program_known_ops (ks : list spelling)
  (statements : list StmtNode) :
  derives_program ks statements ->
  forallb known_ops_statement statements = true.
Proof.
  induction 1 as [|ks kss s rest Hs Hp IH]; simpl; auto.
  rewrite IH, andb_true_r.
  destruct Hs as [x ks e Hd|ks e Hd]; simpl;
    now apply derives_known_ops in Hd.
Qed.

Lemma parse_source_known_ops `{Host} (source : string)
  (statements : list StmtNode) :
  parse_source source = Ok (ProgramNode statements) ->
  forallb known_ops_statement statements = true.
Proof.
  unfold parse_source. intros E.
  destruct (Parser_init (Lexer_init source)) as [p| |] eqn:Ei;
    try discriminate.
  cbn [bind] in E.
  destruct (parse p) as [[ast p']| |] eqn:Ep; try discriminate.
  simpl in E. inversion E; subst ast.
  destruct (Parser_init_ready _ _ (Lexer_init_wf source) Ei) as [Hr _].
  destruct (program_loop_sound _ _ _ _ _ Hr Ep)
    as (ks & sts & Hall & _ & Hd & _).
  simpl in Hall. subst sts. now apply derives_program_known_ops in Hd.
Qed.

(** ** The interpreter *)

Lemma as_float_raises (a : pynum) : raises_only run_error (as_float a).
Proof.
  destruct a as [z|f]; simpl; auto. unfold to_float.
  destruct (binary_normalize prec emax z 0 false); simpl; auto.
  constructor.
Qed.

Lemma arith_raises (int_op : Z -> Z -> Z)
  (float_op : spec_float -> spec_float -> spec_float) (a b : pynum) :
  raises_only run_error (arith int_op float_op a b).
Proof.
  unfold arith. destruct a as [x|f], b as [y|g]; try exact I;
    (apply raises_bind; [apply as_float_raises|]; intros f' _;
     apply raises_bind; [apply as_float_raises|]; now intros g' _).
Qed.

Lemma visit_raises (e : ExprNode) (self : Interpreter) :
  known_ops e = true -> raises_only run_error (fst (visit e self)).
Proof.
  induction e as [v|name|l IHl op r IHr]; intros Hk; simpl.
  - exact I.
  - unfold visit_VarNode.
    destruct (dict_get name (symbol_table self)); simpl; auto.
    apply undefined_variable.
  - simpl in Hk. apply andb_prop in Hk. destruct Hk as [Hk Hkr].
    apply andb_prop in Hk. destruct Hk as [Hop Hkl].
    specialize (IHl Hkl). specialize (IHr Hkr).
    unfold visit_BinOpNode, mbind.
    rewrite (visit_eq l self) in *.
    destruct (fst (visit l self)) as [lv| |]; simpl in *; auto.
    rewrite (visit_eq r self) in *.
    destruct (fst (visit r self)) as [rv| |]; simpl in *; auto.
    unfold additive, multiplicative in Hop.
    destruct (String.eqb op "+"); [apply arith_raises|].
    destruct (String.eqb op "-"); [apply arith_raises|].
    destruct (String.eqb op "*"); [apply arith_raises|].
    destruct (String.eqb op "/"); [|discriminate].
    destruct (py_eq rv (PyInt 0)) eqn:Ez; simpl.
    + apply division_by_zero.
    + destruct (py_truediv_nonzero lv rv Ez) as [[q ->]|[msg ->]]; simpl; auto.
      constructor.
Qed.

Lemma visit_statement_raises `{Host} (node : StmtNode) (self : Interpreter) :
  known_ops_statement node = true ->
  raises_only run_error (fst (visit_statement node self)).
Proof.
  destruct node as [var e|e]; simpl; intros Hk;
    pose proof (visit_raises e self Hk) as Hv;
    [unfold visit_AssignNode|unfold visit_PrintNode]; unfold mbind;
    rewrite (visit_eq e self) in *;
    destruct (fst (visit e self)) as [v| |]; simpl in *; auto.
  unfold print. destruct v as [z|f]; simpl; auto.
  destruct (exceeds_str_digits _); simpl; auto. constructor.
Qed.

Lemma visit_statements_raises `{Host} (statements : list StmtNode) :
  forall self,
    forallb known_ops_statement statements = true ->
    raises_only run_error (fst (visit_statements statements self)).
Proof.
  induction statements as [|s rest IH]; intros self Hk; simpl; auto.
  simpl in Hk. apply andb_prop in Hk. destruct Hk as [Hs Hrest].
  pose proof (visit_statement_raises s self Hs) as Hv.
  unfold mbind. destruct (visit_statement s self) as [[[]|e|] self1];
    simpl in *; auto.
Qed.

(** X6. The errors of a run.  Whatever the source text, a run that fails
    fails with one of these: the lexer's "Invalid character", with a line
    and a column; the [ValueError] of a conversion; the parser's
    "Expected ..., got ..." or "Unexpected token ...", with a line and a
    column; the runtime error of a variable that is not defined; the runtime
    error "Division by zero"; an [OverflowError]; or the [RecursionError] of
    the host, where the parentheses or the tree of an expression nest beyond
    its recursion limit.  So no run ends with Python's own
    [ZeroDivisionError], with a [KeyError], or with the runtime error
    "Unknown operator", whose branch no parsed program reaches. *)
Theorem run_source_errors (H : Host) (source : string) (e : exn) :
  fst (run_source source) = Raise e ->
  run_error e
  /\ (forall msg, e <> ZeroDivisionError msg)
  /\ (forall key, e <> KeyError key)
  /\ (forall op, e <> Exception ("Runtime error: " ++ "Unknown operator: " ++ op)).
Proof.
  intros E.
  assert (He : run_error e).
  { unfold run_source in E.
    pose proof (parse_source_raises source) as Hp.
    destruct (parse_source source) as [[statements]|e'|] eqn:Ep;
      simpl in E.
    - pose proof (visit_statements_raises statements (Interpreter_init "")
                    (parse_source_known_ops _ _ Ep)) as Hv.
      unfold interpret, visit_ProgramNode in E. now rewrite E in Hv.
    - inversion E; subst e'. exact Hp.
    - discriminate. }
  split; [exact He|].
  repeat split; intros x Ex; subst e; inversion He.
Qed.

Lemma run_source_errors_witness :
  fst (run_source "let x = 4; print(x / (2 - 2));")
  = Raise (Exception "Runtime error: Division by zero")
  /\ run_error (Exception "Runtime error: Division by zero").
Proof.
  assert (E : fst (run_source "let x = 4; print(x / (2 - 2));")
              = Raise (Exception "Runtime error: Division by zero"))
    by (vm_compute; reflexivity).
  split; [exact E|].
  exact (proj1 (run_source_errors cpython _ _ E)).
Defined.

(** ** Layout *)

(** X11. Layout does not matter.  When two source texts tokenize to tokens
    of the same types and values, in the same order, whatever white space,
    line breaks and comments lie between them, and the first parses, then
    the second parses to the same tree, and the two runs have the same
    outcome, the same store and the same output. *)
Theorem layout_is_irrelevant (H : Host) (source1 source2 : string)
  (tokens1 tokens2 : list Token) (lx1 lx2 : Lexer) (ast : Program) :
  tokenize (Lexer_init source1) = Ok (tokens1, lx1) ->
  tokenize (Lexer_init source2) = Ok (tokens2, lx2) ->
  map spelled tokens1 = map spelled tokens2 ->
  parse_source source1 = Ok ast ->
  parse_source source2 = Ok ast
  /\ run_source source2 = run_source source1.
Proof.
  intros E1 E2 Hsp Ep.
  assert (Ep2 : parse_source source2 = Ok ast).
  { destruct ast as [statements].
    pose proof Ep as Ep'. unfold parse_source in Ep'.
    destruct (Parser_init (Lexer_init source1)) as [p| |] eqn:Ei;
      try discriminate.
    cbn [bind] in Ep'.
    destruct (parse p) as [[ast p']| |] eqn:Epp; try discriminate.
    simpl in Ep'. inversion Ep'; subst ast.
    destruct (Parser_init_ready _ _ (Lexer_init_wf source1) Ei) as [Hr Eg].
    destruct (program_loop_sound _ _ _ _ _ Hr Epp)
      as (ks & sts & Hall & Hs & Hd & Hr' & Heof).
    simpl in Hall. subst sts.
    destruct (spells_chain _ _ _ Hs _ Eg (derives_program_not_EOF _ _ Hd) Heof)
      as (tokens & Hc & Hm).
    apply tokenize_chain in E1.
    destruct (chain_unique _ _ _ Hc _ _ E1) as [-> _].
    rewrite Hsp in Hm.
    apply tokenize_chain in E2.
    destruct (chain_spells _ _ _ E2 ks _ Hm) as (q & q' & Eq & Hsq & Heofq).
    destruct (Parser_init_ready _ _ (Lexer_init_wf source2) Eq) as [[Hwf _] _].
    unfold parse_source. rewrite Eq. cbn [bind].
    unfold parse, program.
    rewrite (program_loop_complete ks statements Hd _ [] q q'); auto.
    unfold tokens_bound.
    destruct (TokenType_eqb (type (current_token q)) EOF); lia. }
  split; [exact Ep2|]. unfold run_source. now rewrite Ep, Ep2.
Qed.

Lemma layout_is_irrelevant_witness :
  parse_source sample_layout_text = Ok (ProgramNode sample_program_tree)
  /\ run_source sample_layout_text = run_source sample_program_text.
Proof.
  assert (E1 : tokenize (Lexer_init sample_program_text)
               = Ok (sample_program_tokens, sample_program_end))
    by (vm_compute; reflexivity).
  assert (E2 : tokenize (Lexer_init sample_layout_text)
               = Ok (sample_layout_tokens, sample_layout_end))
    by (vm_compute; reflexivity).
  assert (Ep : parse_source sample_program_text
               = Ok (ProgramNode sample_program_tree))
    by (vm_compute; reflexivity).
  exact (layout_is_irrelevant cpython sample_program_text sample_layout_text
           sample_program_tokens sample_layout_tokens
           sample_program_end sample_layout_end
           (ProgramNode sample_program_tree) E1 E2 eq_refl Ep).
Defined.

(** * The store and the output over a run *)

Lemma dict_keys_set_app {V : Type} (k : string) (v : V) (d : dict V) :
  exists new, dict_keys (dict_set k v d) = (dict_keys d ++ new)%list
              /\ (new = [] \/ new = [k]).
Proof.
  unfold dict_keys. induction d as [|[k0 v0] d IH]; simpl.
  - exists [k]. auto.
  - destruct (String.eqb k0 k); simpl.
    + exists []. now rewrite app_nil_r; auto.
    + destruct IH as (new & -> & Hn). exists new. auto.
Qed.

Lemma visit_statement_grows `{Host} (node : StmtNode) (self : Interpreter) :
  exists new out,
    dict_keys (symbol_table (snd (visit_statement node self)))
    = (dict_keys (symbol_table self) ++ new)%list
    /\ stdout (snd (visit_statement node self)) = stdout self ++ out.
Proof.
  destruct node as [var expr|expr]; simpl.
  - rewrite visit_AssignNode_eq.
    destruct (fst (visit expr self)) as [v| |]; simpl;
      try (exists [], ""; now rewrite app_nil_r, append_nil_r).
    destruct (dict_keys_set_app var v (symbol_table self)) as (new & -> & _).
    exists new, "". now rewrite append_nil_r.
  - rewrite visit_PrintNode_eq.
    destruct (fst (visit expr self)) as [v| |]; simpl;
      try (exists [], ""; now rewrite app_nil_r, append_nil_r).
    destruct (py_str v) as [s| |]; simpl;
      try (exists [], ""; now rewrite app_nil_r, append_nil_r).
    exists [], (s ++ String newline ""). now rewrite app_nil_r.
Qed.

(** X8. A run only adds to the store and to the standard output, whether it
    succeeds or fails: after any statements the names of the store are the
    names that it had, in their order, followed by the new ones, and the
    text of the standard output is the text that it had followed by what the
    statements have printed.  No variable is ever removed or moved, and no
    output is taken back. *)
Theorem run_only_adds (H : Host) (statements : list StmtNode)
  (self : Interpreter) :
  exists new out,
    dict_keys (symbol_table (snd (visit_statements statements self)))
    = (dict_keys (symbol_table self) ++ new)%list
    /\ stdout (snd (visit_statements statements self)) = stdout self ++ out.
Proof.
  revert self. induction statements as [|s rest IH]; intros self; simpl.
  - exists [], "". now rewrite app_nil_r, append_nil_r.
  - destruct (visit_statement_grows s self) as (new1 & out1 & Hk1 & Ho1).
    unfold mbind.
    destruct (visit_statement s self) as [[[]|e|] self1]; simpl in *;
      try (exists new1, out1; now split).
    destruct (IH self1) as (new2 & out2 & Hk2 & Ho2).
    exists (new1 ++ new2)%list, (out1 ++ out2).
    rewrite Hk2, Ho2, Hk1, Ho1. now rewrite app_assoc, append_assoc.
Qed.

(** * The interpreter of [app.py] *)

Lemma visit_never_KeyError (e : ExprNode) (self : Interpreter) (key : string) :
  fst (visit e self) <> Raise (KeyError key).
Proof.
  assert (G : raises_only (fun x => forall key, x <> KeyError key)
                          (fst (visit e self))).
  { induction e as [v|name|l IHl op r IHr]; simpl.
    - exact I.
    - unfold visit_VarNode.
      destruct (dict_get name (symbol_table self)); simpl; auto.
      discriminate.
    - unfold visit_BinOpNode, mbind.
      rewrite (visit_eq l self) in *.
      destruct (fst (visit l self)) as [lv| |]; simpl in *; auto.
      rewrite (visit_eq r self) in *.
      destruct (fst (visit r self)) as [rv| |]; simpl in *; auto.
      assert (Ha : forall io fo,
                 raises_only (fun x => forall key, x <> KeyError key)
                             (arith io fo lv rv)).
      { intros io fo. pose proof (arith_raises io fo lv rv) as Hr.
        destruct (arith io fo lv rv) as [?|x|]; simpl in *; auto.
        intros k Ek. subst x. inversion Hr. }
      destruct (String.eqb op "+"); [apply Ha|].
      destruct (String.eqb op "-"); [apply Ha|].
      destruct (String.eqb op "*"); [apply Ha|].
      destruct (String.eqb op "/"); [|simpl; discriminate].
      destruct (py_eq rv (PyInt 0)) eqn:Ez; simpl; [discriminate|].
      destruct (py_truediv_nonzero lv rv Ez) as [[q ->]|[msg ->]]; simpl; auto.
      discriminate. }
  intros E. rewrite E in G. now apply (G key).
Qed.

Lemma py_str_never_KeyError `{Host} (v : pynum) (key : string) :
  py_str v <> Raise (KeyError key).
Proof.
  destruct v as [z|f]; simpl; [|discriminate].
  destruct (exceeds_str_digits _); discriminate.
Qed.

Lemma last_cons {A : Type} (a d : A) (l : list A) :
  last (a :: l) d = last l a.
Proof.
  revert a d. induction l as [|b l IH]; intros a d; [reflexivity|].
  change (last (a :: b :: l) d) with (last (b :: l) d).
  now rewrite !IH.
Qed.

(** One statement on the interpreter of [app.py]: it succeeds and records
    one entry, or fails and records nothing. *)
Lemma web_visit_statement_entry `{Host} (s : StmtNode) (self : WebInterpreter) :
  match web_visit_statement s self with
  | (Ok _, self') =>
      exists entry,
        timeline self' = (timeline self ++ [entry])%list
        /\ output_lines self' = (output_lines self ++ printed [entry])%list
        /\ records s entry
        /\ snapshot entry = symbol_table (base self')
  | (Raise e, self') =>
      self' = self /\ forall key, e <> KeyError key
  | (OutOfFuel, _) => False
  end.
Proof.
  destruct self as [b lines tl]. destruct s as [var expr|expr]; simpl.
  - unfold web_visit_AssignNode, inherited. simpl.
    rewrite visit_AssignNode_eq.
    pose proof (visit_never_KeyError expr b) as Hk.
    pose proof (visit_not_OutOfFuel expr b) as Hf.
    destruct (fst (visit expr b)) as [v| |]; simpl.
    + rewrite dict_get_set_eq. eexists. repeat split; simpl.
      * now rewrite app_nil_r.
      * apply dict_get_set_eq.
    + split; [reflexivity|]. intros key E. apply (Hk key). now rewrite E.
    + congruence.
  - unfold web_visit_PrintNode, inherited. simpl.
    rewrite (visit_eq expr b).
    pose proof (visit_never_KeyError expr b) as Hk.
    pose proof (visit_not_OutOfFuel expr b) as Hf.
    destruct (fst (visit expr b)) as [v| |]; simpl.
    + pose proof (py_str_never_KeyError v) as Hs.
      pose proof (py_str_fuel v) as Hp.
      destruct (py_str v) as [s| |]; simpl.
      * eexists. repeat split; simpl; reflexivity.
      * split; [reflexivity|]. intros key E. apply (Hs key). now rewrite E.
      * congruence.
    + split; [reflexivity|]. intros key E. apply (Hk key). now rewrite E.
    + congruence.
Qed.

(** X9. The records of the interpreter of [app.py].  Whatever the
    statements and whether they succeed or fail, the run adds to [timeline]
    one entry for every statement that has succeeded, in order: an
    assignment entry for an Assign node, with its variable and the value that
    the entry's copy of the store gives to it, a print entry for a Print
    node.  It adds to [output_lines] exactly the texts of the new print
    entries, in order.  The copy of the store in the last new entry is the
    store at the end, and a failing statement records nothing.  All
    statements are recorded when the run succeeds, fewer when it fails, and
    the lookup of the assigned variable never raises [KeyError]. *)
Theorem web_timeline (H : Host) (statements : list StmtNode)
  (self self' : WebInterpreter) (r : result unit) :
  web_visit_statements statements self = (r, self') ->
  exists entries,
    timeline self' = (timeline self ++ entries)%list
    /\ output_lines self' = (output_lines self ++ printed entries)%list
    /\ Forall2 records (firstn (List.length entries) statements) entries
    /\ last (map snapshot entries) (symbol_table (base self))
       = symbol_table (base self')
    /\ match r with
       | Ok _ => List.length entries = List.length statements
       | Raise e =>
           (List.length entries < List.length statements)%nat
           /\ forall key, e <> KeyError key
       | OutOfFuel => False
       end.
Proof.
  revert self. induction statements as [|s rest IH]; intros self E; simpl in E.
  - inversion E; subst. exists []. simpl. rewrite !app_nil_r.
    repeat split; constructor.
  - pose proof (web_visit_statement_entry s self) as Hs.
    destruct (web_visit_statement s self) as [[[]|e|] self1].
    + destruct Hs as (entry & Ht & Ho & Hr & Hsn).
      destruct (IH self1 E) as (entries & Ht' & Ho' & Hr' & Hsn' & Hlen).
      exists (entry :: entries). split; [|split; [|split; [|split]]].
      * rewrite Ht', Ht. now rewrite <- app_assoc.
      * rewrite Ho', Ho, <- app_assoc. f_equal.
        now destruct entry.
      * simpl. now constructor.
      * rewrite <- Hsn'. simpl map. rewrite last_cons. now rewrite Hsn.
      * destruct r; simpl; auto. destruct Hlen. split; auto. lia.
    + destruct Hs as [-> Hk]. inversion E; subst.
      exists []. simpl. rewrite !app_nil_r.
      split; [reflexivity|]. split; [reflexivity|].
      split; [constructor|]. split; [reflexivity|].
      split; [lia|exact Hk].
    + contradiction.
Qed.

Lemma web_timeline_witness :
  web_visit_statements sample_web_program (WebInterpreter_init "")
  = (Raise (Exception "Runtime error: Variable 'b' is not defined"),
     sample_web_end)
  /\ exists entries,
       timeline sample_web_end = (timeline (WebInterpreter_init "")
                                  ++ entries)%list
       /\ output_lines sample_web_end
          = (output_lines (WebInterpreter_init "") ++ printed entries)%list
       /\ List.length entries = 2%nat.
Proof.
  assert (E : web_visit_statements sample_web_program (WebInterpreter_init "")
              = (Raise (Exception "Runtime error: Variable 'b' is not defined"),
                 sample_web_end))
    by (vm_compute; reflexivity).
  split; [exact E|].
  destruct (web_timeline cpython _ _ _ _ E)
    as (entries & Ht & Ho & Hr & _ & _).
  exists entries. split; [exact Ht|]. split; [exact Ho|].
  apply (f_equal (@List.length _)) in Ht. simpl in Ht.
  now rewrite <- Ht.
Defined.

(** * The token stream of [app.py] *)

Lemma TokenType_name_EOF (t : TokenType) :
  String.eqb (TokenType_name t) "EOF" = TokenType_eqb t EOF.
Proof. now destruct t. Qed.

Lemma chain_length `{Host} (lx : Lexer) (tokens : list Token) (lx' : Lexer) :
  chain lx tokens lx' -> wf lx ->
  (List.length tokens <= S (remaining lx))%nat.
Proof.
  induction 1 as [lx t lx' E Ht|lx t lx1 ts lx' E Ht Hc IH]; intros Hwf;
    [simpl; lia|].
  pose proof (get_next_token_step lx Hwf) as Hs. rewrite E in Hs.
  destruct Hs as (_ & s & Hp & Hne & _).
  pose proof (passed_remaining _ _ _ Hp) as Hr.
  pose proof (length_nonempty s (Hne Ht)).
  specialize (IH (proj1 Hp)). simpl. lia.
Qed.

Lemma app_tokenize_loop_chain `{Host} (lx : Lexer) (tokens : list Token)
  (lx' : Lexer) :
  chain lx tokens lx' ->
  forall fuel acc,
    (List.length tokens <= fuel)%nat ->
    app_tokenize_loop fuel acc lx
    = (entries <- tokens_to_dicts tokens ;; Ok (acc ++ entries)%list).
Proof.
  induction 1 as [lx t lx' E Ht|lx t lx1 ts lx' E Ht Hc IH];
    intros fuel acc Hf; (destruct fuel as [|fuel]; [simpl in Hf; lia|]);
    simpl; rewrite E; cbn [bind]; rewrite TokenType_name_EOF.
  - apply TokenType_eqb_eq in Ht. rewrite Ht.
    now destruct (token_to_dict t).
  - apply TokenType_eqb_neq in Ht. rewrite Ht.
    destruct (token_to_dict t) as [entry| |]; simpl; auto.
    rewrite IH by (simpl in Hf; lia).
    destruct (tokens_to_dicts ts) as [entries| |]; simpl; auto.
    now rewrite <- app_assoc.
Qed.

Lemma chain_fails_length `{Host} (lx : Lexer) (tokens : list Token)
  (lx' : Lexer) (e : exn) :
  chain_fails lx tokens lx' e -> wf lx ->
  (List.length tokens <= remaining lx)%nat.
Proof.
  induction 1 as [lx e E|lx t lx1 ts lx' e E Ht Hc IH]; intros Hwf;
    [simpl; lia|].
  pose proof (get_next_token_step lx Hwf) as Hs. rewrite E in Hs.
  destruct Hs as (_ & s & Hp & Hne & _).
  pose proof (passed_remaining _ _ _ Hp) as Hr.
  pose proof (length_nonempty s (Hne Ht)).
  specialize (IH (proj1 Hp)). simpl. lia.
Qed.

Lemma app_tokenize_loop_fails `{Host} (lx : Lexer) (tokens : list Token)
  (lx' : Lexer) (e : exn) :
  chain_fails lx tokens lx' e ->
  forall fuel acc,
    (List.length tokens < fuel)%nat ->
    exists e', app_tokenize_loop fuel acc lx = Raise e'.
Proof.
  induction 1 as [lx e E|lx t lx1 ts lx' e E Ht Hc IH];
    intros fuel acc Hf; (destruct fuel as [|fuel]; [simpl in Hf; lia|]);
    simpl; rewrite E; cbn [bind]; [eauto|].
  rewrite TokenType_name_EOF.
  apply TokenType_eqb_neq in Ht. rewrite Ht.
  pose proof (py_str_fuel) as Hp.
  destruct (token_to_dict t) as [entry|e'|] eqn:Et; simpl; eauto.
  - apply IH. simpl in Hf. lia.
  - exfalso. unfold token_to_dict, token_value_str in Et.
    destruct (value t) as [|n|s]; try discriminate.
    specialize (Hp n). destruct (py_str n); simpl in Et; congruence.
Qed.

(** X10. The loop of the [/tokenize] endpoint of [app.py], which takes the
    tokens one by one and stops after EOF, sees the tokens of
    [Lexer.tokenize]: whenever [tokenize] succeeds on a code, the endpoint
    gives the dictionaries of exactly those tokens, in order, each with the
    name of its type, the text of its value (empty for EOF) and its line and
    column, and fails only if the text of a value cannot be made; and
    whenever [tokenize] raises, the endpoint raises too and returns no
    tokens. *)
Theorem app_tokenize_agrees (H : Host) (code : string) :
  match tokenize (Lexer_init code) with
  | Ok (tokens, _) => app_tokenize code = tokens_to_dicts tokens
  | Raise _ => exists e, app_tokenize code = Raise e
  | OutOfFuel => False
  end.
Proof.
  pose proof (tokenize_ends (Lexer_init code) (Lexer_init_wf code)) as He.
  destruct (tokenize (Lexer_init code)) as [[tokens lx]|e|] eqn:E;
    [| |exact He].
  - apply tokenize_chain in E.
    pose proof (chain_length _ _ _ E (Lexer_init_wf code)) as Hl.
    unfold app_tokenize. cbv zeta.
    rewrite (app_tokenize_loop_chain _ _ _ E) by lia.
    now destruct (tokens_to_dicts tokens).
  - apply tokenize_chain_fails in E. destruct E as (ts & lx' & Hc).
    pose proof (chain_fails_length _ _ _ _ Hc (Lexer_init_wf code)) as Hl.
    apply (app_tokenize_loop_fails _ _ _ _ Hc). lia.
Qed.

(** * Where the front end fails *)

(** ** The outcomes of the parsing methods *)

(** If [eat] keeps a property of the parser and fails only in a class of
    errors that holds the "Unexpected token" errors too, so does every
    parsing method. *)
Section Outcomes.
Context `{Host}.
Variable Inv : Parser -> Prop.
Variable Q : exn -> Prop.
Hypothesis eat_good : forall p k, Inv p -> eat_outcome Inv Q (eat p k).
Hypothesis unexpected_good :
  forall p, Inv p ->
    outcome (A := unit) Inv Q
      (parser_error p ("Unexpected token "
                       ++ TokenType_str (type (current_token p)))).

Lemma outcome_eat {A : Type} (p : Parser) (k : TokenType)
  (rest : Parser -> result (A * Parser)) :
  Inv p -> (forall p1, Inv p1 -> outcome Inv Q (rest p1)) ->
  outcome Inv Q (bind (eat p k) rest).
Proof.
  intros Hp Hrest. pose proof (eat_good p k Hp) as He.
  destruct (eat p k) as [p1|e|]; simpl in *; auto.
Qed.

Lemma outcome_bind {A B : Type} (m : result (A * Parser))
  (rest : A * Parser -> result (B * Parser)) :
  outcome Inv Q m ->
  (forall a p1, Inv p1 -> outcome Inv Q (rest (a, p1))) ->
  outcome Inv Q (bind m rest).
Proof. destruct m as [[a p1]|e|]; simpl; auto. Qed.

Lemma factor_with_outcome (inner : parsing ExprNode) :
  (forall p, Inv p -> outcome Inv Q (inner p)) ->
  forall p, Inv p -> outcome Inv Q (factor_with inner p).
Proof.
  intros Hin p Hp. unfold factor_with.
  destruct (type (current_token p)) eqn:Et;
    try (pose proof (unexpected_good p Hp) as Hu; rewrite Et in Hu;
         exact Hu).
  - apply outcome_eat; auto.
  - apply outcome_eat; auto.
  - apply outcome_eat; auto. intros p1 Hp1.
    apply outcome_bind; auto. intros node p2 Hp2.
    apply outcome_eat; auto.
Qed.

Lemma term_loop_outcome (f : parsing ExprNode) :
  (forall p, Inv p -> outcome Inv Q (f p)) ->
  forall fuel node p, Inv p -> outcome Inv Q (term_loop f fuel node p).
Proof.
  intros Hf. induction fuel as [|fuel IH]; intros node p Hp; [exact I|].
  simpl. destruct (type (current_token p)); try exact Hp;
    (apply outcome_eat; auto; intros p1 Hp1;
     apply outcome_bind; auto; intros r p2 Hp2; now apply IH).
Qed.

Lemma term_with_outcome (f : parsing ExprNode) (fuel : nat) :
  (forall p, Inv p -> outcome Inv Q (f p)) ->
  forall p, Inv p -> outcome Inv Q (term_with f fuel p).
Proof.
  intros Hf p Hp. unfold term_with.
  apply outcome_bind; auto. intros node p1 Hp1.
  now apply term_loop_outcome.
Qed.

Lemma expr_loop_outcome (t : parsing ExprNode) :
  (forall p, Inv p -> outcome Inv Q (t p)) ->
  forall fuel node p, Inv p -> outcome Inv Q (expr_loop t fuel node p).
Proof.
  intros Ht. induction fuel as [|fuel IH]; intros node p Hp; [exact I|].
  simpl. destruct (type (current_token p)); try exact Hp;
    (apply outcome_eat; auto; intros p1 Hp1;
     apply outcome_bind; auto; intros r p2 Hp2; now apply IH).
Qed.

Lemma expr_outcome (fuel : nat) :
  forall p, Inv p -> outcome Inv Q (expr fuel p).
Proof.
  induction fuel as [|fuel IH]; intros p Hp; [exact I|].
  change (expr (S fuel) p)
    with ('(node, p1) <- term_with (factor_with (expr fuel)) fuel p ;;
          expr_loop (term_with (factor_with (expr fuel)) fuel) fuel node p1).
  assert (Ht : forall p, Inv p ->
                 outcome Inv Q (term_with (factor_with (expr fuel)) fuel p)).
  { apply term_with_outcome. now apply factor_with_outcome. }
  apply outcome_bind; auto. intros node p1 Hp1.
  now apply expr_loop_outcome.
Qed.

Lemma statement_outcome (fuel : nat) :
  forall p, Inv p -> outcome Inv Q (statement fuel p).
Proof.
  intros p Hp. unfold statement.
  destruct (type (current_token p)) eqn:Et;
    try (pose proof (unexpected_good p Hp) as Hu; rewrite Et in Hu;
         exact Hu).
  - unfold assignment.
    apply outcome_eat; auto. intros p1 Hp1.
    apply outcome_eat; auto. intros p2 Hp2.
    apply outcome_eat; auto. intros p3 Hp3.
    apply outcome_bind; [now apply expr_outcome|]. intros e p4 Hp4.
    apply outcome_eat; auto.
  - unfold print_stmt.
    apply outcome_eat; auto. intros p1 Hp1.
    apply outcome_eat; auto. intros p2 Hp2.
    apply outcome_bind; [now apply expr_outcome|]. intros e p3 Hp3.
    apply outcome_eat; auto. intros p4 Hp4.
    apply outcome_eat; auto.
Qed.

Lemma program_loop_outcome (fuel : nat) :
  forall done p, Inv p -> outcome Inv Q (program_loop fuel done p).
Proof.
  induction fuel as [|fuel IH]; intros done p Hp; [exact I|].
  simpl. destruct (negb (TokenType_eqb (type (current_token p)) EOF));
    [|exact Hp].
  apply outcome_bind; [now apply statement_outcome|].
  intros s p1 Hp1. now apply IH.
Qed.

End Outcomes.

(** ** The parser on a source *)

(** The next token, taken where the text before the lexer is whole
    tokens. *)
Lemma get_next_token_at_source `{Host} (source : string) (lx : Lexer)
  (consumed : string) :
  wf lx -> source = consumed ++ unread lx ->
  scanned consumed (unread lx) ->
  position lx = position_after consumed (1%nat, 1%nat) ->
  eat_outcome (at_source source)
              (fun e => lexical_error source e \/ syntax_error source e)
              ('(token, lx') <- get_next_token lx ;; Ok (mkParser lx' token)).
Proof.
  intros Hwf Hsrc Hsc Hpos. pose proof (get_next_token_scan lx Hwf) as Hs.
  destruct (get_next_token lx) as [[t lx']|e|]; simpl; auto.
  - destruct Hs as (skipped & lexeme & Hp & Hb & Hg & Hr & Ht & Hpos').
    split; [apply Hp|]. exists consumed, skipped, lexeme. simpl.
    destruct Hp as (_ & _ & Hu). rewrite append_assoc in Hu.
    split; [now rewrite Hsrc, Hu|]. split; [now rewrite <- Hu|].
    split; [exact Hb|]. split; [exact Hg|]. split; [exact Hr|]. split.
    + now rewrite Ht, Hpos, position_after_app.
    + now rewrite Hpos', Hpos, <- !position_after_app.
  - destruct Hs as (skipped & rest & Hu & Hg & Hr). left.
    exists consumed, skipped, rest.
    split; [now rewrite Hsrc, Hu|]. split; [now rewrite <- Hu|].
    split; [exact Hg|].
    now rewrite position_after_app, <- Hpos.
Qed.

Lemma eat_at_source `{Host} (source : string) (p : Parser) (k : TokenType) :
  at_source source p ->
  eat_outcome (at_source source)
              (fun e => lexical_error source e \/ syntax_error source e)
              (eat p k).
Proof.
  intros (Hwf & consumed & skipped & lexeme & Hsrc & Hsc & Hb & Hg & Hr & Ht
          & Hpos).
  unfold eat.
  destruct (TokenType_eqb (type (current_token p)) k) eqn:Ek.
  - destruct (TokenType_eqb (type (current_token p)) EOF) eqn:Eeof.
    + apply TokenType_eqb_eq in Eeof. rewrite Eeof in Hr.
      destruct (reads_eof_inv _ _ _ Hr) as (-> & Hu & _).
      assert (Hc : current_char (lexer p) = None)
        by (now rewrite (wf_head _ Hwf), Hu).
      rewrite (get_next_token_at_end (lexer p) Hc). simpl.
      split; [exact Hwf|]. exists consumed, skipped, "". simpl.
      split; [exact Hsrc|]. split; [exact Hsc|]. split; [exact Hb|].
      split; [congruence|]. split; [rewrite Hu; constructor|].
      rewrite append_nil_r in *. split; [exact Hpos|exact Hpos].
    + apply TokenType_eqb_neq in Eeof.
      apply (get_next_token_at_source source (lexer p)
                                      (consumed ++ skipped ++ lexeme));
        auto.
      * now rewrite !append_assoc.
      * eapply scanned_token; eauto.
  - apply TokenType_eqb_neq in Ek. simpl. right.
    exists consumed, skipped, lexeme, (unread (lexer p)),
      (type (current_token p)), (value (current_token p)).
    eexists. split; [exact Hsrc|]. split; [exact Hsc|]. split; [exact Hb|].
    split; [exact Hg|]. split; [exact Hr|]. split.
    + right. exists k. split; [congruence|reflexivity].
    + rewrite <- Ht. reflexivity.
Qed.

Lemma unexpected_at_source `{Host} (source : string) (p : Parser) :
  at_source source p ->
  outcome (A := unit) (at_source source)
    (fun e => lexical_error source e \/ syntax_error source e)
    (parser_error p ("Unexpected token "
                     ++ TokenType_str (type (current_token p)))).
Proof.
  intros (Hwf & consumed & skipped & lexeme & Hsrc & Hsc & Hb & Hg & Hr & Ht
          & Hpos).
  simpl. right.
  exists consumed, skipped, lexeme, (unread (lexer p)),
    (type (current_token p)), (value (current_token p)).
  eexists. split; [exact Hsrc|]. split; [exact Hsc|]. split; [exact Hb|].
  split; [exact Hg|]. split; [exact Hr|]. split.
  - left. reflexivity.
  - rewrite <- Ht. reflexivity.
Qed.

(** X12. Where the front end fails.  When lexing and parsing a source
    raises, the error is the [RecursionError] of the host (where the
    parentheses nest beyond its recursion limit), or an error at a place of
    the source that follows whole tokens: a gap and a lexeme, a gap and a
    lexeme and so on.  At that place, after one more gap, either the lexer
    rejects what follows: a character that starts no token, and the error is
    the lexer's with the line and column of that character, or digits and
    dots that are no number, and the error is the [ValueError] of the
    conversion; or the parser rejects the next token (at the end of the text
    the token EOF): the error is "Parser error at line L, column C:" with the
    line and column where the lexeme of that token starts, followed by
    "Unexpected token T" or "Expected W, got T", where T is the type of that
    token and W another type. *)
Theorem front_end_error_position (H : Host) (source : string) (e : exn) :
  parse_source source = Raise e ->
  lexical_error source e
  \/ syntax_error source e
  \/ exists msg, e = RecursionError msg.
Proof.
  unfold parse_source. intros E.
  assert (G : lexical_error source e \/ syntax_error source e);
    [|destruct G; auto].
  pose proof (get_next_token_at_source source (Lexer_init source) ""
                (Lexer_init_wf source) eq_refl (scanned_nothing _) eq_refl)
    as Hi.
  fold (Parser_init (Lexer_init source)) in Hi.
  destruct (Parser_init (Lexer_init source)) as [p|e'|]; simpl in *;
    [|now inversion E; subst|discriminate].
  pose proof (program_loop_outcome (at_source source) _
                (eat_at_source source) (unexpected_at_source source)
                (S (S (remaining (lexer p)))) [] p Hi) as Hp.
  unfold parse, program in E.
  destruct (program_loop (S (S (remaining (lexer p)))) [] p)
    as [[ast p']|e'|]; simpl in *; try discriminate.
  now inversion E; subst.
Qed.

Lemma front_end_error_position_witness :
  parse_source sample_syntax_error_text
  = Raise (Exception
      "Parser error at line 2, column 12: Expected TokenType.RPAREN, got TokenType.SEMI")
  /\ (lexical_error sample_syntax_error_text
        (Exception
          "Parser error at line 2, column 12: Expected TokenType.RPAREN, got TokenType.SEMI")
      \/ syntax_error sample_syntax_error_text
        (Exception
          "Parser error at line 2, column 12: Expected TokenType.RPAREN, got TokenType.SEMI")
      \/ exists msg,
           Exception
             "Parser error at line 2, column 12: Expected TokenType.RPAREN, got TokenType.SEMI"
           = RecursionError msg).
Proof.
  assert (E : parse_source sample_syntax_error_text
              = Raise (Exception
      "Parser error at line 2, column 12: Expected TokenType.RPAREN, got TokenType.SEMI"))
    by (vm_compute; reflexivity).
  split; [exact E|].
  exact (front_end_error_position cpython sample_syntax_error_text _ E).
Defined.
